(** * Thunderbird msgFilterRules.dat parser: model and properties

    A shallow embedding of [msg_filter_parser.py]: the rule record
    [MsgFilterRule], the parser object [MsgFilterParser] and its methods
    [parse_content], [write_file], [find_rule_by_name],
    [add_condition_to_rule] and [create_new_rule].

    Python strings are sequences of Unicode code points; rule objects live
    in a heap and the parser's [rules] attribute is a list of references,
    so that the in-place mutation done by [add_condition_to_rule] is
    visible through the parser, as in the source. *)

From Stdlib Require Import NArith List String Ascii Bool Lia.
From stdpp Require Import base list.
Import ListNotations.

Local Open Scope N_scope.

(** ** Python [str] primitives used by the parser *)

Module PyStr.

(** A character is a Unicode code point, a string a list of them. *)
Abbreviation char := N (only parsing).
Abbreviation str := (list N) (only parsing).

(** A source literal, written as a Rocq string of ASCII characters. *)
Definition lit (s : string) : str :=
  map N_of_ascii (list_ascii_of_string s).
Arguments lit : simpl never.

(** The two characters that cannot be written inside a literal here. *)
Definition dquote : str := [34].
Definition nl : str := [10].

(** [str.isspace] on one character: the code points CPython's
    [_PyUnicode_IsWhitespace] accepts. *)
Definition isspace (c : char) : bool :=
  ((9 <=? c) && (c <=? 13)) || ((28 <=? c) && (c <=? 32))
  || (c =? 133) || (c =? 160) || (c =? 5760)
  || ((8192 <=? c) && (c <=? 8202))
  || (c =? 8232) || (c =? 8233) || (c =? 8239) || (c =? 8287)
  || (c =? 12288).

(** [c in chars] for a single character [c]. *)
Definition char_in (chars : str) (c : char) : bool :=
  existsb (N.eqb c) chars.

Fixpoint drop_while (p : char -> bool) (s : str) : str :=
  match s with
  | [] => []
  | c :: t => if p c then drop_while p t else s
  end.

Definition lstrip_by (p : char -> bool) (s : str) : str := drop_while p s.
Definition rstrip_by (p : char -> bool) (s : str) : str :=
  rev (drop_while p (rev s)).
Definition strip_by (p : char -> bool) (s : str) : str :=
  rstrip_by p (lstrip_by p s).

(** [s.strip()] *)
Definition strip (s : str) : str := strip_by isspace s.

(** [s.strip(chars)] *)
Definition strip_chars (chars : str) (s : str) : str :=
  strip_by (char_in chars) s.

(** First piece and remaining pieces of [s] cut at every [c]. *)
Fixpoint split_aux (c : char) (s : str) : str * list str :=
  match s with
  | [] => ([], [])
  | x :: t =>
      let (w, ws) := split_aux c t in
      if x =? c then ([], w :: ws) else (x :: w, ws)
  end.

(** [s.split(c)] for a one-character separator: never the empty list. *)
Definition split (c : char) (s : str) : list str :=
  let (w, ws) := split_aux c s in w :: ws.

(** The part of [s] before the first [c], and the part after it if any. *)
Fixpoint partition_at (c : char) (s : str) : str * option str :=
  match s with
  | [] => ([], None)
  | x :: t =>
      if x =? c then ([], Some t)
      else let (w, r) := partition_at c t in (x :: w, r)
  end.

(** [s.split(c, 1)]: at most one cut. *)
Definition split_max1 (c : char) (s : str) : list str :=
  match partition_at c s with
  | (w, None) => [w]
  | (w, Some r) => [w; r]
  end.

Fixpoint startswith (p s : str) : bool :=
  match p, s with
  | [], _ => true
  | _ :: _, [] => false
  | a :: p', b :: s' => (a =? b) && startswith p' s'
  end.

(** [needle in hay] (substring test). *)
Fixpoint str_in (needle hay : str) : bool :=
  match hay with
  | [] => startswith needle []
  | _ :: t => startswith needle hay || str_in needle t
  end.

(** [a == b] *)
Fixpoint str_eqb (a b : str) : bool :=
  match a, b with
  | [], [] => true
  | x :: a', y :: b' => (x =? y) && str_eqb a' b'
  | _, _ => false
  end.

(** Truth value of a string: non-empty. *)
Definition truthy (s : str) : bool :=
  match s with [] => false | _ :: _ => true end.

(** [sep.join(pieces)] *)
Fixpoint join (sep : str) (pieces : list str) : str :=
  match pieces with
  | [] => []
  | [p] => p
  | p :: rest => p ++ sep ++ join sep rest
  end.

End PyStr.

Import PyStr.

(** ** Exceptions *)

Inductive exn : Type := ValueError.

Inductive result (A : Type) : Type :=
| Ok (a : A)
| Raise (e : exn).
Arguments Ok {A} a.
Arguments Raise {A} e.

Definition bind {A B : Type} (m : result A) (k : A -> result B) : result B :=
  match m with
  | Ok a => k a
  | Raise e => Raise e
  end.

Notation "x <- m ;; k" := (bind m (fun x => k))
  (at level 60, m at next level, right associativity).

(** [a, b = parts]: unpacking raises [ValueError] unless there are exactly
    two items. *)
Definition unpack2 (parts : list str) : result (str * str) :=
  match parts with
  | [a; b] => Ok (a, b)
  | _ => Raise ValueError
  end.

(** ** The rule record ([class MsgFilterRule]) *)

Record MsgFilterRule : Type := mkRule {
  name : str;
  enabled : str;
  type : str;
  action : str;
  action_value : str;
  condition : str
}.

(** Default arguments of [MsgFilterRule.__init__]. *)
Definition default_enabled : str := lit "yes".
Definition default_type : str := lit "17".
Definition default_action : str := lit "Move to folder".
Definition default_action_value : str := [].
Definition default_condition : str := [].

(** [MsgFilterRule(name=value)] *)
Definition new_rule (value : str) : MsgFilterRule :=
  mkRule value default_enabled default_type default_action
         default_action_value default_condition.

(** Attribute assignments [rule.<field> = value]. *)
Definition set_enabled (v : str) (r : MsgFilterRule) : MsgFilterRule :=
  mkRule (name r) v (type r) (action r) (action_value r) (condition r).
Definition set_type (v : str) (r : MsgFilterRule) : MsgFilterRule :=
  mkRule (name r) (enabled r) v (action r) (action_value r) (condition r).
Definition set_action (v : str) (r : MsgFilterRule) : MsgFilterRule :=
  mkRule (name r) (enabled r) (type r) v (action_value r) (condition r).
Definition set_action_value (v : str) (r : MsgFilterRule) : MsgFilterRule :=
  mkRule (name r) (enabled r) (type r) (action r) v (condition r).
Definition set_condition (v : str) (r : MsgFilterRule) : MsgFilterRule :=
  mkRule (name r) (enabled r) (type r) (action r) (action_value r) v.

(** [f'<key>="{value}"'] *)
Definition kv_line (key value : str) : str :=
  key ++ lit "=" ++ dquote ++ value ++ dquote.

(** [MsgFilterRule.to_string] *)
Definition to_string (self : MsgFilterRule) : str :=
  let lines :=
    [ kv_line (lit "name") (name self);
      kv_line (lit "enabled") (enabled self);
      kv_line (lit "type") (type self);
      kv_line (lit "action") (action self);
      kv_line (lit "actionValue") (action_value self);
      kv_line (lit "condition") (condition self) ] in
  join nl lines.

(** ** The object heap

    Rule objects are mutable and shared by reference: a reference is an
    index into the heap, objects are never freed, and a new object takes
    the next free index. *)

Definition loc := nat.
Definition heap := list MsgFilterRule.

Global Instance MsgFilterRule_inhabited : Inhabited MsgFilterRule :=
  populate (mkRule [] [] [] [] [] []).

Definition deref (h : heap) (l : loc) : MsgFilterRule := h !!! l.
Definition store (h : heap) (l : loc) (r : MsgFilterRule) : heap := <[l := r]> h.
Definition alloc (h : heap) (r : MsgFilterRule) : heap * loc :=
  (h ++ [r], length h).

(** ** The parser object ([class MsgFilterParser]) *)

Record MsgFilterParser : Type := mkParser {
  version : str;
  logging : str;
  rules : list loc
}.

(** [MsgFilterParser.__init__] *)
Definition MsgFilterParser_init : MsgFilterParser := mkParser [] [] [].

Definition set_version (v : str) (p : MsgFilterParser) : MsgFilterParser :=
  mkParser v (logging p) (rules p).
Definition set_logging (v : str) (p : MsgFilterParser) : MsgFilterParser :=
  mkParser (version p) v (rules p).
Definition set_rules (rs : list loc) (p : MsgFilterParser) : MsgFilterParser :=
  mkParser (version p) (logging p) rs.

(** The rules of a parser as values, in sequence order. *)
Definition doc_rules (h : heap) (p : MsgFilterParser) : list MsgFilterRule :=
  map (deref h) (rules p).

(** Every reference held by the parser points to a live object. *)
Definition wf (h : heap) (p : MsgFilterParser) : Prop :=
  Forall (fun l => (l < length h)%nat) (rules p).

(** ** [parse_content] *)

(** The variables of the loop over the lines: the heap, [self], and the
    locals [current_rule] and [rules]. *)
Record pstate : Type := mkPState {
  st_heap : heap;
  st_self : MsgFilterParser;
  current_rule : option loc;
  st_rules : list loc
}.

(** [rules.append(current_rule)] under [if current_rule:]. *)
Definition append_current (cur : option loc) (rs : list loc) : list loc :=
  match cur with
  | Some l => rs ++ [l]
  | None => rs
  end.

(** [key, value = line.split('=', 1)], [key = key.strip()], and
    [value = value.strip()] followed by the strip of the double-quote
    character. *)
Definition key_value (line : str) : result (str * str) :=
  kv <- unpack2 (split_max1 61 line) ;;
  Ok (strip (fst kv), strip_chars dquote (strip (snd kv))).

(** The chain [if key == 'version': ... elif key == 'logging': ...
    elif key == 'name': ... elif current_rule: ...] for one key and value. *)
Definition dispatch (key value : str) (st : pstate) : pstate :=
  let h := st_heap st in
  if str_eqb key (lit "version") then
    mkPState h (set_version value (st_self st)) (current_rule st) (st_rules st)
  else if str_eqb key (lit "logging") then
    mkPState h (set_logging value (st_self st)) (current_rule st) (st_rules st)
  else if str_eqb key (lit "name") then
    let rs := append_current (current_rule st) (st_rules st) in
    let (h', l) := alloc h (new_rule value) in
    mkPState h' (st_self st) (Some l) rs
  else
    match current_rule st with
    | Some l =>
        let upd (f : str -> MsgFilterRule -> MsgFilterRule) :=
          mkPState (store h l (f value (deref h l))) (st_self st)
                   (current_rule st) (st_rules st) in
        if str_eqb key (lit "enabled") then upd set_enabled
        else if str_eqb key (lit "type") then upd set_type
        else if str_eqb key (lit "action") then upd set_action
        else if str_eqb key (lit "actionValue") then upd set_action_value
        else if str_eqb key (lit "condition") then upd set_condition
        else st
    | None => st
    end.

(** The body of the loop for one line. *)
Definition parse_line (line : str) (st : pstate) : result pstate :=
  let line := strip line in
  if negb (truthy line) then Ok st
  else if str_in (lit "=") line then
    kv <- key_value line ;;
    Ok (dispatch (fst kv) (snd kv) st)
  else Ok st.

(** [for line in lines: ...] *)
Fixpoint parse_lines (lines : list str) (st : pstate) : result pstate :=
  match lines with
  | [] => Ok st
  | line :: rest => st' <- parse_line line st ;; parse_lines rest st'
  end.

(** [parse_content]: the heap and [self] after the call, and the returned
    list. *)
Definition parse_content (h : heap) (self : MsgFilterParser) (content : str)
  : result (heap * MsgFilterParser * list loc) :=
  let lines := split 10 (strip content) in
  st <- parse_lines lines (mkPState h self None []) ;;
  let rs := append_current (current_rule st) (st_rules st) in
  Ok (st_heap st, set_rules rs (st_self st), rs).

(** ** [write_file]

    The file is opened for writing, so it starts empty; each [f.write]
    appends. The model returns the text the file holds when it is closed. *)
Definition fwrite (f : str) (s : str) : str := f ++ s.

Definition write_file (h : heap) (self : MsgFilterParser)
    (rules_arg : option (list loc)) : str :=
  let rs := match rules_arg with None => rules self | Some rs => rs end in
  let f := [] in
  let f := if truthy (version self)
           then fwrite f (kv_line (lit "version") (version self) ++ nl)
           else f in
  let f := if truthy (logging self)
           then fwrite f (kv_line (lit "logging") (logging self) ++ nl)
           else f in
  fold_left (fun f rule => fwrite f (to_string (deref h rule) ++ nl)) rs f.

(** ** [find_rule_by_name] *)

Fixpoint find_in (h : heap) (rs : list loc) (n : str) : option loc :=
  match rs with
  | [] => None
  | rule :: rest =>
      if str_eqb (name (deref h rule)) n then Some rule
      else find_in h rest n
  end.

Definition find_rule_by_name (h : heap) (self : MsgFilterParser) (n : str)
  : option loc :=
  find_in h (rules self) n.

(** ** [add_condition_to_rule] *)

(** [f'({header_field},contains,{value})'] *)
Definition term (header_field value : str) : str :=
  lit "(" ++ header_field ++ lit ",contains," ++ value ++ lit ")".

Definition add_condition_to_rule (h : heap) (self : MsgFilterParser)
    (rule_name header_field value : str) : heap * MsgFilterParser * bool :=
  match find_rule_by_name h self rule_name with
  | None => (h, self, false)
  | Some rule =>
      let r := deref h rule in
      if negb (truthy (condition r)) then
        (store h rule
           (set_condition
              (lit "OR (" ++ header_field ++ lit ",contains," ++ value ++ lit ")")
              r),
         self, true)
      else
        let new_condition := term header_field value in
        if str_in new_condition (condition r) then (h, self, true)
        else
          (store h rule
             (set_condition
                (condition r ++
                 lit " OR (" ++ header_field ++ lit ",contains," ++ value ++ lit ")")
                r),
           self, true)
  end.

(** ** [create_new_rule] *)

Definition create_new_rule (h : heap) (self : MsgFilterParser)
    (n header_field value av : str) : heap * MsgFilterParser * loc :=
  let cond := lit "OR (" ++ header_field ++ lit ",contains," ++ value ++ lit ")" in
  let (h', rule) :=
    alloc h (mkRule n (lit "yes") (lit "17") (lit "Move to folder") av cond) in
  (h', set_rules (rules self ++ [rule]) self, rule).

(** ** Vocabulary for the statements *)

(** What a line contributes to the parse: its key and its value, or
    nothing when it is blank or holds no [=]. *)
Definition line_kv (line : str) : option (str * str) :=
  let line := strip line in
  if truthy line && str_in (lit "=") line then
    match key_value line with
    | Ok kv => Some kv
    | Raise _ => None
    end
  else None.

(** The lines [parse_content] loops over, and the key-value pairs they
    contribute, in order. *)
Definition content_lines (content : str) : list str :=
  split 10 (strip content).

Definition content_kvs (content : str) : list (str * str) :=
  omap line_kv (content_lines content).

(** A string with no double quote and no newline in it. *)
Definition no_quote (s : str) : Prop := ~ In 34 s.
Definition no_newline (s : str) : Prop := ~ In 10 s.

Definition rule_fields (r : MsgFilterRule) : list str :=
  [name r; enabled r; type r; action r; action_value r; condition r].

(** All the values of a document: the two scalars and the six fields of
    every rule. *)
Definition doc_values (h : heap) (p : MsgFilterParser) : list str :=
  version p :: logging p :: flat_map rule_fields (doc_rules h p).

(** The keys the parser recognises. *)
Definition field_keys : list str :=
  [lit "enabled"; lit "type"; lit "action"; lit "actionValue"; lit "condition"].

Definition known_keys : list str :=
  lit "version" :: lit "logging" :: lit "name" :: field_keys.

(** The state the loop of [parse_content] starts in. *)
Definition loop_init (h : heap) (self : MsgFilterParser) : pstate :=
  mkPState h self None [].

(** The loop state seen as values: the rules already closed, and the open
    rule. *)
Definition view_done (st : pstate) : list MsgFilterRule :=
  map (deref (st_heap st)) (st_rules st).

Definition view_open (st : pstate) : option MsgFilterRule :=
  option_map (deref (st_heap st)) (current_rule st).

(** The references of the loop state point to live objects, and the open
    rule is not yet in the list. *)
Definition inv (st : pstate) : Prop :=
  Forall (fun l => (l < length (st_heap st))%nat) (st_rules st)
  /\ match current_rule st with
     | Some l => (l < length (st_heap st))%nat /\ ~ In l (st_rules st)
     | None => True
     end.

(** The keys and values of the six lines of a rule, and of the lines of a
    whole document. *)
Definition six_kvs (r : MsgFilterRule) : list (str * str) :=
  [ (lit "name", name r); (lit "enabled", enabled r); (lit "type", type r);
    (lit "action", action r); (lit "actionValue", action_value r);
    (lit "condition", condition r) ].

Definition doc_kvs (ver lg : str) (rs : list MsgFilterRule)
  : list (str * str) :=
  (if truthy ver then [(lit "version", ver)] else [])
  ++ (if truthy lg then [(lit "logging", lg)] else [])
  ++ flat_map six_kvs rs.

(** A line that starts with a character that is not whitespace and ends
    with a double quote. *)
Definition good_line (l : str) : Prop :=
  exists a m, l = a :: m ++ [34] /\ isspace a = false.

(** A key as the writer emits them: not empty, no [=] in it, no whitespace
    at either end. *)
Definition plain_key (k : str) : Prop :=
  ~ In 61 k /\ ~ In 10 k /\ strip k = k
  /\ exists a m, k = a :: m /\ isspace a = false.

(** ** Reference semantics, following the specification

    These definitions are written from the specification's description of
    the format, on rule values and without a heap; the properties below
    compare the model of the source with them. *)

Definition opt_list {A : Type} (o : option A) : list A :=
  match o with
  | Some a => [a]
  | None => []
  end.

(** A rule-field key applied to the open rule; any other key leaves it. *)
Definition spec_set_field (k v : str) (r : MsgFilterRule) : MsgFilterRule :=
  if str_eqb k (lit "enabled") then set_enabled v r
  else if str_eqb k (lit "type") then set_type v r
  else if str_eqb k (lit "action") then set_action v r
  else if str_eqb k (lit "actionValue") then set_action_value v r
  else if str_eqb k (lit "condition") then set_condition v r
  else r.

(** The two-state machine of the record boundaries: [open] is the rule
    being filled, if any. A [name] key closes the open rule and opens a new
    one with the other fields at their defaults; the end of the input closes
    the open rule; the other keys go to the open rule and are dropped when
    there is none. *)
Fixpoint spec_records (kvs : list (str * str)) (open : option MsgFilterRule)
  : list MsgFilterRule :=
  match kvs with
  | [] => opt_list open
  | (k, v) :: rest =>
      if str_eqb k (lit "name") then
        opt_list open ++
        spec_records rest
          (Some (mkRule v (lit "yes") (lit "17") (lit "Move to folder") [] []))
      else if str_eqb k (lit "version") || str_eqb k (lit "logging") then
        spec_records rest open
      else
        spec_records rest (option_map (spec_set_field k v) open)
  end.

(** A global scalar: the last occurrence of its key wins. *)
Definition spec_scalar (key : str) (init : str) (kvs : list (str * str)) : str :=
  fold_left (fun acc kv => if str_eqb (fst kv) key then snd kv else acc)
            kvs init.

(** Exactly one leading and one trailing double quote removed, if present. *)
Definition strip_one_quote (s : str) : str :=
  let s1 := match s with
            | 34 :: t => t
            | _ => s
            end in
  match rev s1 with
  | 34 :: t => rev t
  | _ => s1
  end.

(** The line [<key>=<quote><value><quote>]. *)
Definition spec_line (key : string) (value : str) : str :=
  lit key ++ [61; 34] ++ value ++ [34].

Definition spec_rule_lines (r : MsgFilterRule) : list str :=
  [ spec_line "name" (name r);
    spec_line "enabled" (enabled r);
    spec_line "type" (type r);
    spec_line "action" (action r);
    spec_line "actionValue" (action_value r);
    spec_line "condition" (condition r) ].

Definition spec_doc_lines (ver lg : str) (rs : list MsgFilterRule) : list str :=
  (if truthy ver then [spec_line "version" ver] else [])
  ++ (if truthy lg then [spec_line "logging" lg] else [])
  ++ flat_map spec_rule_lines rs.

(** Every line followed by one newline. *)
Definition spec_serialize (ver lg : str) (rs : list MsgFilterRule) : str :=
  concat (map (fun l => l ++ [10]) (spec_doc_lines ver lg rs)).

(** ** [main.py]: the application [FilterAdderApp]

    The application calls the operating system: it asks whether a path
    exists, reads the clock, copies a file, reads a file and writes a file.
    A method is modelled as a program that makes these calls one after the
    other, each continuing with what the call gave; a call that can raise
    gives either its value or the fact that it raised. *)

Inductive outcome (A : Type) : Type :=
| Returned (a : A)
| Raised.
Arguments Returned {A} a.
Arguments Raised {A}.

Inductive prog (A : Type) : Type :=
| Ret (a : A)
| PathExists (path : str) (k : bool -> prog A)
| Now (k : str -> prog A)
| Copy2 (src dst : str) (k : outcome unit -> prog A)
| ReadFile (path : str) (k : outcome str -> prog A)
| WriteFile (path : str) (text : str) (k : outcome unit -> prog A).
Arguments Ret {A} a.
Arguments PathExists {A} path k.
Arguments Now {A} k.
Arguments Copy2 {A} src dst k.
Arguments ReadFile {A} path k.
Arguments WriteFile {A} path text k.

Fixpoint pbind {A B : Type} (m : prog A) (f : A -> prog B) : prog B :=
  match m with
  | Ret a => f a
  | PathExists path k => PathExists path (fun r => pbind (k r) f)
  | Now k => Now (fun r => pbind (k r) f)
  | Copy2 src dst k => Copy2 src dst (fun r => pbind (k r) f)
  | ReadFile path k => ReadFile path (fun r => pbind (k r) f)
  | WriteFile path text k => WriteFile path text (fun r => pbind (k r) f)
  end.

(** [self.default_file_path] *)
Definition default_file_path : str :=
  lit "/home/eisen/snap/thunderbird/common/.thunderbird/8blc452o.default/ImapMail/imap.lxdn.org/msgFilterRules.dat".

(** [validate_header_field]. [lower] stands for Python's [str.lower],
    whose Unicode case tables are not reproduced here. *)
Definition valid_fields : list str :=
  [lit "from"; lit "to"; lit "cc"; lit "subject"].

Definition validate_header_field (lower : str -> str) (header_field : str)
  : bool :=
  existsb (str_eqb (lower header_field)) valid_fields.

(** [str.lower] on the characters below 128. *)
Definition ascii_lower (c : char) : char :=
  if (65 <=? c) && (c <=? 90) then c + 32 else c.

(** POSIX [os.path]: [basename], [dirname] and [join] of two parts. *)
Fixpoint take_while (p : char -> bool) (s : str) : str :=
  match s with
  | [] => []
  | c :: t => if p c then c :: take_while p t else []
  end.

Definition not_sep (c : char) : bool := negb (c =? 47).

(** [p[:i]] and [p[i:]] for [i = p.rfind('/') + 1]. *)
Definition path_head (p : str) : str := rev (drop_while not_sep (rev p)).
Definition path_tail (p : str) : str := rev (take_while not_sep (rev p)).

Definition basename (p : str) : str := path_tail p.

Definition dirname (p : str) : str :=
  let head := path_head p in
  if truthy head && negb (forallb (N.eqb 47) head)
  then rstrip_by (char_in (lit "/")) head
  else head.

Definition endswith (s suffix : str) : bool :=
  startswith (rev suffix) (rev s).

Definition path_join (a b : str) : str :=
  if startswith (lit "/") b then b
  else if negb (truthy a) || endswith a (lit "/") then a ++ b
  else a ++ lit "/" ++ b.

(** [create_backup_path]: the clock is read and formatted by
    [strftime("%Y%m%d_%H%M%S")]. *)
Definition create_backup_path (file_path : str) : prog str :=
  let directory := dirname file_path in
  let filename := basename file_path in
  Now (fun timestamp =>
    let backup_filename := filename ++ lit ".backup_" ++ timestamp in
    Ret (path_join directory backup_filename)).

(** [backup_file]: any exception of the copy is caught and gives [False]. *)
Definition backup_file (file_path : str) : prog bool :=
  pbind (create_backup_path file_path) (fun backup_path =>
    Copy2 file_path backup_path (fun r =>
      match r with
      | Returned _ => Ret true
      | Raised => Ret false
      end)).

(** [MsgFilterParser.parse_file]: it raises when the reading raises (or
    when [parse_content] does). *)
Definition parse_file (h : heap) (self : MsgFilterParser) (file_path : str)
  : prog (outcome (heap * MsgFilterParser * list loc)) :=
  ReadFile file_path (fun r =>
    match r with
    | Returned content =>
        match parse_content h self content with
        | Ok res => Ret (Returned res)
        | Raise _ => Ret Raised
        end
    | Raised => Ret Raised
    end).

(** [MsgFilterParser.write_file] with the file: the text of [write_file]
    is written to [file_path]. *)
Definition write_file_at (h : heap) (self : MsgFilterParser) (file_path : str)
  : prog (outcome unit) :=
  WriteFile file_path (write_file h self None) (fun r => Ret r).

(** [process_filter_rules]: the heap and [self.parser] after the call, and
    the value returned. The [try ... except Exception] returns [False] on
    any exception. *)
Definition process_filter_rules (lower : str -> str)
    (h : heap) (parser : MsgFilterParser)
    (rule_name header_field value dest_folder : str)
    (file_path : option str) : prog (heap * MsgFilterParser * bool) :=
  let file_path := match file_path with
                   | None => default_file_path
                   | Some p => p
                   end in
  if negb (validate_header_field lower header_field) then
    Ret (h, parser, false)
  else
    PathExists file_path (fun found =>
      if negb found then Ret (h, parser, false)
      else
        pbind (backup_file file_path) (fun backed_up =>
          if negb backed_up then Ret (h, parser, false)
          else
            pbind (parse_file h parser file_path) (fun parsed =>
              match parsed with
              | Raised => Ret (h, parser, false)
              | Returned (h1, p1, _) =>
                  let write_back (h2 : heap) (p2 : MsgFilterParser) :=
                    pbind (write_file_at h2 p2 file_path) (fun w =>
                      match w with
                      | Returned _ => Ret (h2, p2, true)
                      | Raised => Ret (h2, p2, false)
                      end) in
                  match find_rule_by_name h1 p1 rule_name with
                  | Some _ =>
                      match add_condition_to_rule h1 p1 rule_name
                              header_field value with
                      | (h2, p2, success) =>
                          if negb success then Ret (h2, p2, false)
                          else write_back h2 p2
                      end
                  | None =>
                      match create_new_rule h1 p1 rule_name header_field
                              value dest_folder with
                      | (h2, p2, _) => write_back h2 p2
                      end
                  end
              end))).

(** The operating system, as far as one call of a method sees it: what
    each call gives. *)
Record oracle : Type := mkOracle {
  o_exists : str -> bool;
  o_now : str;
  o_copy2 : str -> str -> outcome unit;
  o_read : str -> outcome str;
  o_write : str -> str -> outcome unit
}.

(** The calls made, in order, with what they gave. *)
Inductive event : Type :=
| EvExists (path : str) (r : bool)
| EvNow (r : str)
| EvCopy2 (src dst : str) (r : outcome unit)
| EvRead (path : str) (r : outcome str)
| EvWrite (path : str) (text : str) (r : outcome unit).

Fixpoint run {A : Type} (o : oracle) (m : prog A) : list event * A :=
  match m with
  | Ret a => ([], a)
  | PathExists path k =>
      let r := o_exists o path in
      let (t, a) := run o (k r) in (EvExists path r :: t, a)
  | Now k =>
      let r := o_now o in
      let (t, a) := run o (k r) in (EvNow r :: t, a)
  | Copy2 src dst k =>
      let r := o_copy2 o src dst in
      let (t, a) := run o (k r) in (EvCopy2 src dst r :: t, a)
  | ReadFile path k =>
      let r := o_read o path in
      let (t, a) := run o (k r) in (EvRead path r :: t, a)
  | WriteFile path text k =>
      let r := o_write o path text in
      let (t, a) := run o (k r) in (EvWrite path text r :: t, a)
  end.

(** ** Vocabulary for the further properties *)

(** The loop of [parse_content], started on the heap [h0], has only added
    objects after those of [h0], and the references it holds (closed rules,
    then the open rule) are those of the added objects, in order. *)
Definition fresh_inv (h0 : heap) (st : pstate) : Prop :=
  exists news,
    st_heap st = h0 ++ news
    /\ append_current (current_rule st) (st_rules st)
       = seq (length h0) (length news).

(** A value that is written and read back as itself: no newline in it, and
    no double quote at either end. *)
Definition no_edge_quote (s : str) : Prop :=
  (forall t, s <> 34 :: t) /\ (forall t, s <> t ++ [34]).

Definition clean_value (s : str) : Prop := no_newline s /\ no_edge_quote s.

Definition clean_rule (r : MsgFilterRule) : Prop :=
  Forall clean_value (rule_fields r).

(** The same, as a test that computes. *)
Definition edge_quoteb (s : str) : bool :=
  match s with
  | 34 :: _ => true
  | _ => false
  end
  || match rev s with
     | 34 :: _ => true
     | _ => false
     end.

Definition clean_valueb (s : str) : bool :=
  negb (existsb (N.eqb 10) s) && negb (edge_quoteb s).

(** The path [process_filter_rules] works on, and the backup path for a
    timestamp. *)
Definition target_path (file_path : option str) : str :=
  match file_path with
  | None => default_file_path
  | Some p => p
  end.

Definition backup_path_at (path ts : str) : str :=
  path_join (dirname path) (basename path ++ lit ".backup_" ++ ts).

(** The heap and the parser once the text read has been parsed and the
    rule found and extended, or created. *)
Definition edited (h : heap) (parser : MsgFilterParser)
    (content rule_name header_field value dest_folder : str)
  : heap * MsgFilterParser :=
  match parse_content h parser content with
  | Ok (h1, p1, _) =>
      match find_rule_by_name h1 p1 rule_name with
      | Some _ =>
          fst (add_condition_to_rule h1 p1 rule_name header_field value)
      | None =>
          fst (create_new_rule h1 p1 rule_name header_field value dest_folder)
      end
  | Raise _ => (h, parser)
  end.

(** The five calls of a run that reaches the writing of the file. *)
Definition full_trace (path ts content text : str) (w : outcome unit)
  : list event :=
  [ EvExists path true; EvNow ts;
    EvCopy2 path (backup_path_at path ts) (Returned tt);
    EvRead path (Returned content); EvWrite path text w ].

(** Calls of [add_condition_to_rule] for the same rule, one per pair of
    field and value, in order: the heap after the last, and whether every
    call returned [True]. *)
Fixpoint add_all (h : heap) (self : MsgFilterParser) (rule_name : str)
    (pairs : list (str * str)) : heap * bool :=
  match pairs with
  | [] => (h, true)
  | (f, v) :: rest =>
      match add_condition_to_rule h self rule_name f v with
      | (h1, self1, ok) =>
          let (h2, oks) := add_all h1 self1 rule_name rest in
          (h2, ok && oks)
      end
  end.

(** Each term is absent from the condition as the calls before it left
    it. *)
Fixpoint fresh_terms (c : str) (pairs : list (str * str)) : Prop :=
  match pairs with
  | [] => True
  | (f, v) :: rest =>
      str_in (term f v) c = false
      /\ fresh_terms (c ++ lit " OR " ++ term f v) rest
  end.

(** ** Tactics *)

(** Decide the comparisons of two literal keys. *)
Ltac eval_keys :=
  repeat match goal with
    | |- context [str_eqb (lit ?a) (lit ?b)] =>
        let r := eval vm_compute in (str_eqb (lit a) (lit b)) in
        change (str_eqb (lit a) (lit b)) with r
    end.

(** Decide that the strings of a concrete list hold no given character. *)
Ltac solve_clean :=
  vm_compute; repeat constructor;
  let H := fresh in
  intros H;
  repeat (destruct H as [H|H]; [discriminate H|]); exact H.

(** * Properties *)

(** ** Facts about the string primitives *)

Lemma str_eqb_eq (a b : str) : str_eqb a b = true <-> a = b.
Proof.
  revert b; induction a as [|x a IH]; intros [|y b]; simpl;
    try (split; [discriminate | congruence]); [tauto|].
  rewrite andb_true_iff, N.eqb_eq, IH. split.
  - intros [-> ->]; reflexivity.
  - intros E; injection E; auto.
Qed.

Lemma str_eqb_refl (a : str) : str_eqb a a = true.
Proof. apply str_eqb_eq; reflexivity. Qed.

Lemma str_eqb_neq (a b : str) : str_eqb a b = false <-> a <> b.
Proof.
  rewrite <- str_eqb_eq. destruct (str_eqb a b); split; congruence.
Qed.

Lemma startswith_iff (p s : str) :
  startswith p s = true <-> exists t, s = p ++ t.
Proof.
  revert s; induction p as [|a p IH]; intros s; simpl.
  - split; eauto.
  - destruct s as [|b s].
    + split; [discriminate | intros [t E]; discriminate].
    + rewrite andb_true_iff, N.eqb_eq, IH. split.
      * intros [-> [t ->]]; eauto.
      * intros [t E]; injection E as -> ->; eauto.
Qed.

(** [needle in hay] holds exactly when [needle] occurs in [hay] as a
    contiguous run of characters. *)
Lemma str_in_iff (needle hay : str) :
  str_in needle hay = true <-> exists a b, hay = a ++ needle ++ b.
Proof.
  induction hay as [|c hay IH]; simpl.
  - rewrite startswith_iff. split.
    + intros [t E]. exists [], t. exact E.
    + intros [a [b E]]. destruct a; simpl in E.
      * destruct needle; [exists []; reflexivity | discriminate].
      * discriminate.
  - rewrite orb_true_iff, IH, startswith_iff. split.
    + intros [[t E] | [a [b E]]].
      * exists [], t. exact E.
      * exists (c :: a), b. simpl. congruence.
    + intros [a [b E]]. destruct a as [|x a]; simpl in E.
      * left; eauto.
      * right. injection E as _ E. eauto.
Qed.

Lemma str_in_app (needle a b : str) : str_in needle (a ++ needle ++ b) = true.
Proof. apply str_in_iff; eauto. Qed.

Lemma str_in_nil_r (needle : str) :
  needle <> [] -> str_in needle [] = false.
Proof. destruct needle; simpl; congruence. Qed.

(** *** Stripping *)

Lemma drop_while_spec (p : char -> bool) (s : str) :
  exists a, s = a ++ drop_while p s /\ forallb p a = true
            /\ match drop_while p s with
               | [] => True
               | c :: _ => p c = false
               end.
Proof.
  induction s as [|c s (a & E & Ha & Hd)]; simpl.
  - exists []; auto.
  - destruct (p c) eqn:Hc.
    + exists (c :: a); simpl. rewrite Hc, Ha. split; [congruence | auto].
    + exists []; simpl. rewrite Hc. auto.
Qed.

Lemma drop_while_keep (p : char -> bool) (c : char) (s : str) :
  p c = false -> drop_while p (c :: s) = c :: s.
Proof. intros H; simpl; rewrite H; reflexivity. Qed.

Lemma drop_while_all (p : char -> bool) (s : str) :
  forallb p s = true -> drop_while p s = [].
Proof.
  induction s as [|c s IH]; simpl; [reflexivity|].
  intros H; apply andb_true_iff in H as [-> H]; auto.
Qed.

Lemma rstrip_by_keep (p : char -> bool) (s : str) (c : char) :
  p c = false -> rstrip_by p (s ++ [c]) = s ++ [c].
Proof.
  intros H. unfold rstrip_by. rewrite rev_app_distr. simpl. rewrite H.
  simpl. rewrite rev_involutive. reflexivity.
Qed.

(** A string that neither starts nor ends with a stripped character is
    left alone. *)
Lemma strip_by_keep (p : char -> bool) (a b : char) (s : str) :
  p a = false -> p b = false -> strip_by p (a :: s ++ [b]) = a :: s ++ [b].
Proof.
  intros Ha Hb. unfold strip_by, lstrip_by. rewrite drop_while_keep by exact Ha.
  apply (rstrip_by_keep p (a :: s) b Hb).
Qed.

Lemma strip_by_keep1 (p : char -> bool) (a : char) :
  p a = false -> strip_by p [a] = [a].
Proof.
  intros Ha. unfold strip_by, lstrip_by. rewrite drop_while_keep by exact Ha.
  apply (rstrip_by_keep p [] a Ha).
Qed.

Lemma strip_by_nil (p : char -> bool) : strip_by p [] = [].
Proof. reflexivity. Qed.

Lemma drop_while_snoc (p : char -> bool) (s : str) (c : char) :
  p c = false -> drop_while p (s ++ [c]) = drop_while p s ++ [c].
Proof.
  intros Hc. induction s as [|x s IH]; simpl.
  - rewrite Hc. reflexivity.
  - destruct (p x); [exact IH | reflexivity].
Qed.

Lemma forallb_rev (p : char -> bool) (s : str) :
  forallb p (rev s) = forallb p s.
Proof.
  induction s as [|x s IH]; simpl; [reflexivity|].
  rewrite forallb_app, IH. simpl. rewrite andb_true_r. apply andb_comm.
Qed.

(** What stripping does: it removes a run of stripped characters at each
    end, all of them, and nothing else. *)
Lemma strip_by_spec (p : char -> bool) (s : str) :
  exists a b,
    s = a ++ strip_by p s ++ b
    /\ forallb p a = true /\ forallb p b = true
    /\ (forall c t, strip_by p s = c :: t -> p c = false)
    /\ (forall t c, strip_by p s = t ++ [c] -> p c = false).
Proof.
  destruct (drop_while_spec p s) as (a & Es & Ha & Hd).
  destruct (drop_while_spec p (rev (drop_while p s))) as (b & Er & Hb & Hr).
  exists a, (rev b). unfold strip_by, lstrip_by, rstrip_by.
  assert (Em : drop_while p s
               = rev (drop_while p (rev (drop_while p s))) ++ rev b).
  { rewrite <- rev_app_distr, <- Er, rev_involutive. reflexivity. }
  split; [rewrite <- Em; exact Es|].
  split; [exact Ha|].
  split; [rewrite forallb_rev; exact Hb|].
  split.
  - intros c t E. destruct (drop_while p s) as [|c0 m]; [discriminate|].
    simpl in E. rewrite drop_while_snoc in E by exact Hd.
    rewrite rev_app_distr in E. simpl in E. congruence.
  - intros t c E. apply (f_equal (@rev _)) in E.
    rewrite rev_involutive, rev_app_distr in E. simpl in E.
    rewrite E in Hr. exact Hr.
Qed.

(** *** Cutting at a character *)

Lemma partition_at_spec (c : char) (s : str) :
  match partition_at c s with
  | (w, Some r) => s = w ++ c :: r /\ ~ In c w
  | (w, None) => s = w /\ ~ In c s
  end.
Proof.
  induction s as [|x s IH]; simpl; [auto|].
  destruct (N.eqb_spec x c) as [->|Hne].
  - simpl; auto.
  - destruct (partition_at c s) as [w [r|]].
    + destruct IH as [-> Hw]. split; [reflexivity|].
      simpl; intros [E|I]; auto.
    + destruct IH as [<- Hs]. split; [reflexivity|].
      simpl; intros [E|I]; auto.
Qed.

Lemma partition_at_cut (c : char) (w r : str) :
  ~ In c w -> partition_at c (w ++ c :: r) = (w, Some r).
Proof.
  induction w as [|x w IH]; simpl; intros Hw.
  - rewrite N.eqb_refl. reflexivity.
  - destruct (N.eqb_spec x c) as [->|Hne]; [tauto|].
    rewrite IH by tauto. reflexivity.
Qed.

Lemma str_in_char (c : char) (s : str) : str_in [c] s = true <-> In c s.
Proof.
  rewrite str_in_iff. split.
  - intros (a & b & ->). apply in_or_app. right. left. reflexivity.
  - intros H. apply in_split in H as (a & b & ->). exists a, b. reflexivity.
Qed.

(** Where the line holds a [=], the split has two items and the
    unpacking succeeds. *)
Lemma key_value_ok (line : str) :
  str_in (lit "=") line = true ->
  exists w r, line = w ++ 61 :: r /\ ~ In 61 w
    /\ key_value line = Ok (strip w, strip_chars dquote (strip r)).
Proof.
  change (lit "=") with [61]. rewrite str_in_char. intros Hin.
  pose proof (partition_at_spec 61 line) as P.
  unfold key_value, split_max1.
  destruct (partition_at 61 line) as [w [r|]].
  - destruct P as [E Hw]. exists w, r. simpl. auto.
  - destruct P as [_ Hn]. contradiction.
Qed.

Lemma split_aux_piece (c : char) (w s : str) :
  ~ In c w ->
  split_aux c (w ++ c :: s) = (w, fst (split_aux c s) :: snd (split_aux c s)).
Proof.
  induction w as [|x w IH]; simpl; intros Hw.
  - rewrite N.eqb_refl. destruct (split_aux c s); reflexivity.
  - rewrite IH by tauto.
    destruct (N.eqb_spec x c) as [->|Hne]; [tauto | reflexivity].
Qed.

Lemma split_aux_last (c : char) (w : str) :
  ~ In c w -> split_aux c w = (w, []).
Proof.
  induction w as [|x w IH]; simpl; intros Hw; [reflexivity|].
  rewrite IH by tauto.
  destruct (N.eqb_spec x c) as [->|Hne]; [tauto | reflexivity].
Qed.

(** Splitting what [join] built gives the pieces back, when no piece
    holds the separator. *)
Lemma split_join (c : char) (pieces : list str) :
  pieces <> [] -> Forall (fun w => ~ In c w) pieces ->
  split c (join [c] pieces) = pieces.
Proof.
  unfold split. induction pieces as [|w ws IH]; [congruence|].
  intros _ Hall. inversion Hall as [|? ? Hw Hws]; subst.
  destruct ws as [|w' ws].
  - simpl. rewrite split_aux_last by exact Hw. reflexivity.
  - change (join [c] (w :: w' :: ws)) with (w ++ c :: join [c] (w' :: ws)).
    rewrite split_aux_piece by exact Hw.
    specialize (IH ltac:(congruence) Hws).
    destruct (split_aux c (join [c] (w' :: ws))) as [a b]. simpl.
    congruence.
Qed.

(** ** The parser never raises *)

Lemma parse_line_total (line : str) (st : pstate) :
  exists st', parse_line line st = Ok st'.
Proof.
  unfold parse_line.
  destruct (negb (truthy (strip line))); [eauto|].
  destruct (str_in (lit "=") (strip line)) eqn:E; [|eauto].
  destruct (key_value_ok _ E) as (w & r & _ & _ & ->). simpl. eauto.
Qed.

Lemma parse_lines_total (lines : list str) (st : pstate) :
  exists st', parse_lines lines st = Ok st'.
Proof.
  revert st; induction lines as [|l ls IH]; intros st; simpl; [eauto|].
  destruct (parse_line_total l st) as [st1 ->]. simpl. apply IH.
Qed.

Lemma parse_line_kv (line : str) (st : pstate) :
  parse_line line st =
  Ok (match line_kv line with
      | Some kv => dispatch (fst kv) (snd kv) st
      | None => st
      end).
Proof.
  unfold parse_line, line_kv.
  destruct (truthy (strip line)); simpl; [|reflexivity].
  destruct (str_in (lit "=") (strip line)) eqn:E; [|reflexivity].
  destruct (key_value_ok _ E) as (w & r & _ & _ & ->). reflexivity.
Qed.

Lemma parse_content_unfold (h : heap) (self : MsgFilterParser) (content : str) :
  parse_content h self content =
  (st <- parse_lines (content_lines content) (loop_init h self) ;;
   Ok (st_heap st,
       set_rules (append_current (current_rule st) (st_rules st)) (st_self st),
       append_current (current_rule st) (st_rules st))).
Proof. reflexivity. Qed.

Lemma strip_all_space (s : str) : forallb isspace s = true -> strip s = [].
Proof.
  intros H. unfold strip, strip_by, lstrip_by.
  rewrite drop_while_all by exact H. reflexivity.
Qed.

Lemma line_kv_blank (line : str) :
  forallb isspace line = true -> line_kv line = None.
Proof. intros H. unfold line_kv. rewrite strip_all_space by exact H. reflexivity. Qed.

Lemma line_kv_no_eq (line : str) :
  str_in (lit "=") (strip line) = false -> line_kv line = None.
Proof. intros H. unfold line_kv. rewrite H, andb_false_r. reflexivity. Qed.

Lemma not_in_cons_neqb (k x : str) (l : list str) :
  ~ In k (x :: l) -> str_eqb k x = false /\ ~ In k l.
Proof.
  intros H. split.
  - apply str_eqb_neq. intros ->. apply H. left; reflexivity.
  - intros I. apply H. right; exact I.
Qed.

(** An unrecognised key changes nothing. *)
Lemma dispatch_unknown (k v : str) (st : pstate) :
  ~ In k known_keys -> dispatch k v st = st.
Proof.
  unfold known_keys, field_keys. intros H.
  repeat (apply not_in_cons_neqb in H as [? H]).
  unfold dispatch.
  repeat match goal with E : str_eqb k _ = false |- _ => rewrite E; clear E end.
  destruct (current_rule st); reflexivity.
Qed.

(** A key other than [version], [logging] and [name] changes nothing while
    no rule is open. *)
Lemma dispatch_no_rule (k v : str) (st : pstate) :
  current_rule st = None ->
  str_eqb k (lit "version") = false -> str_eqb k (lit "logging") = false ->
  str_eqb k (lit "name") = false ->
  dispatch k v st = st.
Proof.
  intros Hc H1 H2 H3. unfold dispatch. rewrite H1, H2, H3, Hc. reflexivity.
Qed.

Lemma field_key_not_global (k : str) :
  In k field_keys ->
  str_eqb k (lit "version") = false /\ str_eqb k (lit "logging") = false
  /\ str_eqb k (lit "name") = false.
Proof.
  unfold field_keys. simpl.
  intros [<-|[<-|[<-|[<-|[<-|[]]]]]]; repeat split; reflexivity.
Qed.

(** C9. Parser totality: for every input string [parse_content] returns
    normally (no exception is raised), and a line with no [=], a line of
    whitespace only, a line with an unrecognised key, and a line with a
    rule-field key while no rule is open each leave the whole state of the
    loop as it was. *)
Theorem parse_content_never_raises :
  (forall h self content,
      exists h' self' rs, parse_content h self content = Ok (h', self', rs))
  /\ (forall line st,
         str_in (lit "=") (strip line) = false -> parse_line line st = Ok st)
  /\ (forall line st,
         forallb isspace line = true -> parse_line line st = Ok st)
  /\ (forall line k v st,
         line_kv line = Some (k, v) -> ~ In k known_keys ->
         parse_line line st = Ok st)
  /\ (forall line k v st,
         line_kv line = Some (k, v) -> In k field_keys ->
         current_rule st = None ->
         parse_line line st = Ok st).
Proof.
  split; [|split; [|split; [|split]]].
  - intros h self content. rewrite parse_content_unfold.
    destruct (parse_lines_total (content_lines content) (loop_init h self))
      as [st ->].
    simpl. eauto.
  - intros line st H. rewrite parse_line_kv, line_kv_no_eq by exact H.
    reflexivity.
  - intros line st H. rewrite parse_line_kv, line_kv_blank by exact H.
    reflexivity.
  - intros line k v st E Hk. rewrite parse_line_kv, E. simpl.
    rewrite dispatch_unknown by exact Hk. reflexivity.
  - intros line k v st E Hk Hc. rewrite parse_line_kv, E. simpl.
    destruct (field_key_not_global k Hk) as (H1 & H2 & H3).
    rewrite dispatch_no_rule by assumption. reflexivity.
Qed.

Lemma parse_content_never_raises_witness :
  let st := loop_init [] MsgFilterParser_init in
  parse_line (lit "stray text") st = Ok st
  /\ parse_line (lit "   ") st = Ok st
  /\ parse_line (lit "colour=red") st = Ok st
  /\ parse_line (lit "enabled=no") st = Ok st.
Proof.
  destruct parse_content_never_raises as (_ & A & B & C & D).
  intros st. split; [|split; [|split]].
  - apply A. reflexivity.
  - apply B. reflexivity.
  - apply (C _ (lit "colour") (lit "red")).
    + reflexivity.
    + unfold known_keys, field_keys. simpl.
      intros H; repeat (destruct H as [H|H]; [discriminate H|]); exact H.
  - apply (D _ (lit "enabled") (lit "no")).
    + reflexivity.
    + left; reflexivity.
    + reflexivity.
Defined.

(** ** Value extraction *)

Lemma char_in_dquote (c : char) : char_in dquote c = true <-> c = 34.
Proof.
  unfold char_in, dquote. simpl. rewrite orb_false_r. apply N.eqb_eq.
Qed.

Lemma forallb_dquote (s : str) :
  forallb (char_in dquote) s = true -> Forall (eq 34) s.
Proof.
  induction s as [|c s IH]; simpl; intros H; constructor.
  - apply andb_true_iff in H as [H _]. apply char_in_dquote in H. auto.
  - apply IH. apply andb_true_iff in H as [_ H]. exact H.
Qed.

Lemma char_in_dquote_false (c : char) : char_in dquote c = false -> c <> 34.
Proof.
  intros H E. apply char_in_dquote in E. congruence.
Qed.

Lemma str_in_truthy (needle s : str) :
  needle <> [] -> str_in needle s = true -> truthy s = true.
Proof.
  intros Hn H. destruct s; [|reflexivity].
  rewrite str_in_nil_r in H by exact Hn. discriminate.
Qed.

(** C4, as stated, fails: on the line [name=QQaQQ], where [Q] is the
    double-quote character, the parser takes the value [a], while removing
    exactly one quote on each side would leave [QaQ]. *)
Lemma value_one_quote_counterexample :
  let r := [34; 34] ++ lit "a" ++ [34; 34] in
  let line := lit "name=" ++ r in
  strip line = lit "name" ++ 61 :: r
  /\ key_value (strip line) = Ok (lit "name", lit "a")
  /\ strip_one_quote (strip r) = [34] ++ lit "a" ++ [34]
  /\ parse_content [] MsgFilterParser_init line
     = Ok ([new_rule (lit "a")], mkParser [] [] [0%nat], [0%nat])
  /\ lit "a" <> strip_one_quote (strip r).
Proof.
  repeat split; try reflexivity. discriminate.
Qed.

(** C4, amended. For every line that holds a [=] once trimmed, the key is
    the text before the first [=], trimmed, and the value is the text after
    the first [=], trimmed of surrounding whitespace and then of every
    leading and every trailing double quote (not of one only): what is
    removed at each end is a run of double quotes, and what is left neither
    starts nor ends with one. A value with no surrounding quotes is taken as
    it is. *)
Theorem value_extraction (line : str) :
  str_in (lit "=") (strip line) = true ->
  exists w r value qa qb wa wb,
    strip line = w ++ 61 :: r /\ ~ In 61 w
    /\ key_value (strip line) = Ok (strip w, value)
    /\ (forall st, parse_line line st = Ok (dispatch (strip w) value st))
    /\ r = wa ++ strip r ++ wb
    /\ forallb isspace wa = true /\ forallb isspace wb = true
    /\ (forall c t, strip r = c :: t -> isspace c = false)
    /\ (forall t c, strip r = t ++ [c] -> isspace c = false)
    /\ strip r = qa ++ value ++ qb
    /\ Forall (eq 34) qa /\ Forall (eq 34) qb
    /\ (forall c t, value = c :: t -> c <> 34)
    /\ (forall t c, value = t ++ [c] -> c <> 34)
    /\ ((forall c t, strip r = c :: t -> c <> 34) ->
        (forall t c, strip r = t ++ [c] -> c <> 34) -> value = strip r).
Proof.
  intros Hin.
  destruct (key_value_ok _ Hin) as (w & r & E & Hw & Hkv).
  destruct (strip_by_spec isspace r) as (wa & wb & Er & Hwa & Hwb & Hs1 & Hs2).
  destruct (strip_by_spec (char_in dquote) (strip r))
    as (qa & qb & Eq & Hqa & Hqb & Hq1 & Hq2).
  fold (strip r) in Er, Hs1, Hs2.
  fold (strip_chars dquote (strip r)) in Eq, Hq1, Hq2.
  exists w, r, (strip_chars dquote (strip r)), qa, qb, wa, wb.
  repeat match goal with |- _ /\ _ => split end; auto.
  - intros st. rewrite parse_line_kv. unfold line_kv.
    rewrite Hin, (str_in_truthy (lit "=") _ ltac:(discriminate) Hin), Hkv.
    reflexivity.
  - apply forallb_dquote; exact Hqa.
  - apply forallb_dquote; exact Hqb.
  - intros c t H. apply char_in_dquote_false, (Hq1 c t H).
  - intros t c H. apply char_in_dquote_false, (Hq2 t c H).
  - intros H1 H2. unfold strip_chars.
    destruct (strip r) as [|a s] eqn:Es; [reflexivity|].
    destruct (@exists_last _ (a :: s) ltac:(discriminate)) as (t & b & Et).
    assert (Ha : char_in dquote a = false).
    { destruct (char_in dquote a) eqn:Ha; [|reflexivity].
      apply char_in_dquote in Ha. exfalso. exact (H1 a s eq_refl Ha). }
    assert (Hb : char_in dquote b = false).
    { destruct (char_in dquote b) eqn:Hb; [|reflexivity].
      apply char_in_dquote in Hb. exfalso. exact (H2 t b Et Hb). }
    destruct t as [|a' t].
    + simpl in Et. injection Et as -> ->. apply strip_by_keep1; exact Ha.
    + simpl in Et. injection Et as <- ->. apply strip_by_keep; assumption.
Qed.

Lemma value_extraction_witness :
  let line := lit "  condition = " ++ [34; 34] ++ lit "x" ++ [34] ++ lit "  " in
  exists w r value qa qb wa wb,
    strip line = w ++ 61 :: r /\ ~ In 61 w
    /\ key_value (strip line) = Ok (strip w, value)
    /\ r = wa ++ strip r ++ wb
    /\ strip r = qa ++ value ++ qb.
Proof.
  intros line.
  destruct (value_extraction line eq_refl)
    as (w & r & value & qa & qb & wa & wb & H1 & H2 & H3 & _ & H5 & _ & _ & _
        & _ & H6 & _).
  exists w, r, value, qa, qb, wa, wb. auto.
Defined.

(** ** The heap *)

Lemma deref_store_eq (h : heap) (l : loc) (r : MsgFilterRule) :
  (l < length h)%nat -> deref (store h l r) l = r.
Proof. apply list_lookup_total_insert_eq. Qed.

Lemma deref_store_ne (h : heap) (l l' : loc) (r : MsgFilterRule) :
  l <> l' -> deref (store h l r) l' = deref h l'.
Proof. apply list_lookup_total_insert_ne. Qed.

Lemma store_dangling (h : heap) (l : loc) (r : MsgFilterRule) :
  (length h <= l)%nat -> store h l r = h.
Proof. apply list_insert_ge. Qed.

Lemma length_store (h : heap) (l : loc) (r : MsgFilterRule) :
  length (store h l r) = length h.
Proof. apply length_insert. Qed.

Lemma deref_alloc_old (h : heap) (r : MsgFilterRule) (l : loc) :
  (l < length h)%nat -> deref (h ++ [r]) l = deref h l.
Proof. apply lookup_total_app_l. Qed.

Lemma deref_alloc_new (h : heap) (r : MsgFilterRule) :
  deref (h ++ [r]) (length h) = r.
Proof. apply list_lookup_total_middle. reflexivity. Qed.

(** Assigning the condition of an object changes no name. *)
Lemma name_store_condition (h : heap) (l l' : loc) (c : str) :
  name (deref (store h l (set_condition c (deref h l))) l') = name (deref h l').
Proof.
  destruct (Nat.eq_dec l l') as [<-|Hne].
  - destruct (Nat.lt_ge_cases l (length h)) as [Hlt|Hge].
    + rewrite deref_store_eq by exact Hlt. reflexivity.
    + rewrite store_dangling by exact Hge. reflexivity.
  - rewrite deref_store_ne by exact Hne. reflexivity.
Qed.

Lemma map_deref_alloc (h : heap) (r : MsgFilterRule) (rs : list loc) :
  Forall (fun l => (l < length h)%nat) rs ->
  map (deref (h ++ [r])) rs = map (deref h) rs.
Proof.
  induction 1 as [|l rs Hl _ IH]; simpl; [reflexivity|].
  rewrite deref_alloc_old by exact Hl. rewrite IH. reflexivity.
Qed.

Lemma map_deref_store (h : heap) (l : loc) (r : MsgFilterRule) (rs : list loc) :
  ~ In l rs -> map (deref (store h l r)) rs = map (deref h) rs.
Proof.
  induction rs as [|x rs IH]; simpl; intros H; [reflexivity|].
  rewrite deref_store_ne by (intros ->; apply H; left; reflexivity).
  rewrite IH by tauto. reflexivity.
Qed.

(** ** Lookup by name *)

Lemma find_in_store_condition (h : heap) (l : loc) (c : str)
    (rs : list loc) (n : str) :
  find_in (store h l (set_condition c (deref h l))) rs n = find_in h rs n.
Proof.
  induction rs as [|x rs IH]; simpl; [reflexivity|].
  rewrite name_store_condition, IH. reflexivity.
Qed.

Lemma find_in_None (h : heap) (rs : list loc) (n : str) :
  find_in h rs n = None <-> Forall (fun l => name (deref h l) <> n) rs.
Proof.
  induction rs as [|x rs IH]; simpl.
  - split; auto.
  - destruct (str_eqb (name (deref h x)) n) eqn:E.
    + apply str_eqb_eq in E. split; [discriminate|].
      intros H. inversion H; subst. contradiction.
    + apply str_eqb_neq in E. rewrite IH. split.
      * intros H. constructor; assumption.
      * intros H. inversion H; assumption.
Qed.

(** The reference found is the first one, in sequence order, whose object
    has exactly the name asked for. *)
Lemma find_in_Some (h : heap) (rs : list loc) (n : str) (l : loc) :
  find_in h rs n = Some l <->
  exists pre post, rs = pre ++ l :: post /\ name (deref h l) = n
                   /\ Forall (fun l' => name (deref h l') <> n) pre.
Proof.
  induction rs as [|x rs IH]; simpl.
  - split; [discriminate|]. intros (pre & post & E & _). destruct pre; discriminate.
  - destruct (str_eqb (name (deref h x)) n) eqn:E.
    + apply str_eqb_eq in E. split.
      * intros [= <-]. exists [], rs. auto.
      * intros ([|y pre] & post & Ers & Hn & Hpre).
        -- simpl in Ers. congruence.
        -- simpl in Ers. injection Ers as <- _. inversion Hpre; subst.
           contradiction.
    + apply str_eqb_neq in E. rewrite IH. split.
      * intros (pre & post & -> & Hn & Hpre). exists (x :: pre), post. auto.
      * intros ([|y pre] & post & Ers & Hn & Hpre).
        -- simpl in Ers. injection Ers as -> _. contradiction.
        -- simpl in Ers. injection Ers as <- ->. inversion Hpre; subst. eauto.
Qed.

Lemma find_in_In (h : heap) (rs : list loc) (n : str) (l : loc) :
  find_in h rs n = Some l -> In l rs.
Proof.
  intros H. apply find_in_Some in H as (pre & post & -> & _).
  apply in_or_app. right. left. reflexivity.
Qed.

Lemma wf_found (h : heap) (self : MsgFilterParser) (n : str) (l : loc) :
  wf h self -> find_rule_by_name h self n = Some l -> (l < length h)%nat.
Proof.
  intros Hwf H. apply find_in_In in H.
  unfold wf in Hwf. rewrite Forall_forall in Hwf. apply Hwf.
  apply list_elem_of_In. exact H.
Qed.

Lemma doc_no_name (h : heap) (self : MsgFilterParser) (n : str) :
  Forall (fun r => name r <> n) (doc_rules h self) <->
  Forall (fun l => name (deref h l) <> n) (rules self).
Proof. unfold doc_rules. rewrite Forall_map. reflexivity. Qed.

(** ** Merging a condition *)

Lemma first_term_eq (f v : str) :
  lit "OR (" ++ f ++ lit ",contains," ++ v ++ lit ")" = lit "OR " ++ term f v.
Proof. reflexivity. Qed.

Lemma next_term_eq (c f v : str) :
  c ++ lit " OR (" ++ f ++ lit ",contains," ++ v ++ lit ")"
  = c ++ lit " OR " ++ term f v.
Proof. reflexivity. Qed.

Lemma term_not_nil (f v : str) : term f v <> [].
Proof. discriminate. Qed.

Lemma str_in_first_term (f v : str) :
  str_in (term f v) (lit "OR " ++ term f v) = true.
Proof.
  apply str_in_iff. exists (lit "OR "), []. rewrite app_nil_r. reflexivity.
Qed.

Lemma str_in_next_term (c f v : str) :
  str_in (term f v) (c ++ lit " OR " ++ term f v) = true.
Proof.
  apply str_in_iff. exists (c ++ lit " OR "), [].
  rewrite app_nil_r, <- app_assoc. reflexivity.
Qed.

Lemma truthy_app_r (a b : str) : truthy b = true -> truthy (a ++ b) = true.
Proof. destruct a, b; simpl; congruence. Qed.

(** What a call does once the rule is found. *)
Lemma add_condition_found (h : heap) (self : MsgFilterParser)
    (rn f v : str) (rule : loc) :
  find_rule_by_name h self rn = Some rule ->
  add_condition_to_rule h self rn f v =
  (match condition (deref h rule) with
   | [] => store h rule (set_condition (lit "OR " ++ term f v) (deref h rule))
   | _ :: _ =>
       if str_in (term f v) (condition (deref h rule)) then h
       else store h rule
              (set_condition (condition (deref h rule) ++ lit " OR " ++ term f v)
                             (deref h rule))
   end, self, true).
Proof.
  intros H. unfold add_condition_to_rule. rewrite H.
  rewrite first_term_eq, next_term_eq.
  destruct (condition (deref h rule)) as [|c cs]; [reflexivity|].
  destruct (str_in (term f v) (c :: cs)); reflexivity.
Qed.

Lemma add_condition_present (h : heap) (self : MsgFilterParser)
    (rn f v : str) (rule : loc) :
  find_rule_by_name h self rn = Some rule ->
  str_in (term f v) (condition (deref h rule)) = true ->
  add_condition_to_rule h self rn f v = (h, self, true).
Proof.
  intros H Hin. rewrite (add_condition_found _ _ _ _ _ _ H).
  destruct (condition (deref h rule)) as [|c cs] eqn:Ec.
  - rewrite str_in_nil_r in Hin by apply term_not_nil. discriminate.
  - rewrite Hin. reflexivity.
Qed.

(** After a call that found its rule, the term is in the condition. *)
Lemma add_condition_then_present (h h1 : heap) (self self1 : MsgFilterParser)
    (rn f v : str) (rule : loc) (ok : bool) :
  (rule < length h)%nat ->
  find_rule_by_name h self rn = Some rule ->
  add_condition_to_rule h self rn f v = (h1, self1, ok) ->
  find_rule_by_name h1 self1 rn = Some rule
  /\ str_in (term f v) (condition (deref h1 rule)) = true.
Proof.
  intros Hlt H E. rewrite (add_condition_found _ _ _ _ _ _ H) in E.
  unfold find_rule_by_name in *.
  destruct (condition (deref h rule)) as [|c cs] eqn:Ec.
  - injection E as <- <- _. rewrite find_in_store_condition.
    rewrite deref_store_eq by exact Hlt. split; [exact H|].
    exact (str_in_first_term f v).
  - destruct (str_in (term f v) (c :: cs)) eqn:Hin; injection E as <- <- _.
    + rewrite Ec. auto.
    + rewrite find_in_store_condition. rewrite deref_store_eq by exact Hlt.
      split; [exact H|]. exact (str_in_next_term (c :: cs) f v).
Qed.

(** C1. Idempotent condition merge: a second call of
    [add_condition_to_rule] with the same rule name, field and value returns
    what the first returned and leaves the heap, hence every rule's
    condition string, as the first call left it; and when the condition of
    the rule found already holds the candidate term [(field,contains,value)]
    as a substring, a call changes nothing and returns [True]. *)
Theorem add_condition_idempotent (h h1 : heap) (self self1 : MsgFilterParser)
    (rn f v : str) (ok1 : bool) :
  add_condition_to_rule h self rn f v = (h1, self1, ok1) ->
  add_condition_to_rule h1 self1 rn f v = (h1, self1, ok1)
  /\ doc_rules h1 self1
     = doc_rules (fst (fst (add_condition_to_rule h1 self1 rn f v))) self1
  /\ (forall rule a b,
         find_rule_by_name h self rn = Some rule ->
         condition (deref h rule) = a ++ term f v ++ b ->
         h1 = h /\ self1 = self /\ ok1 = true).
Proof.
  intros E.
  assert (Idem : add_condition_to_rule h1 self1 rn f v = (h1, self1, ok1)).
  { destruct (find_rule_by_name h self rn) as [rule|] eqn:Hf.
    - destruct (Nat.lt_ge_cases rule (length h)) as [Hlt|Hge].
      + destruct (add_condition_then_present _ _ _ _ _ _ _ _ _ Hlt Hf E)
          as [Hf1 Hin].
        rewrite (add_condition_present _ _ _ _ _ _ Hf1 Hin).
        rewrite (add_condition_found _ _ _ _ _ _ Hf) in E.
        injection E as _ _ <-. reflexivity.
      + (* a reference to no object: the stores change nothing *)
        pose proof E as E'.
        rewrite (add_condition_found _ _ _ _ _ _ Hf) in E'.
        rewrite !store_dangling in E' by exact Hge.
        assert (h1 = h /\ self1 = self) as [-> ->].
        { destruct (condition (deref h rule));
            [|destruct (str_in _ _)]; injection E' as <- <- _; auto. }
        exact E.
    - unfold add_condition_to_rule in E. rewrite Hf in E.
      injection E as <- <- <-.
      unfold add_condition_to_rule. rewrite Hf. reflexivity. }
  split; [exact Idem|]. split; [rewrite Idem; reflexivity|].
  intros rule a b Hf Hc.
  assert (Hin : str_in (term f v) (condition (deref h rule)) = true).
  { rewrite Hc. apply str_in_app. }
  rewrite (add_condition_present _ _ _ _ _ _ Hf Hin) in E.
  injection E as <- <- <-. auto.
Qed.

Lemma add_condition_idempotent_witness :
  let r := mkRule (lit "W") (lit "yes") (lit "17") (lit "Move to folder")
                  (lit "F") (lit "AND (to,contains,me)") in
  let r1 := set_condition (lit "AND (to,contains,me) OR (from,contains,x)") r in
  let self := mkParser (lit "9") (lit "no") [0%nat] in
  add_condition_to_rule [r] self (lit "W") (lit "from") (lit "x")
    = ([r1], self, true)
  /\ add_condition_to_rule [r1] self (lit "W") (lit "from") (lit "x")
    = ([r1], self, true).
Proof.
  intros r r1 self. split; [reflexivity|].
  apply (add_condition_idempotent [r] [r1] self self
           (lit "W") (lit "from") (lit "x") true eq_refl).
Defined.

(** C10. Duplicate detection is textual: when the condition of the rule
    found holds the candidate term [(field,contains,value)] anywhere as a
    run of characters (it is then non-empty), the call returns [True] and
    changes nothing; this includes a condition whose only term has a value
    that happens to hold the candidate's text, where the candidate is not
    one of the terms of the disjunction. *)
Theorem duplicate_detection_is_textual (h : heap) (self : MsgFilterParser)
    (rn f v : str) (rule : loc) :
  find_rule_by_name h self rn = Some rule ->
  (forall a b,
      condition (deref h rule) = a ++ term f v ++ b ->
      condition (deref h rule) <> []
      /\ add_condition_to_rule h self rn f v = (h, self, true))
  /\ (forall f' v0 v1,
         condition (deref h rule) = lit "OR " ++ term f' (v0 ++ term f v ++ v1) ->
         add_condition_to_rule h self rn f v = (h, self, true)).
Proof.
  intros Hf. split.
  - intros a b Hc. split.
    + rewrite Hc. destruct a; discriminate.
    + apply (add_condition_present _ _ _ _ _ _ Hf).
      rewrite Hc. apply str_in_app.
  - intros f' v0 v1 Hc.
    apply (add_condition_present _ _ _ _ _ _ Hf).
    rewrite Hc. apply str_in_iff.
    exists (lit "OR " ++ lit "(" ++ f' ++ lit ",contains," ++ v0), (v1 ++ lit ")").
    unfold term at 1. rewrite <- !app_assoc. reflexivity.
Qed.

Lemma duplicate_detection_is_textual_witness :
  let r := mkRule (lit "W") (lit "yes") (lit "17") (lit "Move to folder")
             (lit "F") (lit "OR (subject,contains,re: (from,contains,ann) said)") in
  let self := mkParser [] [] [0%nat] in
  condition r = lit "OR " ++ term (lit "subject")
                  (lit "re: " ++ term (lit "from") (lit "ann") ++ lit " said")
  /\ add_condition_to_rule [r] self (lit "W") (lit "from") (lit "ann")
     = ([r], self, true).
Proof.
  intros r self. split; [reflexivity|].
  apply (proj2 (duplicate_detection_is_textual [r] self (lit "W") (lit "from")
                  (lit "ann") 0%nat eq_refl)
           (lit "subject") (lit "re: ") (lit " said") eq_refl).
Defined.

(** C8. Rule not found: when no rule of the document has the name asked
    for, [add_condition_to_rule] returns [False] (it returns, it does not
    raise) and the heap, so every field of every rule, and the parser, so
    the rule sequence and the two global scalars, are as before the call. *)
Theorem add_condition_rule_not_found (h : heap) (self : MsgFilterParser)
    (rn f v : str) :
  Forall (fun r => name r <> rn) (doc_rules h self) ->
  add_condition_to_rule h self rn f v = (h, self, false).
Proof.
  intros H. apply doc_no_name in H. apply find_in_None in H.
  unfold add_condition_to_rule, find_rule_by_name. rewrite H. reflexivity.
Qed.

Lemma add_condition_rule_not_found_witness :
  let r := mkRule (lit "W") (lit "yes") (lit "17") (lit "Move to folder")
                  (lit "F") (lit "OR (from,contains,x)") in
  let self := mkParser (lit "9") (lit "no") [0%nat] in
  add_condition_to_rule [r] self (lit "Z") (lit "from") (lit "y")
  = ([r], self, false).
Proof.
  intros r self.
  apply (add_condition_rule_not_found [r] self (lit "Z") (lit "from") (lit "y")).
  repeat constructor. discriminate.
Defined.

(** C7, as stated, fails, and not only when the same pair is given
    twice: with (subject, [re (from,contains,y)]) and then (from, [y]), two
    different pairs, the second call finds the text of its term inside the
    first term and appends nothing, so the condition keeps one term. *)
Lemma term_order_counterexample :
  let r := new_rule (lit "W") in
  let self := mkParser [] [] [0%nat] in
  let f1 := lit "subject" in let v1 := lit "re (from,contains,y)" in
  let f2 := lit "from" in let v2 := lit "y" in
  condition r = []
  /\ exists h1 h2,
       add_condition_to_rule [r] self (lit "W") f1 v1 = (h1, self, true)
       /\ add_condition_to_rule h1 self (lit "W") f2 v2 = (h2, self, true)
       /\ condition (deref h2 0%nat)
          = lit "OR (subject,contains,re (from,contains,y))"
       /\ condition (deref h2 0%nat)
          <> lit "OR (" ++ f1 ++ lit ",contains," ++ v1 ++
             lit ") OR (" ++ f2 ++ lit ",contains," ++ v2 ++ lit ")".
Proof.
  split; [reflexivity|].
  eexists. eexists.
  split; [reflexivity|]. split; [reflexivity|]. split; [reflexivity|].
  vm_compute. discriminate.
Qed.

(** C7, amended. On a rule whose condition is empty, a call with (f1,v1)
    and then a call with (f2,v2) both return [True] and leave the condition
    [OR (f1,contains,v1) OR (f2,contains,v2)], terms in call order, provided
    the second term [(f2,contains,v2)] does not occur in
    [OR (f1,contains,v1)]; when it does occur there (as when the two pairs
    are the same) the second call appends nothing and the condition is
    [OR (f1,contains,v1)]. *)
Theorem term_order_preserved (h : heap) (self : MsgFilterParser)
    (rn f1 v1 f2 v2 : str) (rule : loc) :
  wf h self ->
  find_rule_by_name h self rn = Some rule ->
  condition (deref h rule) = [] ->
  exists h1 h2,
    add_condition_to_rule h self rn f1 v1 = (h1, self, true)
    /\ add_condition_to_rule h1 self rn f2 v2 = (h2, self, true)
    /\ condition (deref h2 rule) =
       if str_in (term f2 v2) (lit "OR " ++ term f1 v1)
       then lit "OR (" ++ f1 ++ lit ",contains," ++ v1 ++ lit ")"
       else lit "OR (" ++ f1 ++ lit ",contains," ++ v1 ++
            lit ") OR (" ++ f2 ++ lit ",contains," ++ v2 ++ lit ")".
Proof.
  intros Hwf Hf Hc.
  pose proof (wf_found _ _ _ _ Hwf Hf) as Hlt.
  pose proof (add_condition_found h self rn f1 v1 rule Hf) as E1.
  rewrite Hc in E1.
  set (h1 := store h rule (set_condition (lit "OR " ++ term f1 v1) (deref h rule)))
    in *.
  assert (Hf1 : find_rule_by_name h1 self rn = Some rule).
  { unfold find_rule_by_name, h1. rewrite find_in_store_condition. exact Hf. }
  assert (Hd1 : deref h1 rule
                = set_condition (lit "OR " ++ term f1 v1) (deref h rule)).
  { unfold h1. apply deref_store_eq. exact Hlt. }
  pose proof (add_condition_found h1 self rn f2 v2 rule Hf1) as E2.
  rewrite Hd1 in E2.
  change (condition (set_condition (lit "OR " ++ term f1 v1) (deref h rule)))
    with (lit "OR " ++ term f1 v1) in E2.
  exists h1. eexists. split; [exact E1|]. split; [exact E2|].
  change (lit "OR " ++ term f1 v1) with (79 :: lit "R " ++ term f1 v1).
  cbv iota beta.
  change (79 :: lit "R " ++ term f1 v1) with (lit "OR " ++ term f1 v1).
  destruct (str_in (term f2 v2) (lit "OR " ++ term f1 v1)).
  - rewrite Hd1. reflexivity.
  - rewrite deref_store_eq by (unfold h1; rewrite length_store; exact Hlt).
    cbn [condition set_condition]. rewrite <- app_assoc.
    change (term f1 v1 ++ lit " OR " ++ term f2 v2)
      with (lit "(" ++ (f1 ++ lit ",contains," ++ v1 ++ lit ")")
                    ++ lit " OR " ++ term f2 v2).
    rewrite <- !app_assoc. reflexivity.
Qed.

Lemma term_order_preserved_witness :
  let r := new_rule (lit "W") in
  let self := mkParser [] [] [0%nat] in
  exists h1 h2,
    add_condition_to_rule [r] self (lit "W") (lit "from") (lit "x")
      = (h1, self, true)
    /\ add_condition_to_rule h1 self (lit "W") (lit "subject") (lit "y")
      = (h2, self, true)
    /\ condition (deref h2 0%nat)
       = lit "OR (from,contains,x) OR (subject,contains,y)".
Proof.
  intros r self.
  assert (Hwf : wf [r] self) by (repeat constructor).
  destruct (term_order_preserved [r] self (lit "W") (lit "from") (lit "x")
              (lit "subject") (lit "y") 0%nat Hwf eq_refl eq_refl)
    as (h1 & h2 & E1 & E2 & Hc).
  exists h1, h2. split; [exact E1|]. split; [exact E2|]. exact Hc.
Defined.

(** ** Find or create *)

Lemma filter_none (n : str) (rs : list MsgFilterRule) :
  Forall (fun r => name r <> n) rs ->
  List.filter (fun r => str_eqb (name r) n) rs = [].
Proof.
  induction 1 as [|r rs Hr _ IH]; simpl; [reflexivity|].
  apply str_eqb_neq in Hr. rewrite Hr. exact IH.
Qed.

Lemma find_in_app_new (h : heap) (rs : list loc) (n : str) (l : loc) :
  find_in h rs n = None -> name (deref h l) = n ->
  find_in h (rs ++ [l]) n = Some l.
Proof.
  intros Hn Hl. apply find_in_Some. exists rs, []. split; [reflexivity|].
  split; [exact Hl|]. apply find_in_None. exact Hn.
Qed.

(** C6. Find or create: when no rule of the document is named [n],
    [find_rule_by_name] returns [None]; otherwise it returns the first rule,
    in sequence order, whose name is exactly [n]. [create_new_rule] builds a
    new rule object with enabled [yes], type [17], action [Move to folder],
    the given action value and the condition [OR (field,contains,value)],
    appends it in last position, leaving the earlier rules and the two
    scalars as they were, and returns it; after it, when no rule was named
    [n] before, the lookup of [n] finds the new rule and it is the only rule
    with that name. *)
Theorem find_or_create (h : heap) (self : MsgFilterParser) (n f v av : str) :
  wf h self ->
  (Forall (fun r => name r <> n) (doc_rules h self) ->
   find_rule_by_name h self n = None)
  /\ (forall rule,
         find_rule_by_name h self n = Some rule <->
         exists pre post,
           rules self = pre ++ rule :: post /\ name (deref h rule) = n
           /\ Forall (fun r => name r <> n) (map (deref h) pre))
  /\ exists h' self' rule,
       create_new_rule h self n f v av = (h', self', rule)
       /\ deref h' rule
          = mkRule n (lit "yes") (lit "17") (lit "Move to folder") av
                   (lit "OR (" ++ f ++ lit ",contains," ++ v ++ lit ")")
       /\ rules self' = rules self ++ [rule]
       /\ doc_rules h' self' = doc_rules h self ++ [deref h' rule]
       /\ version self' = version self /\ logging self' = logging self
       /\ wf h' self'
       /\ (Forall (fun r => name r <> n) (doc_rules h self) ->
           find_rule_by_name h' self' n = Some rule
           /\ List.filter (fun r => str_eqb (name r) n) (doc_rules h' self')
              = [deref h' rule]).
Proof.
  intros Hwf. split; [|split].
  - intros H. apply find_in_None, doc_no_name, H.
  - intros rule. unfold find_rule_by_name. rewrite find_in_Some.
    split; intros (pre & post & E & Hn & Hp); exists pre, post;
      (split; [exact E|]); (split; [exact Hn|]).
    + apply (doc_no_name h (mkParser [] [] pre) n). exact Hp.
    + apply (doc_no_name h (mkParser [] [] pre) n). exact Hp.
  - set (r := mkRule n (lit "yes") (lit "17") (lit "Move to folder") av
                (lit "OR (" ++ f ++ lit ",contains," ++ v ++ lit ")")).
    exists (h ++ [r]), (set_rules (rules self ++ [length h]) self), (length h).
    assert (Hnew : deref (h ++ [r]) (length h) = r) by apply deref_alloc_new.
    assert (Hdoc : doc_rules (h ++ [r])
                     (set_rules (rules self ++ [length h]) self)
                   = doc_rules h self ++ [r]).
    { unfold doc_rules. simpl. rewrite map_app. simpl. rewrite Hnew.
      rewrite (map_deref_alloc h r (rules self) Hwf). reflexivity. }
    split; [reflexivity|]. split; [exact Hnew|]. split; [reflexivity|].
    rewrite Hnew. split; [exact Hdoc|].
    split; [reflexivity|]. split; [reflexivity|]. split.
    + unfold wf. simpl. apply Forall_app. split.
      * eapply Forall_impl; [exact Hwf|]. intros l Hl. simpl in Hl.
        rewrite length_app. simpl. lia.
      * repeat constructor. rewrite length_app. simpl. lia.
    + intros Hno. split.
      * unfold find_rule_by_name. simpl. apply find_in_app_new.
        -- apply find_in_None. apply doc_no_name in Hno.
           unfold wf in Hwf.
           rewrite Forall_forall in Hno. rewrite Forall_forall in Hwf.
           apply Forall_forall. intros l Hl.
           rewrite deref_alloc_old by (apply Hwf; exact Hl).
           apply Hno. exact Hl.
        -- rewrite Hnew. reflexivity.
      * rewrite Hdoc, List.filter_app, filter_none by exact Hno.
        simpl. rewrite str_eqb_refl. reflexivity.
Qed.

Lemma find_or_create_witness :
  let r := mkRule (lit "A") (lit "yes") (lit "17") (lit "Move to folder")
                  (lit "F") (lit "OR (from,contains,x)") in
  let self := mkParser (lit "9") (lit "no") [0%nat] in
  find_rule_by_name [r] self (lit "W") = None
  /\ exists h' self' rule,
       create_new_rule [r] self (lit "W") (lit "from") (lit "a@b.com") (lit "G")
         = (h', self', rule)
       /\ doc_rules h' self' = [r; deref h' rule]
       /\ find_rule_by_name h' self' (lit "W") = Some rule.
Proof.
  intros r self.
  assert (Hwf : wf [r] self) by (repeat constructor).
  assert (Hno : Forall (fun x => name x <> lit "W") (doc_rules [r] self))
    by (repeat constructor; discriminate).
  destruct (find_or_create [r] self (lit "W") (lit "from") (lit "a@b.com")
              (lit "G") Hwf)
    as (A & _ & h' & self' & rule & E & _ & _ & Hdoc & _ & _ & _ & Hfind).
  split; [exact (A Hno)|].
  exists h', self', rule. split; [exact E|]. split; [exact Hdoc|].
  exact (proj1 (Hfind Hno)).
Defined.

(** ** Serialization *)


Lemma kv_line_spec (k : string) (v : str) : kv_line (lit k) v = spec_line k v.
Proof. reflexivity. Qed.

Lemma to_string_lines (r : MsgFilterRule) :
  to_string r ++ nl = concat (map (fun l => l ++ [10]) (spec_rule_lines r)).
Proof.
  unfold to_string, spec_rule_lines. rewrite !kv_line_spec.
  cbn [join map concat]. unfold nl.
  rewrite <- !app_assoc, app_nil_r. reflexivity.
Qed.

Lemma fold_fwrite (g : loc -> str) (rs : list loc) (f0 : str) :
  fold_left (fun f rule => fwrite f (g rule)) rs f0 = f0 ++ concat (map g rs).
Proof.
  revert f0; induction rs as [|l rs IH]; intros f0; simpl.
  - rewrite app_nil_r. reflexivity.
  - rewrite IH. unfold fwrite. rewrite <- app_assoc. reflexivity.
Qed.

Lemma concat_lines_flat_map (rs : list MsgFilterRule) :
  concat (map (fun r => to_string r ++ nl) rs)
  = concat (map (fun l => l ++ [10]) (flat_map spec_rule_lines rs)).
Proof.
  induction rs as [|r rs IH]; [reflexivity|].
  change (flat_map spec_rule_lines (r :: rs))
    with (spec_rule_lines r ++ flat_map spec_rule_lines rs).
  rewrite map_app, concat_app, <- IH, <- to_string_lines.
  reflexivity.
Qed.

Lemma write_file_spec (h : heap) (self : MsgFilterParser)
    (rules_arg : option (list loc)) :
  write_file h self rules_arg
  = spec_serialize (version self) (logging self)
      (map (deref h) (match rules_arg with
                      | None => rules self
                      | Some rs => rs
                      end)).
Proof.
  unfold write_file, spec_serialize, spec_doc_lines.
  rewrite fold_fwrite.
  rewrite <- (map_map (deref h) (fun r => to_string r ++ nl)).
  rewrite concat_lines_flat_map, !map_app, !concat_app, !kv_line_spec.
  unfold fwrite, nl.
  destruct (truthy (version self)), (truthy (logging self));
    cbn [map concat app]; rewrite ?app_nil_r, <- ?app_assoc; reflexivity.
Qed.

(** C5. Serialization format: the text [write_file] writes is the
    [version] line when the version is non-empty, then the [logging] line
    when the logging value is non-empty, then for each rule in sequence
    order its six lines name, enabled, type, action, actionValue, condition,
    each line being the key, [=], a double quote, the value as it is and a
    double quote; every line, the last one included, is followed by one
    newline and no line is empty. *)
Theorem write_file_format (h : heap) (self : MsgFilterParser) :
  write_file h self None
  = concat (map (fun l => l ++ [10])
              ((if truthy (version self)
                then [lit "version" ++ [61; 34] ++ version self ++ [34]]
                else [])
               ++ (if truthy (logging self)
                   then [lit "logging" ++ [61; 34] ++ logging self ++ [34]]
                   else [])
               ++ flat_map
                    (fun r =>
                       [ lit "name" ++ [61; 34] ++ name r ++ [34];
                         lit "enabled" ++ [61; 34] ++ enabled r ++ [34];
                         lit "type" ++ [61; 34] ++ type r ++ [34];
                         lit "action" ++ [61; 34] ++ action r ++ [34];
                         lit "actionValue" ++ [61; 34] ++ action_value r ++ [34];
                         lit "condition" ++ [61; 34] ++ condition r ++ [34] ])
                    (doc_rules h self)))
  /\ write_file h self None
     = spec_serialize (version self) (logging self) (doc_rules h self)
  /\ Forall (fun l => l <> [])
       (spec_doc_lines (version self) (logging self) (doc_rules h self)).
Proof.
  split; [|split].
  - rewrite write_file_spec. reflexivity.
  - apply write_file_spec.
  - unfold spec_doc_lines. rewrite !Forall_app. split; [|split].
    + destruct (truthy (version self)); repeat constructor; discriminate.
    + destruct (truthy (logging self)); repeat constructor; discriminate.
    + induction (doc_rules h self) as [|r rs IH]; [constructor|].
      cbn [flat_map]. apply Forall_app. split; [|exact IH].
      repeat constructor; discriminate.
Qed.

(** The scenario of the specification: a document with version [9] and
    logging [no] and no rule, then a rule created for [W]. *)
Example write_file_scenario :
  let '(h, self, _) :=
    create_new_rule [] (mkParser (lit "9") (lit "no") [])
      (lit "W") (lit "from") (lit "a@b.com") (lit "F") in
  write_file h self None
  = lit "version=" ++ dquote ++ lit "9" ++ dquote ++ nl
    ++ lit "logging=" ++ dquote ++ lit "no" ++ dquote ++ nl
    ++ lit "name=" ++ dquote ++ lit "W" ++ dquote ++ nl
    ++ lit "enabled=" ++ dquote ++ lit "yes" ++ dquote ++ nl
    ++ lit "type=" ++ dquote ++ lit "17" ++ dquote ++ nl
    ++ lit "action=" ++ dquote ++ lit "Move to folder" ++ dquote ++ nl
    ++ lit "actionValue=" ++ dquote ++ lit "F" ++ dquote ++ nl
    ++ lit "condition=" ++ dquote ++ lit "OR (from,contains,a@b.com)"
    ++ dquote ++ nl.
Proof. vm_compute. reflexivity. Qed.

(** ** The loop of [parse_content] against the two-state machine *)

Lemma view_append_current (h : heap) (cur : option loc) (rs : list loc) :
  map (deref h) (append_current cur rs)
  = map (deref h) rs ++ opt_list (option_map (deref h) cur).
Proof.
  destruct cur; simpl; [rewrite map_app | rewrite app_nil_r]; reflexivity.
Qed.

Lemma inv_append_current (st : pstate) :
  inv st ->
  Forall (fun l => (l < length (st_heap st))%nat)
         (append_current (current_rule st) (st_rules st)).
Proof.
  intros [Hr Hc]. destruct (current_rule st) as [l|]; simpl; [|exact Hr].
  apply Forall_app. split; [exact Hr|]. repeat constructor. tauto.
Qed.

Lemma inv_store (h : heap) (self : MsgFilterParser) (l : loc)
    (rs : list loc) (r : MsgFilterRule) :
  inv (mkPState h self (Some l) rs) ->
  inv (mkPState (store h l r) self (Some l) rs).
Proof.
  unfold inv; simpl. rewrite length_store. tauto.
Qed.

(** One key and value: the loop state, seen as values, moves as the
    two-state machine does. *)
Lemma dispatch_refines (k v : str) (st : pstate) :
  inv st ->
  inv (dispatch k v st)
  /\ forall rest,
       view_done (dispatch k v st)
         ++ spec_records rest (view_open (dispatch k v st))
       = view_done st ++ spec_records ((k, v) :: rest) (view_open st).
Proof.
  intros Hinv. pose proof (inv_append_current st Hinv) as Happ.
  destruct st as [h self cur rs]. unfold dispatch, view_done, view_open.
  cbn [st_heap st_self current_rule st_rules spec_records] in *.
  destruct (str_eqb k (lit "version")) eqn:Ev.
  { apply str_eqb_eq in Ev; subst k. eval_keys. cbn [orb]. auto. }
  destruct (str_eqb k (lit "logging")) eqn:El.
  { apply str_eqb_eq in El; subst k. eval_keys. cbn [orb]. auto. }
  destruct (str_eqb k (lit "name")) eqn:En.
  { unfold alloc. cbn [st_heap st_self current_rule st_rules option_map].
    split.
    - split; cbn [st_heap st_self current_rule st_rules].
      + eapply Forall_impl; [exact Happ|]. intros l Hl. cbn beta in Hl.
        rewrite length_app. simpl. lia.
      + split; [rewrite length_app; simpl; lia|].
        intros Hin. rewrite Forall_forall in Happ.
        apply list_elem_of_In, Happ in Hin. lia.
    - intros rest. rewrite deref_alloc_new, map_deref_alloc by exact Happ.
      rewrite view_append_current, <- app_assoc. reflexivity. }
  cbn [orb]. destruct cur as [l|]; [|auto].
  destruct Hinv as [Hr [Hl Hnin]]. cbn [st_heap st_rules current_rule] in *.
  assert (Hupd : forall f : str -> MsgFilterRule -> MsgFilterRule,
             inv (mkPState (store h l (f v (deref h l))) self (Some l) rs)
             /\ forall rest g,
                  g (deref h l) = f v (deref h l) ->
                  map (deref (store h l (f v (deref h l)))) rs
                    ++ spec_records rest
                         (option_map (deref (store h l (f v (deref h l))))
                                     (Some l))
                  = map (deref h) rs
                    ++ spec_records rest (option_map g (Some (deref h l)))).
  { intros f. split; [apply inv_store; repeat split; assumption|].
    intros rest g Hg. cbn [option_map].
    rewrite deref_store_eq, map_deref_store, Hg by assumption. reflexivity. }
  unfold spec_set_field.
  destruct (str_eqb k (lit "enabled")) eqn:E1;
    [split; [apply Hupd|]; intros rest; apply Hupd; reflexivity|].
  destruct (str_eqb k (lit "type")) eqn:E2;
    [split; [apply Hupd|]; intros rest; apply Hupd; reflexivity|].
  destruct (str_eqb k (lit "action")) eqn:E3;
    [split; [apply Hupd|]; intros rest; apply Hupd; reflexivity|].
  destruct (str_eqb k (lit "actionValue")) eqn:E4;
    [split; [apply Hupd|]; intros rest; apply Hupd; reflexivity|].
  destruct (str_eqb k (lit "condition")) eqn:E5;
    [split; [apply Hupd|]; intros rest; apply Hupd; reflexivity|].
  split; [repeat split; assumption|]. intros rest. reflexivity.
Qed.

Lemma omap_line_kv_cons (line : str) (rest : list str) :
  omap line_kv (line :: rest)
  = match line_kv line with
    | Some kv => kv :: omap line_kv rest
    | None => omap line_kv rest
    end.
Proof. reflexivity. Qed.

Lemma inv_loop_init (h : heap) (self : MsgFilterParser) : inv (loop_init h self).
Proof. split; simpl; auto. Qed.

Lemma parse_lines_refines (lines : list str) (st : pstate) :
  inv st ->
  exists st',
    parse_lines lines st = Ok st' /\ inv st'
    /\ view_done st' ++ opt_list (view_open st')
       = view_done st ++ spec_records (omap line_kv lines) (view_open st).
Proof.
  revert st; induction lines as [|line rest IH]; intros st Hinv.
  - exists st. auto.
  - cbn [parse_lines]. rewrite parse_line_kv, omap_line_kv_cons.
    cbn [bind]. destruct (line_kv line) as [[k v]|].
    + cbn [fst snd]. destruct (dispatch_refines k v st Hinv) as [Hinv1 Hstep].
      destruct (IH _ Hinv1) as (st' & E & Hinv' & Hv).
      exists st'. split; [exact E|]. split; [exact Hinv'|].
      rewrite Hv. apply Hstep.
    + apply IH. exact Hinv.
Qed.

Lemma dispatch_self (k v : str) (st : pstate) :
  st_self (dispatch k v st)
  = if str_eqb k (lit "version") then set_version v (st_self st)
    else if str_eqb k (lit "logging") then set_logging v (st_self st)
    else st_self st.
Proof.
  unfold dispatch.
  destruct (str_eqb k (lit "version")); [reflexivity|].
  destruct (str_eqb k (lit "logging")); [reflexivity|].
  destruct (str_eqb k (lit "name")); [reflexivity|].
  destruct (current_rule st); [|reflexivity].
  repeat match goal with
         | |- context [if ?b then _ else _] => destruct b
         end; reflexivity.
Qed.

Lemma spec_scalar_cons (key init : str) (kv : str * str)
    (rest : list (str * str)) :
  spec_scalar key init (kv :: rest)
  = spec_scalar key (if str_eqb (fst kv) key then snd kv else init) rest.
Proof. reflexivity. Qed.

(** The loop leaves in [self.version] and [self.logging] the value of the
    last line with that key, and does not touch [self.rules]. *)
Lemma parse_lines_scalars (lines : list str) (st st' : pstate) :
  parse_lines lines st = Ok st' ->
  version (st_self st')
  = spec_scalar (lit "version") (version (st_self st)) (omap line_kv lines)
  /\ logging (st_self st')
     = spec_scalar (lit "logging") (logging (st_self st)) (omap line_kv lines)
  /\ rules (st_self st') = rules (st_self st).
Proof.
  revert st; induction lines as [|line rest IH]; intros st.
  - intros [= <-]. auto.
  - cbn [parse_lines]. rewrite parse_line_kv, omap_line_kv_cons. cbn [bind].
    destruct (line_kv line) as [[k v]|]; [|apply IH].
    intros E. apply IH in E as (Hv & Hl & Hr). cbn [fst snd] in *.
    rewrite !spec_scalar_cons, Hv, Hl, Hr, dispatch_self. cbn [fst snd].
    destruct (str_eqb k (lit "version")) eqn:Ev.
    { apply str_eqb_eq in Ev; subst k. eval_keys. auto. }
    destruct (str_eqb k (lit "logging")) eqn:El; auto.
Qed.

(** [parse_content] returns, and what it returns is what the two-state
    machine makes of the keys and values of the lines. *)
Lemma parse_content_refines (h : heap) (self : MsgFilterParser) (content : str) :
  exists h' self' rs,
    parse_content h self content = Ok (h', self', rs)
    /\ rules self' = rs
    /\ doc_rules h' self' = spec_records (content_kvs content) None
    /\ version self'
       = spec_scalar (lit "version") (version self) (content_kvs content)
    /\ logging self'
       = spec_scalar (lit "logging") (logging self) (content_kvs content)
    /\ wf h' self'.
Proof.
  rewrite parse_content_unfold.
  destruct (parse_lines_refines (content_lines content) (loop_init h self)
              (inv_loop_init h self)) as (st & E & Hinv & Hv).
  destruct (parse_lines_scalars _ _ _ E) as (Hver & Hlog & _).
  rewrite E. cbn [bind].
  eexists _, _, _. split; [reflexivity|]. split; [reflexivity|].
  unfold doc_rules, wf. cbn [rules version logging set_rules].
  split; [|split; [exact Hver|split; [exact Hlog|]]].
  - rewrite view_append_current. exact Hv.
  - apply inv_append_current. exact Hinv.
Qed.

(** ** Record boundaries *)

Lemma dispatch_name (v : str) (st : pstate) :
  dispatch (lit "name") v st
  = mkPState (st_heap st ++ [new_rule v]) (st_self st)
             (Some (length (st_heap st)))
             (append_current (current_rule st) (st_rules st)).
Proof. reflexivity. Qed.

Lemma dispatch_no_open (k v : str) (st : pstate) :
  current_rule st = None -> str_eqb k (lit "name") = false ->
  st_heap (dispatch k v st) = st_heap st
  /\ current_rule (dispatch k v st) = None
  /\ st_rules (dispatch k v st) = st_rules st.
Proof.
  intros Hc Hn. unfold dispatch. rewrite Hn, Hc.
  destruct (str_eqb k (lit "version")); [auto|].
  destruct (str_eqb k (lit "logging")); auto.
Qed.

(** Until a line has the key [name], no rule is open and none is made. *)
Lemma parse_lines_no_name (lines : list str) (st : pstate) :
  current_rule st = None ->
  Forall (fun l => forall v, line_kv l <> Some (lit "name", v)) lines ->
  exists st',
    parse_lines lines st = Ok st' /\ current_rule st' = None
    /\ st_rules st' = st_rules st /\ st_heap st' = st_heap st.
Proof.
  revert st; induction lines as [|line rest IH]; intros st Hc Hall.
  - exists st. auto.
  - inversion Hall as [|? ? Hline Hrest]; subst.
    cbn [parse_lines]. rewrite parse_line_kv. cbn [bind].
    destruct (line_kv line) as [[k v]|] eqn:E; [|apply IH; assumption].
    cbn [fst snd].
    assert (Hn : str_eqb k (lit "name") = false).
    { apply str_eqb_neq. intros ->. exact (Hline v eq_refl). }
    destruct (dispatch_no_open k v st Hc Hn) as (Hh & Hc1 & Hr).
    destruct (IH _ Hc1 Hrest) as (st' & E' & Hc' & Hr' & Hh').
    exists st'. rewrite Hr', Hh', Hr, Hh. auto.
Qed.

(** C3. Record boundaries. A line whose key is [name] appends the open
    rule, if any, to the rule list and opens a new rule object with that
    name and the other five fields at their defaults. At the end of the
    input the open rule is appended, with no further [name] line. A line
    with one of the keys enabled, type, action, actionValue, condition while
    no rule is open changes nothing, and no rule is open and none has been
    made as long as no line had the key [name]. For every input text the
    rules returned are those of the two-state machine of the
    specification, run on the keys and values of the lines. *)
Theorem record_boundaries :
  (forall line v st,
      line_kv line = Some (lit "name", v) ->
      parse_line line st
      = Ok (mkPState
              (st_heap st
                 ++ [mkRule v (lit "yes") (lit "17") (lit "Move to folder") [] []])
              (st_self st)
              (Some (length (st_heap st)))
              (match current_rule st with
               | Some l => st_rules st ++ [l]
               | None => st_rules st
               end)))
  /\ (forall h self content st,
         parse_lines (content_lines content) (loop_init h self) = Ok st ->
         parse_content h self content
         = Ok (st_heap st,
               mkParser (version (st_self st)) (logging (st_self st))
                        (st_rules st ++ opt_list (current_rule st)),
               st_rules st ++ opt_list (current_rule st)))
  /\ (forall line k v st,
         line_kv line = Some (k, v) -> In k field_keys ->
         current_rule st = None ->
         parse_line line st = Ok st)
  /\ (forall lines h self,
         Forall (fun l => forall v, line_kv l <> Some (lit "name", v)) lines ->
         exists st,
           parse_lines lines (loop_init h self) = Ok st
           /\ current_rule st = None /\ st_rules st = [] /\ st_heap st = h)
  /\ (forall h self content,
         exists h' self' rs,
           parse_content h self content = Ok (h', self', rs)
           /\ rules self' = rs
           /\ doc_rules h' self' = spec_records (content_kvs content) None)
  /\ (forall v rest open,
         spec_records ((lit "name", v) :: rest) open
         = opt_list open
           ++ spec_records rest
                (Some (mkRule v (lit "yes") (lit "17") (lit "Move to folder")
                              [] [])))
  /\ (forall open, spec_records [] open = opt_list open)
  /\ (forall k v rest,
         In k field_keys ->
         spec_records ((k, v) :: rest) None = spec_records rest None).
Proof.
  repeat match goal with |- _ /\ _ => split end.
  - intros line v st E. rewrite parse_line_kv, E. cbn [fst snd].
    rewrite dispatch_name. reflexivity.
  - intros h self content st E. rewrite parse_content_unfold, E. cbn [bind].
    unfold set_rules. destruct (current_rule st); cbn [append_current opt_list];
      rewrite ?app_nil_r; reflexivity.
  - intros line k v st E Hk Hc. rewrite parse_line_kv, E. cbn [fst snd].
    destruct (field_key_not_global k Hk) as (H1 & H2 & H3).
    rewrite dispatch_no_rule by assumption. reflexivity.
  - intros lines h self Hall.
    destruct (parse_lines_no_name lines (loop_init h self) eq_refl Hall)
      as (st & E & Hc & Hr & Hh).
    exists st. auto.
  - intros h self content.
    destruct (parse_content_refines h self content)
      as (h' & self' & rs & E & Hr & Hd & _).
    exists h', self', rs. auto.
  - intros v rest open. cbn [spec_records]. eval_keys. reflexivity.
  - reflexivity.
  - intros k v rest Hk. cbn [spec_records].
    destruct (field_key_not_global k Hk) as (H1 & H2 & H3).
    rewrite H1, H2, H3. reflexivity.
Qed.

Lemma record_boundaries_witness :
  let content :=
    lit "enabled=no" ++ nl ++ lit "name=A" ++ nl ++ lit "type=3" ++ nl
    ++ lit "name=B" in
  let st := loop_init [] MsgFilterParser_init in
  parse_line (lit "name=A") st
  = Ok (mkPState [new_rule (lit "A")] MsgFilterParser_init (Some 0%nat) [])
  /\ parse_line (lit "enabled=no") st = Ok st
  /\ (exists st',
         parse_lines [lit "enabled=no"; lit "version=9"] st = Ok st'
         /\ current_rule st' = None /\ st_rules st' = [] /\ st_heap st' = [])
  /\ parse_content [] MsgFilterParser_init content
     = Ok ([set_type (lit "3") (new_rule (lit "A")); new_rule (lit "B")],
           mkParser [] [] [0%nat; 1%nat], [0%nat; 1%nat]).
Proof.
  destruct record_boundaries as (A & B & C & D & _).
  intros content st. split; [|split; [|split]].
  - apply (A (lit "name=A") (lit "A") st). reflexivity.
  - apply (C (lit "enabled=no") (lit "enabled") (lit "no") st).
    + reflexivity.
    + left; reflexivity.
    + reflexivity.
  - apply (D [lit "enabled=no"; lit "version=9"] [] MsgFilterParser_init).
    repeat constructor; intros v; vm_compute; discriminate.
  - apply (B [] MsgFilterParser_init content
             (mkPState [set_type (lit "3") (new_rule (lit "A"));
                        new_rule (lit "B")]
                       MsgFilterParser_init (Some 1%nat) [0%nat])).
    vm_compute. reflexivity.
Defined.

(** ** Round trip *)

(** *** Reading back one written line *)

Lemma rstrip_by_nonlast (p : char -> bool) (s : str) :
  (forall t c, s = t ++ [c] -> p c = false) -> rstrip_by p s = s.
Proof.
  intros H. destruct s as [|a s]; [reflexivity|].
  destruct (@exists_last _ (a :: s) ltac:(discriminate)) as (t & c & E).
  rewrite E. apply rstrip_by_keep. exact (H t c E).
Qed.

Lemma rstrip_by_drop (p : char -> bool) (s : str) (c : char) :
  p c = true -> rstrip_by p (s ++ [c]) = rstrip_by p s.
Proof.
  intros H. unfold rstrip_by. rewrite rev_app_distr. simpl. rewrite H.
  reflexivity.
Qed.

Lemma no_quote_char_in (v : str) (c : char) :
  no_quote v -> In c v -> char_in dquote c = false.
Proof.
  intros Hv Hc. destruct (char_in dquote c) eqn:E; [|reflexivity].
  apply char_in_dquote in E. subst c. contradiction.
Qed.

(** Stripping the double quotes of a quoted value gives the value back,
    when it holds no double quote. *)
Lemma strip_chars_quoted (v : str) :
  no_quote v -> strip_chars dquote (34 :: v ++ [34]) = v.
Proof.
  intros Hv. unfold strip_chars, strip_by, lstrip_by.
  assert (Hq : char_in dquote 34 = true) by reflexivity.
  cbn [drop_while]. rewrite Hq.
  destruct v as [|c v'].
  - cbn [app drop_while]. rewrite Hq. reflexivity.
  - cbn [app]. rewrite drop_while_keep
      by (apply (no_quote_char_in (c :: v')); [exact Hv | left; reflexivity]).
    change (c :: v' ++ [34]) with ((c :: v') ++ [34]).
    rewrite rstrip_by_drop by exact Hq.
    apply rstrip_by_nonlast. intros t b E.
    apply (no_quote_char_in (c :: v')); [exact Hv|].
    rewrite E. apply in_or_app. right. left. reflexivity.
Qed.

Lemma isspace_dquote : isspace 34 = false.
Proof. reflexivity. Qed.

Lemma strip_quoted (v : str) : strip (34 :: v ++ [34]) = 34 :: v ++ [34].
Proof. apply strip_by_keep; reflexivity. Qed.

(** A written line is read back as its key and its value. *)
Lemma line_kv_written (k v : str) :
  plain_key k -> no_quote v ->
  line_kv (k ++ [61; 34] ++ v ++ [34]) = Some (k, v).
Proof.
  intros (Hk61 & _ & Hks & a & m & -> & Ha) Hv.
  unfold line_kv.
  assert (Es : strip ((a :: m) ++ [61; 34] ++ v ++ [34])
               = (a :: m) ++ [61; 34] ++ v ++ [34]).
  { change ((a :: m) ++ [61; 34] ++ v ++ [34])
      with (a :: (m ++ [61; 34] ++ v ++ [34])).
    replace (m ++ [61; 34] ++ v ++ [34]) with ((m ++ [61; 34] ++ v) ++ [34])
      by (rewrite <- !app_assoc; reflexivity).
    apply strip_by_keep; [exact Ha | reflexivity]. }
  rewrite Es.
  assert (Hin : str_in (lit "=") ((a :: m) ++ [61; 34] ++ v ++ [34]) = true).
  { change (lit "=") with [61]. apply str_in_char.
    apply in_or_app. right. left. reflexivity. }
  rewrite Hin. cbn [truthy app andb].
  change (a :: m ++ 61 :: 34 :: v ++ [34])
    with ((a :: m) ++ 61 :: (34 :: v ++ [34])).
  unfold key_value, split_max1.
  rewrite partition_at_cut by exact Hk61. cbn [unpack2 bind fst snd].
  rewrite Hks, strip_quoted, strip_chars_quoted by exact Hv. reflexivity.
Qed.

Lemma plain_key_lit (k : str) :
  In k known_keys -> plain_key k.
Proof.
  unfold known_keys, field_keys. simpl.
  intros H.
  repeat (destruct H as [<-|H];
          [split; [vm_compute; intuition discriminate|];
           split; [vm_compute; intuition discriminate|];
           split; [reflexivity|];
           eexists _, _; split; reflexivity |]).
  destruct H.
Qed.

Lemma line_kv_spec_line (k : string) (v : str) :
  In (lit k) known_keys -> no_quote v ->
  line_kv (spec_line k v) = Some (lit k, v).
Proof.
  intros Hk Hv. apply line_kv_written; [apply plain_key_lit; exact Hk|exact Hv].
Qed.

Lemma known_key_cases :
  In (lit "version") known_keys /\ In (lit "logging") known_keys
  /\ In (lit "name") known_keys /\ In (lit "enabled") known_keys
  /\ In (lit "type") known_keys /\ In (lit "action") known_keys
  /\ In (lit "actionValue") known_keys /\ In (lit "condition") known_keys.
Proof. unfold known_keys, field_keys. simpl. tauto. Qed.

Lemma Forall_fields (P : str -> Prop) (r : MsgFilterRule) :
  Forall P (rule_fields r) ->
  P (name r) /\ P (enabled r) /\ P (type r) /\ P (action r)
  /\ P (action_value r) /\ P (condition r).
Proof.
  unfold rule_fields. intros H.
  repeat (inversion H as [|? ? ? H']; subst; clear H; rename H' into H).
  tauto.
Qed.

Lemma omap_rule_lines (r : MsgFilterRule) :
  Forall no_quote (rule_fields r) ->
  omap line_kv (spec_rule_lines r) = six_kvs r.
Proof.
  intros H. apply Forall_fields in H as (H1 & H2 & H3 & H4 & H5 & H6).
  destruct known_key_cases as (_ & _ & K1 & K2 & K3 & K4 & K5 & K6).
  unfold spec_rule_lines. rewrite !omap_line_kv_cons.
  rewrite !line_kv_spec_line by assumption. reflexivity.
Qed.

Lemma omap_rules_lines (rs : list MsgFilterRule) :
  Forall no_quote (flat_map rule_fields rs) ->
  omap line_kv (flat_map spec_rule_lines rs) = flat_map six_kvs rs.
Proof.
  induction rs as [|r rs IH]; [reflexivity|].
  change (flat_map rule_fields (r :: rs))
    with (rule_fields r ++ flat_map rule_fields rs).
  change (flat_map spec_rule_lines (r :: rs))
    with (spec_rule_lines r ++ flat_map spec_rule_lines rs).
  change (flat_map six_kvs (r :: rs)) with (six_kvs r ++ flat_map six_kvs rs).
  intros H. apply Forall_app in H as [Hr Hrs].
  rewrite omap_app, omap_rule_lines, IH by assumption. reflexivity.
Qed.

(** The lines of a written document are read back as its keys and values. *)
Lemma omap_doc_lines (ver lg : str) (rs : list MsgFilterRule) :
  Forall no_quote (ver :: lg :: flat_map rule_fields rs) ->
  omap line_kv (spec_doc_lines ver lg rs) = doc_kvs ver lg rs.
Proof.
  intros H. inversion H as [|? ? Hv H']; subst.
  inversion H' as [|? ? Hl Hrs]; subst.
  destruct known_key_cases as (Kv & Kl & _).
  unfold spec_doc_lines, doc_kvs.
  rewrite !omap_app, omap_rules_lines by exact Hrs.
  f_equal; [|f_equal].
  - destruct (truthy ver); [|reflexivity].
    rewrite omap_line_kv_cons, line_kv_spec_line by assumption. reflexivity.
  - destruct (truthy lg); [|reflexivity].
    rewrite omap_line_kv_cons, line_kv_spec_line by assumption. reflexivity.
Qed.

(** *** The two-state machine on the keys and values of a document *)

Lemma spec_records_six (r : MsgFilterRule) (rest : list (str * str))
    (open : option MsgFilterRule) :
  spec_records (six_kvs r ++ rest) open
  = opt_list open ++ spec_records rest (Some r).
Proof.
  unfold six_kvs. cbn [app spec_records]. eval_keys. cbn [orb option_map].
  unfold spec_set_field. eval_keys. destruct r; reflexivity.
Qed.

Lemma spec_records_rules (rs : list MsgFilterRule)
    (open : option MsgFilterRule) :
  spec_records (flat_map six_kvs rs) open = opt_list open ++ rs.
Proof.
  revert open; induction rs as [|r rs IH]; intros open.
  - cbn [flat_map spec_records]. rewrite app_nil_r. reflexivity.
  - change (flat_map six_kvs (r :: rs)) with (six_kvs r ++ flat_map six_kvs rs).
    rewrite spec_records_six, IH. reflexivity.
Qed.

Lemma spec_records_doc (ver lg : str) (rs : list MsgFilterRule) :
  spec_records (doc_kvs ver lg rs) None = rs.
Proof.
  unfold doc_kvs.
  destruct (truthy ver), (truthy lg); cbn [app spec_records]; eval_keys;
    cbn [orb]; apply spec_records_rules.
Qed.

Lemma spec_scalar_rules (key init : str) (rs : list MsgFilterRule) :
  key = lit "version" \/ key = lit "logging" ->
  spec_scalar key init (flat_map six_kvs rs) = init.
Proof.
  intros Hk. revert init. induction rs as [|r rs IH]; intros init;
    [reflexivity|].
  change (flat_map six_kvs (r :: rs)) with (six_kvs r ++ flat_map six_kvs rs).
  unfold six_kvs. cbn [app]. rewrite !spec_scalar_cons. cbn [fst snd].
  destruct Hk as [-> | ->]; eval_keys; apply IH.
Qed.

Lemma truthy_false (s : str) : truthy s = false -> s = [].
Proof. destruct s; [reflexivity | discriminate]. Qed.

Lemma spec_scalar_doc (ver lg : str) (rs : list MsgFilterRule) :
  spec_scalar (lit "version") [] (doc_kvs ver lg rs) = ver
  /\ spec_scalar (lit "logging") [] (doc_kvs ver lg rs) = lg.
Proof.
  unfold doc_kvs.
  destruct (truthy ver) eqn:Ev, (truthy lg) eqn:El;
    try apply truthy_false in Ev; try apply truthy_false in El; subst;
    cbn [app]; rewrite ?spec_scalar_cons; cbn [fst snd]; eval_keys;
    rewrite !spec_scalar_rules by tauto; auto.
Qed.

(** *** Cutting the written text back into its lines *)

Lemma unlines_join (lines : list str) :
  lines <> [] ->
  concat (map (fun l => l ++ [10]) lines) = join [10] lines ++ [10].
Proof.
  induction lines as [|l ls IH]; [congruence|]. intros _.
  destruct ls as [|l' ls].
  - cbn [map concat join]. rewrite app_nil_r. reflexivity.
  - change (join [10] (l :: l' :: ls)) with (l ++ [10] ++ join [10] (l' :: ls)).
    change (concat (map (fun l0 : str => l0 ++ [10]) (l :: l' :: ls)))
      with ((l ++ [10])
              ++ concat (map (fun l0 : str => l0 ++ [10]) (l' :: ls))).
    rewrite IH by discriminate. rewrite <- !app_assoc. reflexivity.
Qed.

Lemma join_good (lines : list str) :
  lines <> [] -> Forall good_line lines -> good_line (join [10] lines).
Proof.
  induction lines as [|l ls IH]; [congruence|]. intros _ Hall.
  inversion Hall as [|? ? Hl Hls]; subst.
  destruct ls as [|l' ls]; [exact Hl|].
  change (join [10] (l :: l' :: ls)) with (l ++ [10] ++ join [10] (l' :: ls)).
  destruct Hl as (a & m & -> & Ha).
  destruct (IH ltac:(discriminate) Hls) as (a' & m' & -> & _).
  exists a, (m ++ [34] ++ [10] ++ a' :: m'). split; [|exact Ha].
  cbn [app]. rewrite <- !app_assoc. reflexivity.
Qed.

Lemma strip_good_newline (s : str) : good_line s -> strip (s ++ [10]) = s.
Proof.
  intros (a & m & -> & Ha). unfold strip, strip_by, lstrip_by.
  change ((a :: m ++ [34]) ++ [10]) with (a :: (m ++ [34]) ++ [10]).
  rewrite drop_while_keep by exact Ha.
  change (a :: (m ++ [34]) ++ [10]) with ((a :: m ++ [34]) ++ [10]).
  rewrite rstrip_by_drop by reflexivity.
  apply (rstrip_by_keep isspace (a :: m) 34). reflexivity.
Qed.

(** The lines the parser loops over are the lines that were written. *)
Lemma content_lines_unlines (lines : list str) :
  lines <> [] -> Forall good_line lines ->
  Forall (fun l => ~ In 10 l) lines ->
  content_lines (concat (map (fun l => l ++ [10]) lines)) = lines.
Proof.
  intros Hne Hgood Hnl. unfold content_lines.
  rewrite unlines_join by exact Hne.
  rewrite strip_good_newline by (apply join_good; assumption).
  apply split_join; assumption.
Qed.

Lemma spec_line_good (k : string) (v : str) :
  In (lit k) known_keys -> good_line (spec_line k v).
Proof.
  intros Hk. destruct (plain_key_lit _ Hk) as (_ & _ & _ & a & m & E & Ha).
  unfold spec_line. rewrite E. exists a, (m ++ [61; 34] ++ v).
  split; [|exact Ha]. cbn [app]. rewrite <- !app_assoc. reflexivity.
Qed.

Lemma spec_line_no_newline (k : string) (v : str) :
  In (lit k) known_keys -> no_newline v -> ~ In 10 (spec_line k v).
Proof.
  intros Hk Hv. destruct (plain_key_lit _ Hk) as (_ & Hk10 & _).
  unfold spec_line. rewrite !in_app_iff. simpl.
  intros [H|[[H|[H|[]]]|[H|[H|[]]]]]; try discriminate; contradiction.
Qed.

(** A property of every written line follows from a property of every
    value. *)
Lemma spec_doc_lines_Forall (P Q : str -> Prop) (ver lg : str)
    (rs : list MsgFilterRule) :
  (forall k v, In (lit k) known_keys -> Q v -> P (spec_line k v)) ->
  Forall Q (ver :: lg :: flat_map rule_fields rs) ->
  Forall P (spec_doc_lines ver lg rs).
Proof.
  intros HP H. inversion H as [|? ? Hv H']; subst.
  inversion H' as [|? ? Hl Hrs]; subst.
  destruct known_key_cases as (Kv & Kl & K1 & K2 & K3 & K4 & K5 & K6).
  unfold spec_doc_lines. rewrite !Forall_app. split; [|split].
  - destruct (truthy ver); repeat constructor. auto.
  - destruct (truthy lg); repeat constructor. auto.
  - clear H H' Hv Hl. induction rs as [|r rs IH]; [constructor|].
    change (flat_map rule_fields (r :: rs))
      with (rule_fields r ++ flat_map rule_fields rs) in Hrs.
    change (flat_map spec_rule_lines (r :: rs))
      with (spec_rule_lines r ++ flat_map spec_rule_lines rs).
    apply Forall_app in Hrs as [Hr Hrs].
    apply Forall_fields in Hr as (H1 & H2 & H3 & H4 & H5 & H6).
    apply Forall_app. split; [|apply IH; exact Hrs].
    unfold spec_rule_lines. repeat constructor; auto.
Qed.

(** The keys and values the parser sees in a written document are those
    of the document. *)
Lemma content_kvs_serialize (ver lg : str) (rs : list MsgFilterRule) :
  Forall no_quote (ver :: lg :: flat_map rule_fields rs) ->
  Forall no_newline (ver :: lg :: flat_map rule_fields rs) ->
  content_kvs (spec_serialize ver lg rs) = doc_kvs ver lg rs.
Proof.
  intros Hq Hn. rewrite <- (omap_doc_lines ver lg rs Hq).
  unfold content_kvs, spec_serialize.
  destruct (spec_doc_lines ver lg rs) as [|l ls] eqn:E; [reflexivity|].
  rewrite <- E. rewrite content_lines_unlines; [reflexivity| | |].
  - rewrite E. discriminate.
  - apply (spec_doc_lines_Forall good_line (fun _ => True)).
    + intros k v Hk _. apply spec_line_good. exact Hk.
    + apply Forall_forall. auto.
  - apply (spec_doc_lines_Forall (fun l => ~ In 10 l) no_newline);
      [|exact Hn].
    intros k v Hk Hv. apply spec_line_no_newline; assumption.
Qed.

(** *** The round trip *)

(** C2, as stated, fails: a rule name with a newline in it and no double
    quote anywhere is written over two lines, and read back as the name up
    to the newline. *)
Lemma round_trip_counterexample :
  let r := mkRule (lit "a" ++ nl ++ lit "b") (lit "yes") (lit "17")
                  (lit "Move to folder") (lit "F")
                  (lit "OR (from,contains,x)") in
  let self := mkParser (lit "9") (lit "no") [0%nat] in
  Forall no_quote (doc_values [r] self)
  /\ exists h' self' rs,
       parse_content [r] MsgFilterParser_init (write_file [r] self None)
       = Ok (h', self', rs)
       /\ map name (doc_rules h' self') = [lit "a"]
       /\ doc_rules h' self' <> doc_rules [r] self.
Proof.
  intros r self. split; [solve_clean|].
  eexists _, _, _. split; [vm_compute; reflexivity|].
  split; [reflexivity|]. vm_compute. discriminate.
Qed.

(** C2, amended. Round trip: for every document whose values (the two
    scalars and the six fields of every rule) hold no double quote and no
    newline, parsing with a new parser the text [write_file] writes returns
    normally and gives back the version, the logging value and the rules,
    each with its six fields, in the same order. *)
Theorem round_trip (h h0 : heap) (self : MsgFilterParser) :
  Forall no_quote (doc_values h self) ->
  Forall no_newline (doc_values h self) ->
  exists h' self' rs,
    parse_content h0 MsgFilterParser_init (write_file h self None)
    = Ok (h', self', rs)
    /\ rules self' = rs
    /\ version self' = version self
    /\ logging self' = logging self
    /\ doc_rules h' self' = doc_rules h self.
Proof.
  intros Hq Hn. unfold doc_values in Hq, Hn.
  destruct (parse_content_refines h0 MsgFilterParser_init
              (write_file h self None))
    as (h' & self' & rs & E & Hr & Hd & Hv & Hl & _).
  rewrite write_file_spec in Hd, Hv, Hl.
  change (map (deref h) (rules self)) with (doc_rules h self) in Hd, Hv, Hl.
  rewrite content_kvs_serialize in Hd, Hv, Hl by assumption.
  rewrite spec_records_doc in Hd.
  destruct (spec_scalar_doc (version self) (logging self) (doc_rules h self))
    as [Sv Sl].
  change (version MsgFilterParser_init) with (@nil N) in Hv.
  change (logging MsgFilterParser_init) with (@nil N) in Hl.
  rewrite Sv in Hv. rewrite Sl in Hl.
  exists h', self', rs. auto.
Qed.

Lemma round_trip_witness :
  let r1 := mkRule (lit "First Rule") (lit "yes") (lit "17")
                   (lit "Move to folder") (lit "imap://user@host.com/Folder1")
                   (lit "AND (from,contains,test1@example.com)") in
  let r2 := mkRule (lit "Second Rule") (lit "no") (lit "17")
                   (lit "Copy to folder") (lit "imap://user@host.com/Folder2")
                   (lit "OR (subject,contains,a = b)") in
  let self := mkParser (lit "9") (lit "no") [1%nat; 0%nat] in
  exists h' self' rs,
    parse_content [r2; r1] MsgFilterParser_init (write_file [r2; r1] self None)
    = Ok (h', self', rs)
    /\ version self' = lit "9" /\ logging self' = lit "no"
    /\ doc_rules h' self' = [r1; r2].
Proof.
  intros r1 r2 self.
  assert (Hq : Forall no_quote (doc_values [r2; r1] self)) by solve_clean.
  assert (Hn : Forall no_newline (doc_values [r2; r1] self)) by solve_clean.
  destruct (round_trip [r2; r1] [r2; r1] self Hq Hn)
    as (h' & self' & rs & E & _ & Hv & Hl & Hd).
  exists h', self', rs. auto.
Defined.

(** ** The unit tests of the repository, run on the model *)

(** [test_parse_file_with_version_only] and [test_parse_empty_file]. *)
Example test_parse_version_only :
  parse_content [] MsgFilterParser_init
    (join nl [kv_line (lit "version") (lit "9");
              kv_line (lit "logging") (lit "no")])
  = Ok ([], mkParser (lit "9") (lit "no") [], [])
  /\ parse_content [] MsgFilterParser_init [] = Ok ([], MsgFilterParser_init, []).
Proof. split; vm_compute; reflexivity. Qed.

(** [test_parse_multiple_rules]. *)
Example test_parse_multiple_rules :
  let content :=
    join nl
      [ kv_line (lit "version") (lit "9");
        kv_line (lit "logging") (lit "no");
        kv_line (lit "name") (lit "First Rule");
        kv_line (lit "enabled") (lit "yes");
        kv_line (lit "type") (lit "17");
        kv_line (lit "action") (lit "Move to folder");
        kv_line (lit "actionValue") (lit "imap://user@host.com/Folder1");
        kv_line (lit "condition") (lit "AND (from,contains,test1@example.com)");
        kv_line (lit "name") (lit "Second Rule");
        kv_line (lit "enabled") (lit "no");
        kv_line (lit "type") (lit "17");
        kv_line (lit "action") (lit "Copy to folder");
        kv_line (lit "actionValue") (lit "imap://user@host.com/Folder2");
        kv_line (lit "condition") (lit "AND (subject,contains,Important)") ] in
  exists h self rs,
    parse_content [] MsgFilterParser_init content = Ok (h, self, rs)
    /\ doc_rules h self
       = [ mkRule (lit "First Rule") (lit "yes") (lit "17")
                  (lit "Move to folder") (lit "imap://user@host.com/Folder1")
                  (lit "AND (from,contains,test1@example.com)");
           mkRule (lit "Second Rule") (lit "no") (lit "17")
                  (lit "Copy to folder") (lit "imap://user@host.com/Folder2")
                  (lit "AND (subject,contains,Important)") ].
Proof.
  eexists _, _, _. split; [vm_compute; reflexivity|]. vm_compute. reflexivity.
Qed.

(** [test_rule_to_string]. *)
Example test_rule_to_string :
  to_string (mkRule (lit "Test Rule") (lit "yes") (lit "17")
                    (lit "Move to folder") (lit "imap://user@host.com/Folder")
                    (lit "AND (from,contains,test@example.com)"))
  = lit "name=" ++ dquote ++ lit "Test Rule" ++ dquote ++ nl
    ++ lit "enabled=" ++ dquote ++ lit "yes" ++ dquote ++ nl
    ++ lit "type=" ++ dquote ++ lit "17" ++ dquote ++ nl
    ++ lit "action=" ++ dquote ++ lit "Move to folder" ++ dquote ++ nl
    ++ lit "actionValue=" ++ dquote ++ lit "imap://user@host.com/Folder"
    ++ dquote ++ nl
    ++ lit "condition=" ++ dquote
    ++ lit "AND (from,contains,test@example.com)" ++ dquote.
Proof. vm_compute. reflexivity. Qed.

(** * Further properties of the parser *)

(** ** What [add_condition_to_rule] leaves alone *)

Lemma store_condition_fields (h : heap) (l l' : loc) (c : str) :
  let h1 := store h l (set_condition c (deref h l)) in
  name (deref h1 l') = name (deref h l')
  /\ enabled (deref h1 l') = enabled (deref h l')
  /\ type (deref h1 l') = type (deref h l')
  /\ action (deref h1 l') = action (deref h l')
  /\ action_value (deref h1 l') = action_value (deref h l')
  /\ (l' <> l -> deref h1 l' = deref h l').
Proof.
  cbv zeta. destruct (Nat.eq_dec l l') as [<-|Hne].
  - destruct (Nat.lt_ge_cases l (length h)) as [Hlt|Hge].
    + rewrite deref_store_eq by exact Hlt. repeat split; try reflexivity.
      congruence.
    + rewrite store_dangling by exact Hge. repeat split; reflexivity.
  - rewrite deref_store_ne by exact Hne. repeat split; reflexivity.
Qed.

(** X1. A call of [add_condition_to_rule] never changes the parser (rule
    sequence, version, logging), never changes the number of objects, never
    changes the name, enabled, type, action or action value of any rule,
    and changes no field at all of a rule other than the one
    [find_rule_by_name] returns for the name. *)
Theorem add_condition_frame (h h1 : heap) (self self1 : MsgFilterParser)
    (rn f v : str) (ok : bool) :
  add_condition_to_rule h self rn f v = (h1, self1, ok) ->
  self1 = self
  /\ length h1 = length h
  /\ (forall l,
        name (deref h1 l) = name (deref h l)
        /\ enabled (deref h1 l) = enabled (deref h l)
        /\ type (deref h1 l) = type (deref h l)
        /\ action (deref h1 l) = action (deref h l)
        /\ action_value (deref h1 l) = action_value (deref h l))
  /\ (forall l,
        find_rule_by_name h self rn <> Some l -> deref h1 l = deref h l)
  /\ (forall n, find_rule_by_name h1 self1 n = find_rule_by_name h self n).
Proof.
  intros E.
  destruct (find_rule_by_name h self rn) as [rule|] eqn:Hf.
  - rewrite (add_condition_found _ _ _ _ _ _ Hf) in E.
    assert (Hh : h1 = h \/ exists c,
                   h1 = store h rule (set_condition c (deref h rule))).
    { destruct (condition (deref h rule)); [|destruct (str_in _ _)];
        injection E as <- _ _; eauto. }
    assert (Hs : self1 = self) by (injection E as _ <- _; reflexivity).
    subst self1. split; [reflexivity|].
    destruct Hh as [->|[c ->]].
    + repeat split; auto.
    + split; [apply length_store|]. split; [|split].
      * intros l.
        destruct (store_condition_fields h rule l c) as (A & B & C & D & F & _).
        auto.
      * intros l Hl.
        apply (store_condition_fields h rule l c). congruence.
      * intros n. unfold find_rule_by_name. apply find_in_store_condition.
  - unfold add_condition_to_rule in E. rewrite Hf in E.
    injection E as <- <- _. repeat split; auto.
Qed.

Lemma add_condition_frame_witness :
  let r0 := mkRule (lit "A") (lit "no") (lit "3") (lit "Copy") (lit "F")
                   (lit "AND (to,contains,me)") in
  let r1 := mkRule (lit "W") (lit "yes") (lit "17") (lit "Move to folder")
                   (lit "G") [] in
  let self := mkParser (lit "9") (lit "no") [0%nat; 1%nat] in
  exists h1,
    add_condition_to_rule [r0; r1] self (lit "W") (lit "from") (lit "x")
    = (h1, self, true)
    /\ deref h1 0%nat = r0
    /\ name (deref h1 1%nat) = lit "W".
Proof.
  intros r0 r1 self.
  eexists. split; [reflexivity|].
  destruct (add_condition_frame [r0; r1] _ self self (lit "W") (lit "from")
              (lit "x") true eq_refl) as (_ & _ & Hn & Ho & _).
  split.
  - apply Ho. discriminate.
  - apply Hn.
Defined.

(** ** What [add_condition_to_rule] does to the condition *)

(** X2. A call of [add_condition_to_rule] that finds its rule (a live
    object) returns [True]; the condition of that rule afterwards starts
    with the whole condition it had before, so no earlier term and no
    leading operator such as [AND] is ever removed or rewritten; what is
    appended is nothing, or [OR ] and the term when the condition was
    empty, or [ OR ] and the term; and the term [(field,contains,value)] is
    then present in it. *)
Theorem add_condition_extends (h : heap) (self : MsgFilterParser)
    (rn f v : str) (rule : loc) :
  wf h self ->
  find_rule_by_name h self rn = Some rule ->
  exists h1 suffix,
    add_condition_to_rule h self rn f v = (h1, self, true)
    /\ condition (deref h1 rule) = condition (deref h rule) ++ suffix
    /\ (suffix = []
        \/ (condition (deref h rule) = [] /\ suffix = lit "OR " ++ term f v)
        \/ (condition (deref h rule) <> []
            /\ suffix = lit " OR " ++ term f v))
    /\ str_in (term f v) (condition (deref h1 rule)) = true.
Proof.
  intros Hwf Hf. pose proof (wf_found _ _ _ _ Hwf Hf) as Hlt.
  pose proof (add_condition_found h self rn f v rule Hf) as E.
  destruct (condition (deref h rule)) as [|c cs] eqn:Ec.
  - eexists _, (lit "OR " ++ term f v). split; [exact E|].
    rewrite deref_store_eq by exact Hlt. cbn [condition set_condition].
    split; [reflexivity|]. split; [auto|]. apply str_in_first_term.
  - destruct (str_in (term f v) (c :: cs)) eqn:Hin.
    + exists h, []. split; [exact E|]. rewrite Ec, app_nil_r.
      split; [reflexivity|]. split; [auto|]. exact Hin.
    + eexists _, (lit " OR " ++ term f v). split; [exact E|].
      rewrite deref_store_eq by exact Hlt. cbn [condition set_condition].
      split; [reflexivity|]. split.
      * right. right. split; [discriminate | reflexivity].
      * apply (str_in_next_term (c :: cs) f v).
Qed.

Lemma add_condition_extends_witness :
  let r := mkRule (lit "W") (lit "yes") (lit "17") (lit "Move to folder")
                  (lit "F") (lit "AND (to,contains,me)") in
  let self := mkParser [] [] [0%nat] in
  exists h1 suffix,
    add_condition_to_rule [r] self (lit "W") (lit "from") (lit "x")
    = (h1, self, true)
    /\ condition (deref h1 0%nat) = lit "AND (to,contains,me)" ++ suffix.
Proof.
  intros r self.
  assert (Hwf : wf [r] self) by (repeat constructor).
  destruct (add_condition_extends [r] self (lit "W") (lit "from") (lit "x")
              0%nat Hwf eq_refl) as (h1 & suffix & E & Hc & _).
  exists h1, suffix. split; [exact E | exact Hc].
Defined.

(** ** Creating a rule whose name is taken *)

Lemma find_in_alloc (h : heap) (r : MsgFilterRule) (rs : list loc) (n : str) :
  Forall (fun l => (l < length h)%nat) rs ->
  find_in (h ++ [r]) rs n = find_in h rs n.
Proof.
  induction 1 as [|l rs Hl _ IH]; simpl; [reflexivity|].
  rewrite deref_alloc_old by exact Hl. rewrite IH. reflexivity.
Qed.

Lemma find_in_app_found (h : heap) (rs extra : list loc) (n : str) (l : loc) :
  find_in h rs n = Some l -> find_in h (rs ++ extra) n = Some l.
Proof.
  induction rs as [|x rs IH]; simpl; [discriminate|].
  destruct (str_eqb (name (deref h x)) n); [auto | exact IH].
Qed.

(** What a call does to an object that is not the rule found. *)
Lemma add_condition_other (h h1 : heap) (self self1 : MsgFilterParser)
    (rn f v : str) (ok : bool) (rule l : loc) :
  find_rule_by_name h self rn = Some rule -> l <> rule ->
  add_condition_to_rule h self rn f v = (h1, self1, ok) ->
  deref h1 l = deref h l.
Proof.
  intros Hf Hl E. rewrite (add_condition_found _ _ _ _ _ _ Hf) in E.
  destruct (condition (deref h rule)); [|destruct (str_in _ _)];
    injection E as <- _ _; try reflexivity;
    apply deref_store_ne; congruence.
Qed.

(** X3. [create_new_rule] does not look for an existing rule of the same
    name: when one exists, the new rule is still appended, as a different
    object, but [find_rule_by_name] keeps returning the earlier rule, and a
    later [add_condition_to_rule] for that name edits the earlier rule and
    leaves the new one as it was created. *)
Theorem create_existing_name_shadowed (h : heap) (self : MsgFilterParser)
    (n f v av : str) (old : loc) :
  wf h self ->
  find_rule_by_name h self n = Some old ->
  exists h' self' new,
    create_new_rule h self n f v av = (h', self', new)
    /\ new <> old
    /\ rules self' = rules self ++ [new]
    /\ name (deref h' new) = n
    /\ find_rule_by_name h' self' n = Some old
    /\ (forall f2 v2 h2 self2 ok,
           add_condition_to_rule h' self' n f2 v2 = (h2, self2, ok) ->
           deref h2 new = deref h' new).
Proof.
  intros Hwf Hf. pose proof (wf_found _ _ _ _ Hwf Hf) as Hlt.
  eexists _, _, _. split; [reflexivity|].
  assert (Hne : length h <> old) by lia.
  assert (Hf' : find_rule_by_name
                  (h ++ [mkRule n (lit "yes") (lit "17") (lit "Move to folder")
                           av (lit "OR (" ++ f ++ lit ",contains," ++ v
                                 ++ lit ")")])
                  (set_rules (rules self ++ [length h]) self) n = Some old).
  { unfold find_rule_by_name. cbn [rules set_rules].
    apply find_in_app_found. rewrite find_in_alloc by exact Hwf. exact Hf. }
  split; [exact Hne|]. split; [reflexivity|].
  split; [rewrite deref_alloc_new; reflexivity|].
  split; [exact Hf'|].
  intros f2 v2 h2 self2 ok E.
  exact (add_condition_other _ _ _ _ _ _ _ _ _ _ Hf' Hne E).
Qed.

Lemma create_existing_name_shadowed_witness :
  let r := mkRule (lit "W") (lit "yes") (lit "17") (lit "Move to folder")
                  (lit "F") (lit "OR (from,contains,x)") in
  let self := mkParser [] [] [0%nat] in
  exists h' self' new,
    create_new_rule [r] self (lit "W") (lit "to") (lit "y") (lit "G")
    = (h', self', new)
    /\ new <> 0%nat
    /\ find_rule_by_name h' self' (lit "W") = Some 0%nat.
Proof.
  intros r self.
  assert (Hwf : wf [r] self) by (repeat constructor).
  destruct (create_existing_name_shadowed [r] self (lit "W") (lit "to")
              (lit "y") (lit "G") 0%nat Hwf eq_refl)
    as (h' & self' & new & E & Hne & _ & _ & Hf & _).
  exists h', self', new. auto.
Defined.

(** ** The objects [parse_content] makes *)

Lemma fresh_inv_dispatch (h0 : heap) (k v : str) (st : pstate) :
  fresh_inv h0 st -> fresh_inv h0 (dispatch k v st).
Proof.
  intros (news & Hh & Hr). destruct st as [h self cur rs].
  cbn [st_heap st_self current_rule st_rules] in *. subst h.
  unfold dispatch. cbn [st_heap st_self current_rule st_rules].
  destruct (str_eqb k (lit "version")); [exists news; auto|].
  destruct (str_eqb k (lit "logging")); [exists news; auto|].
  destruct (str_eqb k (lit "name")).
  { exists (news ++ [new_rule v]). unfold alloc.
    cbn [st_heap st_self current_rule st_rules append_current].
    split; [rewrite app_assoc; reflexivity|].
    rewrite Hr, !length_app. cbn [length].
    rewrite Nat.add_1_r, seq_S. reflexivity. }
  destruct cur as [l|]; [|exists news; auto].
  assert (Hl : (length h0 <= l)%nat).
  { cbn [append_current] in Hr.
    assert (In l (seq (length h0) (length news))) as Hin
      by (rewrite <- Hr; apply in_or_app; right; left; reflexivity).
    apply in_seq in Hin. lia. }
  assert (Hst : forall x, exists news',
             store (h0 ++ news) l x = h0 ++ news'
             /\ length news' = length news).
  { intros x. exists (<[(l - length h0)%nat := x]> news). split.
    - unfold store. apply insert_app_r_alt. exact Hl.
    - apply length_insert. }
  repeat match goal with
         | |- context [if ?b then _ else _] => destruct b
         end;
    try (exists news; cbn [st_heap current_rule st_rules]; auto; fail);
    match goal with
    | |- context [store (h0 ++ news) l ?x] =>
        destruct (Hst x) as (news' & -> & Hlen);
        exists news'; cbn [st_heap current_rule st_rules];
        rewrite Hlen; auto
    end.
Qed.

Lemma fresh_inv_lines (h0 : heap) (lines : list str) (st st' : pstate) :
  fresh_inv h0 st -> parse_lines lines st = Ok st' -> fresh_inv h0 st'.
Proof.
  revert st; induction lines as [|line rest IH]; intros st Hinv.
  - intros [= <-]. exact Hinv.
  - cbn [parse_lines]. rewrite parse_line_kv. cbn [bind].
    destruct (line_kv line) as [[k v]|]; [|apply IH; exact Hinv].
    apply IH. apply fresh_inv_dispatch. exact Hinv.
Qed.

Lemma deref_app_r (h news : heap) (i : nat) :
  deref (h ++ news) (length h + i)%nat = deref news i.
Proof.
  unfold deref. etransitivity; [apply lookup_total_app_r; lia|].
  f_equal. lia.
Qed.

(** X4. For every heap, parser and text, [parse_content] returns normally,
    leaves every object that existed before the call as it was (the new
    heap is the old one followed by the new rule objects), and the list it
    returns and stores in [self.rules] is the list of the references of the
    new objects in creation order: each parsed rule is a new object of its
    own, no two list positions share one, and the rules held by the parser
    before the call are not in the list any more. *)
Theorem parse_content_fresh_objects (h : heap) (self : MsgFilterParser)
    (content : str) :
  exists news self',
    parse_content h self content
    = Ok (h ++ news, self', seq (length h) (length news))
    /\ rules self' = seq (length h) (length news)
    /\ doc_rules (h ++ news) self' = news
    /\ NoDup (rules self')
    /\ (forall l, (l < length h)%nat -> deref (h ++ news) l = deref h l).
Proof.
  rewrite parse_content_unfold.
  destruct (parse_lines_total (content_lines content) (loop_init h self))
    as [st E].
  assert (Hinv : fresh_inv h (loop_init h self)).
  { exists []. cbn. rewrite app_nil_r. auto. }
  destruct (fresh_inv_lines h _ _ _ Hinv E) as (news & Hh & Hr).
  rewrite E. cbn [bind]. rewrite Hh, Hr.
  exists news, (set_rules (seq (length h) (length news)) (st_self st)).
  split; [reflexivity|]. split; [reflexivity|]. split; [|split].
  - unfold doc_rules. cbn [rules set_rules].
    apply list_eq. intros i. rewrite list_lookup_fmap.
    destruct (Nat.lt_ge_cases i (length news)) as [Hi|Hi].
    + rewrite lookup_seq_lt by exact Hi. cbn [fmap option_fmap option_map].
      rewrite deref_app_r.
      symmetry. apply list_lookup_lookup_total_lt. exact Hi.
    + rewrite lookup_seq_ge by exact Hi. rewrite lookup_ge_None_2 by exact Hi.
      reflexivity.
  - cbn [rules set_rules]. apply NoDup_ListNoDup, seq_NoDup.
  - intros l Hl. apply lookup_total_app_l. exact Hl.
Qed.

Lemma parse_content_fresh_objects_witness :
  let old := mkRule (lit "Old") (lit "yes") (lit "17") (lit "Move to folder")
                    (lit "F") (lit "OR (from,contains,x)") in
  let self := mkParser (lit "9") (lit "no") [0%nat] in
  exists news self',
    parse_content [old] self (lit "name=A" ++ nl ++ lit "name=B")
    = Ok ([old] ++ news, self', [1%nat; 2%nat])
    /\ deref ([old] ++ news) 0%nat = old.
Proof.
  intros old self.
  destruct (parse_content_fresh_objects [old] self
              (lit "name=A" ++ nl ++ lit "name=B"))
    as (news & self' & E & _ & _ & _ & Hold).
  exists news, self'. split.
  - assert (Hn : length news = 2%nat).
    { pose proof E as E'. vm_compute in E'.
      destruct news as [|a [|b [|c news]]]; try discriminate E'.
      reflexivity. }
    rewrite E, Hn. reflexivity.
  - apply Hold. cbn. lia.
Defined.

(** ** The scalars and the rule names [parse_content] reads *)

Lemma spec_scalar_absent (key init : str) (kvs : list (str * str)) :
  Forall (fun kv => fst kv <> key) kvs -> spec_scalar key init kvs = init.
Proof.
  intros H. revert init. induction H as [|kv kvs Hk _ IH]; intros init;
    [reflexivity|].
  rewrite spec_scalar_cons. apply str_eqb_neq in Hk. rewrite Hk. apply IH.
Qed.

Lemma spec_scalar_last (key init v : str) (pre post : list (str * str)) :
  Forall (fun kv => fst kv <> key) post ->
  spec_scalar key init (pre ++ (key, v) :: post) = v.
Proof.
  intros H. unfold spec_scalar. rewrite fold_left_app. cbn [fold_left fst snd].
  rewrite str_eqb_refl. apply (spec_scalar_absent key v post H).
Qed.

(** X5. [parse_content] sets [self.version] (and likewise [self.logging])
    to the value of the last line with the key [version], wherever that
    line stands in the text; when the text has no such line the attribute
    keeps the value it had before the call, it is not reset, although
    [self.rules] is replaced. *)
Theorem parse_content_scalars (h : heap) (self : MsgFilterParser)
    (content : str) :
  exists h' self' rs,
    parse_content h self content = Ok (h', self', rs)
    /\ (Forall (fun kv => fst kv <> lit "version") (content_kvs content) ->
        version self' = version self)
    /\ (forall pre v post,
           content_kvs content = pre ++ (lit "version", v) :: post ->
           Forall (fun kv => fst kv <> lit "version") post ->
           version self' = v)
    /\ (Forall (fun kv => fst kv <> lit "logging") (content_kvs content) ->
        logging self' = logging self)
    /\ (forall pre v post,
           content_kvs content = pre ++ (lit "logging", v) :: post ->
           Forall (fun kv => fst kv <> lit "logging") post ->
           logging self' = v).
Proof.
  destruct (parse_content_refines h self content)
    as (h' & self' & rs & E & _ & _ & Hv & Hl & _).
  exists h', self', rs. split; [exact E|].
  rewrite Hv, Hl. repeat split.
  - apply spec_scalar_absent.
  - intros pre v post -> Hp. apply spec_scalar_last. exact Hp.
  - apply spec_scalar_absent.
  - intros pre v post -> Hp. apply spec_scalar_last. exact Hp.
Qed.

Lemma parse_content_scalars_witness :
  let old := mkParser (lit "8") (lit "yes") [5%nat] in
  let content :=
    lit "version=7" ++ nl ++ lit "name=A" ++ nl ++ lit "version=9" in
  exists h' self' rs,
    parse_content [] old content = Ok (h', self', rs)
    /\ version self' = lit "9" /\ logging self' = lit "yes".
Proof.
  intros old content.
  destruct (parse_content_scalars [] old content)
    as (h' & self' & rs & E & _ & Hv & Hl & _).
  exists h', self', rs. split; [exact E|]. split.
  - apply (Hv [(lit "version", lit "7"); (lit "name", lit "A")]
              (lit "9") []); [reflexivity | constructor].
  - apply Hl. vm_compute. repeat constructor; discriminate.
Defined.

Lemma name_spec_set_field (k v : str) (r : MsgFilterRule) :
  name (spec_set_field k v r) = name r.
Proof.
  unfold spec_set_field.
  repeat match goal with
         | |- context [if ?b then _ else _] => destruct b
         end; reflexivity.
Qed.

Lemma spec_records_names (kvs : list (str * str))
    (open : option MsgFilterRule) :
  map name (spec_records kvs open)
  = map name (opt_list open)
    ++ map snd (List.filter (fun kv => str_eqb (fst kv) (lit "name")) kvs).
Proof.
  revert open; induction kvs as [|[k v] kvs IH]; intros open.
  - cbn. rewrite app_nil_r. reflexivity.
  - cbn [spec_records List.filter fst snd].
    destruct (str_eqb k (lit "name")) eqn:En.
    + rewrite map_app, IH. cbn [opt_list map name app].
      reflexivity.
    + destruct (str_eqb k (lit "version") || str_eqb k (lit "logging"));
        rewrite IH; [reflexivity|].
      destruct open as [r|]; cbn [option_map opt_list map];
        rewrite ?name_spec_set_field; reflexivity.
Qed.

(** X6. The rules [parse_content] returns are, in order, one per line
    whose key is [name], each named by the value of its line: the number of
    rules is the number of such lines, whatever else the text holds. *)
Theorem parse_content_rule_names (h : heap) (self : MsgFilterParser)
    (content : str) :
  exists h' self' rs,
    parse_content h self content = Ok (h', self', rs)
    /\ map name (doc_rules h' self')
       = map snd (List.filter (fun kv => str_eqb (fst kv) (lit "name"))
                              (content_kvs content))
    /\ length rs
       = length (List.filter (fun kv => str_eqb (fst kv) (lit "name"))
                             (content_kvs content)).
Proof.
  destruct (parse_content_refines h self content)
    as (h' & self' & rs & E & Hr & Hd & _).
  exists h', self', rs. split; [exact E|].
  assert (Hn : map name (doc_rules h' self')
               = map snd (List.filter
                            (fun kv => str_eqb (fst kv) (lit "name"))
                            (content_kvs content))).
  { rewrite Hd, spec_records_names. reflexivity. }
  split; [exact Hn|].
  apply (f_equal (@length _)) in Hn. rewrite !length_map in Hn.
  unfold doc_rules in Hn. rewrite length_map, Hr in Hn. exact Hn.
Qed.

(** ** Round trip of values with inner double quotes *)

Lemma no_edge_quote_nil : no_edge_quote [].
Proof. split; intros t E; [discriminate | destruct t; discriminate]. Qed.

Lemma strip_chars_quoted_edges (v : str) :
  no_edge_quote v -> strip_chars dquote (34 :: v ++ [34]) = v.
Proof.
  intros [Hfirst Hlast]. unfold strip_chars, strip_by, lstrip_by.
  assert (Hq : char_in dquote 34 = true) by reflexivity.
  cbn [drop_while]. rewrite Hq.
  destruct v as [|c v'].
  - cbn [app drop_while]. rewrite Hq. reflexivity.
  - assert (Hc : char_in dquote c = false).
    { destruct (char_in dquote c) eqn:E; [|reflexivity].
      apply char_in_dquote in E. subst c. destruct (Hfirst v' eq_refl). }
    cbn [app]. rewrite drop_while_keep by exact Hc.
    change (c :: v' ++ [34]) with ((c :: v') ++ [34]).
    rewrite rstrip_by_drop by exact Hq.
    apply rstrip_by_nonlast. intros t b E.
    destruct (char_in dquote b) eqn:Eb; [|reflexivity].
    apply char_in_dquote in Eb. subst b. destruct (Hlast t E).
Qed.

Lemma line_kv_written_edges (k v : str) :
  plain_key k -> no_edge_quote v ->
  line_kv (k ++ [61; 34] ++ v ++ [34]) = Some (k, v).
Proof.
  intros (Hk61 & _ & Hks & a & m & -> & Ha) Hv.
  unfold line_kv.
  assert (Es : strip ((a :: m) ++ [61; 34] ++ v ++ [34])
               = (a :: m) ++ [61; 34] ++ v ++ [34]).
  { change ((a :: m) ++ [61; 34] ++ v ++ [34])
      with (a :: (m ++ [61; 34] ++ v ++ [34])).
    replace (m ++ [61; 34] ++ v ++ [34]) with ((m ++ [61; 34] ++ v) ++ [34])
      by (rewrite <- !app_assoc; reflexivity).
    apply strip_by_keep; [exact Ha | reflexivity]. }
  rewrite Es.
  assert (Hin : str_in (lit "=") ((a :: m) ++ [61; 34] ++ v ++ [34]) = true).
  { change (lit "=") with [61]. apply str_in_char.
    apply in_or_app. right. left. reflexivity. }
  rewrite Hin. cbn [truthy app andb].
  change (a :: m ++ 61 :: 34 :: v ++ [34])
    with ((a :: m) ++ 61 :: (34 :: v ++ [34])).
  unfold key_value, split_max1.
  rewrite partition_at_cut by exact Hk61. cbn [unpack2 bind fst snd].
  rewrite Hks, strip_quoted, strip_chars_quoted_edges by exact Hv.
  reflexivity.
Qed.

Lemma omap_rules_lines_edges (rs : list MsgFilterRule) :
  Forall no_edge_quote (flat_map rule_fields rs) ->
  omap line_kv (flat_map spec_rule_lines rs) = flat_map six_kvs rs.
Proof.
  destruct known_key_cases as (_ & _ & K1 & K2 & K3 & K4 & K5 & K6).
  induction rs as [|r rs IH]; [reflexivity|].
  change (flat_map rule_fields (r :: rs))
    with (rule_fields r ++ flat_map rule_fields rs).
  change (flat_map spec_rule_lines (r :: rs))
    with (spec_rule_lines r ++ flat_map spec_rule_lines rs).
  change (flat_map six_kvs (r :: rs)) with (six_kvs r ++ flat_map six_kvs rs).
  intros H. apply Forall_app in H as [Hr Hrs].
  apply Forall_fields in Hr as (H1 & H2 & H3 & H4 & H5 & H6).
  rewrite omap_app, IH by exact Hrs. f_equal.
  unfold spec_rule_lines, spec_line. rewrite !omap_line_kv_cons.
  rewrite !line_kv_written_edges by (try apply plain_key_lit; assumption).
  reflexivity.
Qed.

Lemma omap_doc_lines_edges (ver lg : str) (rs : list MsgFilterRule) :
  Forall no_edge_quote (ver :: lg :: flat_map rule_fields rs) ->
  omap line_kv (spec_doc_lines ver lg rs) = doc_kvs ver lg rs.
Proof.
  intros H. inversion H as [|? ? Hv H']; subst.
  inversion H' as [|? ? Hl Hrs]; subst.
  destruct known_key_cases as (Kv & Kl & _).
  unfold spec_doc_lines, doc_kvs.
  rewrite !omap_app, omap_rules_lines_edges by exact Hrs.
  f_equal; [|f_equal].
  - destruct (truthy ver); [|reflexivity]. unfold spec_line.
    rewrite omap_line_kv_cons, line_kv_written_edges
      by (try apply plain_key_lit; assumption).
    reflexivity.
  - destruct (truthy lg); [|reflexivity]. unfold spec_line.
    rewrite omap_line_kv_cons, line_kv_written_edges
      by (try apply plain_key_lit; assumption).
    reflexivity.
Qed.

Lemma Forall_clean_split (l : list str) :
  Forall clean_value l -> Forall no_newline l /\ Forall no_edge_quote l.
Proof.
  induction 1 as [|s l [Hn He] _ [IHn IHe]]; split; constructor; assumption.
Qed.

Lemma content_kvs_serialize_clean (ver lg : str) (rs : list MsgFilterRule) :
  Forall clean_value (ver :: lg :: flat_map rule_fields rs) ->
  content_kvs (spec_serialize ver lg rs) = doc_kvs ver lg rs.
Proof.
  intros H. apply Forall_clean_split in H as [Hn Hq].
  rewrite <- (omap_doc_lines_edges ver lg rs Hq).
  unfold content_kvs, spec_serialize.
  destruct (spec_doc_lines ver lg rs) as [|l ls] eqn:E; [reflexivity|].
  rewrite <- E. rewrite content_lines_unlines; [reflexivity| | |].
  - rewrite E. discriminate.
  - apply (spec_doc_lines_Forall good_line (fun _ => True)).
    + intros k v Hk _. apply spec_line_good. exact Hk.
    + apply Forall_forall. auto.
  - apply (spec_doc_lines_Forall (fun l => ~ In 10 l) no_newline);
      [|exact Hn].
    intros k v Hk Hv. apply spec_line_no_newline; assumption.
Qed.

(** What a parse of a written document gives, whatever parser reads it. *)
Lemma parse_written_clean (h h0 : heap) (self p0 : MsgFilterParser) :
  Forall clean_value (doc_values h self) ->
  exists h' self' rs,
    parse_content h0 p0 (write_file h self None) = Ok (h', self', rs)
    /\ rules self' = rs /\ wf h' self'
    /\ version self'
       = (if truthy (version self) then version self else version p0)
    /\ logging self'
       = (if truthy (logging self) then logging self else logging p0)
    /\ doc_rules h' self' = doc_rules h self.
Proof.
  intros Hc. unfold doc_values in Hc.
  destruct (parse_content_refines h0 p0 (write_file h self None))
    as (h' & self' & rs & E & Hr & Hd & Hv & Hl & Hwf).
  rewrite write_file_spec in Hd, Hv, Hl.
  change (map (deref h) (rules self)) with (doc_rules h self) in Hd, Hv, Hl.
  rewrite content_kvs_serialize_clean in Hd, Hv, Hl by assumption.
  rewrite spec_records_doc in Hd.
  exists h', self', rs. repeat split; try assumption.
  - rewrite Hv. unfold doc_kvs.
    destruct (truthy (version self)), (truthy (logging self));
      cbn [app]; rewrite ?spec_scalar_cons; cbn [fst snd]; eval_keys;
      apply spec_scalar_rules; auto.
  - rewrite Hl. unfold doc_kvs.
    destruct (truthy (version self)), (truthy (logging self));
      cbn [app]; rewrite ?spec_scalar_cons; cbn [fst snd]; eval_keys;
      apply spec_scalar_rules; auto.
Qed.

Lemma truthy_or_nil (s : str) : (if truthy s then s else []) = s.
Proof. destruct s; reflexivity. Qed.

(** X7. Round trip with inner quotes: for every document whose values
    hold no newline and neither start nor end with a double quote (double
    quotes inside a value are allowed), parsing with a new parser the text
    [write_file] writes gives back the version, the logging value and every
    rule with its six fields, in order. *)
Theorem round_trip_inner_quotes (h h0 : heap) (self : MsgFilterParser) :
  Forall clean_value (doc_values h self) ->
  exists h' self' rs,
    parse_content h0 MsgFilterParser_init (write_file h self None)
    = Ok (h', self', rs)
    /\ rules self' = rs
    /\ version self' = version self
    /\ logging self' = logging self
    /\ doc_rules h' self' = doc_rules h self.
Proof.
  intros Hc.
  destruct (parse_written_clean h h0 self MsgFilterParser_init Hc)
    as (h' & self' & rs & E & Hr & _ & Hv & Hl & Hd).
  change (version MsgFilterParser_init) with (@nil N) in Hv.
  change (logging MsgFilterParser_init) with (@nil N) in Hl.
  rewrite truthy_or_nil in Hv, Hl.
  exists h', self', rs. auto.
Qed.

Lemma clean_valueb_sound (s : str) : clean_valueb s = true -> clean_value s.
Proof.
  unfold clean_valueb, edge_quoteb. intros H.
  apply andb_true_iff in H as [Hn He].
  apply negb_true_iff in Hn. apply negb_true_iff, orb_false_iff in He.
  destruct He as [Hf Hl]. split; [|split].
  - intros Hin. assert (existsb (N.eqb 10) s = true) as Hex.
    { apply existsb_exists. exists 10. split; [exact Hin | reflexivity]. }
    congruence.
  - intros t ->. discriminate.
  - intros t ->. rewrite rev_app_distr in Hl. discriminate.
Qed.

Lemma clean_valueb_Forall (l : list str) :
  forallb clean_valueb l = true -> Forall clean_value l.
Proof.
  induction l as [|s l IH]; simpl; intros H; constructor.
  - apply clean_valueb_sound. apply andb_true_iff in H as [H _]. exact H.
  - apply IH. apply andb_true_iff in H as [_ H]. exact H.
Qed.

Lemma round_trip_inner_quotes_witness :
  let r := mkRule (lit "Say") (lit "yes") (lit "17") (lit "Move to folder")
                  (lit "imap://u@h/F")
                  (lit "OR (subject,contains,say " ++ dquote ++ lit "hi"
                     ++ dquote ++ lit " now)") in
  let self := mkParser (lit "9") [] [0%nat] in
  exists h' self' rs,
    parse_content [r] MsgFilterParser_init (write_file [r] self None)
    = Ok (h', self', rs)
    /\ version self' = lit "9" /\ logging self' = []
    /\ doc_rules h' self' = [r].
Proof.
  intros r self.
  assert (Hc : Forall clean_value (doc_values [r] self))
    by (apply clean_valueb_Forall; vm_compute; reflexivity).
  destruct (round_trip_inner_quotes [r] [r] self Hc)
    as (h' & self' & rs & E & _ & Hv & Hl & Hd).
  exists h', self', rs. auto.
Defined.

(** ** The values [parse_content] reads *)

Lemma split_aux_no_sep (c : char) (s : str) :
  ~ In c (fst (split_aux c s))
  /\ Forall (fun w => ~ In c w) (snd (split_aux c s)).
Proof.
  induction s as [|x s [Hw Hws]]; simpl; [split; [tauto | constructor]|].
  destruct (split_aux c s) as [w ws]. cbn [fst snd] in *.
  destruct (N.eqb_spec x c) as [->|Hne]; cbn [fst snd].
  - split; [tauto | constructor; assumption].
  - split; [|exact Hws]. simpl. tauto.
Qed.

Lemma split_no_sep (c : char) (s : str) :
  Forall (fun w => ~ In c w) (split c s).
Proof.
  pose proof (split_aux_no_sep c s) as [Hw Hws].
  unfold split. destruct (split_aux c s). constructor; assumption.
Qed.

Lemma strip_by_In (p : char -> bool) (s : str) (x : char) :
  In x (strip_by p s) -> In x s.
Proof.
  destruct (strip_by_spec p s) as (a & b & E & _).
  intros H. rewrite E. apply in_or_app. right. apply in_or_app. left. exact H.
Qed.

(** The value of a line is a piece of the line and has no double quote at
    either end. *)
Lemma line_kv_value (line k v : str) :
  line_kv line = Some (k, v) ->
  (forall x, In x v -> In x line) /\ no_edge_quote v.
Proof.
  unfold line_kv.
  destruct (truthy (strip line)); [|discriminate]. cbn [andb].
  destruct (str_in (lit "=") (strip line)) eqn:Hin; [|discriminate].
  destruct (key_value_ok _ Hin) as (w & r & E & _ & ->).
  intros [= <- <-]. split.
  - intros x Hx. apply strip_by_In, strip_by_In in Hx.
    apply (strip_by_In isspace). fold (strip line). rewrite E.
    apply in_or_app. right. right. exact Hx.
  - destruct (strip_by_spec (char_in dquote) (strip r))
      as (_ & _ & _ & _ & _ & H1 & H2).
    fold (strip_chars dquote (strip r)) in H1, H2.
    split; intros t Ht.
    + specialize (H1 _ _ Ht). discriminate.
    + specialize (H2 _ _ Ht). discriminate.
Qed.

Lemma content_kvs_clean (content : str) :
  Forall (fun kv => clean_value (snd kv)) (content_kvs content).
Proof.
  unfold content_kvs, content_lines.
  pose proof (split_no_sep 10 (strip content)) as H.
  induction H as [|line lines Hl _ IH]; [constructor|].
  rewrite omap_line_kv_cons.
  destruct (line_kv line) as [[k v]|] eqn:E; [|exact IH].
  constructor; [|exact IH]. cbn [snd].
  destruct (line_kv_value _ _ _ E) as [Hin Hq].
  split; [|exact Hq]. intros H10. apply Hl, Hin, H10.
Qed.

Lemma clean_new_rule (v : str) :
  clean_value v ->
  clean_rule (mkRule v (lit "yes") (lit "17") (lit "Move to folder") [] []).
Proof.
  intros Hv. unfold clean_rule, rule_fields. cbn [name enabled type action
    action_value condition].
  constructor; [exact Hv|].
  apply clean_valueb_Forall. reflexivity.
Qed.

Lemma clean_spec_set_field (k v : str) (r : MsgFilterRule) :
  clean_value v -> clean_rule r -> clean_rule (spec_set_field k v r).
Proof.
  intros Hv Hr. pose proof Hr as Hr'.
  apply Forall_fields in Hr' as (H1 & H2 & H3 & H4 & H5 & H6).
  unfold spec_set_field.
  repeat match goal with
         | |- context [if ?b then _ else _] => destruct b
         end; try exact Hr;
    unfold clean_rule, rule_fields, set_enabled, set_type, set_action,
      set_action_value, set_condition;
    cbn [name enabled type action action_value condition];
    repeat (constructor; [assumption|]); constructor.
Qed.

Lemma spec_records_clean (kvs : list (str * str))
    (open : option MsgFilterRule) :
  Forall (fun kv => clean_value (snd kv)) kvs ->
  Forall clean_rule (opt_list open) ->
  Forall clean_rule (spec_records kvs open).
Proof.
  intros H. revert open. induction H as [|[k v] kvs Hv _ IH]; intros open Ho.
  - exact Ho.
  - cbn [spec_records]. cbn [snd] in Hv.
    destruct (str_eqb k (lit "name")).
    + apply Forall_app. split; [exact Ho|]. apply IH. cbn [opt_list].
      constructor; [apply clean_new_rule; exact Hv | constructor].
    + destruct (str_eqb k (lit "version") || str_eqb k (lit "logging"));
        apply IH; [exact Ho|].
      destruct open as [r|]; [|constructor].
      inversion Ho; subst. cbn [option_map opt_list].
      constructor; [apply clean_spec_set_field; assumption | constructor].
Qed.

Lemma spec_scalar_clean (key init : str) (kvs : list (str * str)) :
  clean_value init ->
  Forall (fun kv => clean_value (snd kv)) kvs ->
  clean_value (spec_scalar key init kvs).
Proof.
  intros Hi H. revert init Hi. induction H as [|kv kvs Hv _ IH];
    intros init Hi; [exact Hi|].
  rewrite spec_scalar_cons. apply IH.
  destruct (str_eqb (fst kv) key); assumption.
Qed.

Lemma parse_content_clean (h : heap) (self : MsgFilterParser) (content : str) :
  clean_value (version self) -> clean_value (logging self) ->
  exists h' self' rs,
    parse_content h self content = Ok (h', self', rs)
    /\ rules self' = rs /\ wf h' self'
    /\ Forall clean_value (doc_values h' self').
Proof.
  intros Hv Hl.
  destruct (parse_content_refines h self content)
    as (h' & self' & rs & E & Hr & Hd & Ev & El & Hwf).
  exists h', self', rs. split; [exact E|]. split; [exact Hr|].
  split; [exact Hwf|].
  pose proof (content_kvs_clean content) as Hk.
  unfold doc_values. rewrite Ev, El, Hd.
  constructor; [apply spec_scalar_clean; assumption|].
  constructor; [apply spec_scalar_clean; assumption|].
  apply Forall_flat_map.
  apply (spec_records_clean _ None Hk). constructor.
Qed.



(** X9. Writing what was parsed is stable: for every text, the document
    parsed from it by a new parser is written to a text that a new parser
    reads back as the same document, and that is written again as the same
    text. *)
Theorem reparse_stable (h0 : heap) (content : str) :
  exists h1 p1 rs1,
    parse_content h0 MsgFilterParser_init content = Ok (h1, p1, rs1)
    /\ forall h2,
         exists h3 p3 rs3,
           parse_content h2 MsgFilterParser_init (write_file h1 p1 None)
           = Ok (h3, p3, rs3)
           /\ version p3 = version p1 /\ logging p3 = logging p1
           /\ doc_rules h3 p3 = doc_rules h1 p1
           /\ write_file h3 p3 None = write_file h1 p1 None.
Proof.
  destruct (parse_content_clean h0 MsgFilterParser_init content)
    as (h1 & p1 & rs1 & E & _ & _ & Hc);
    try (apply clean_valueb_sound; reflexivity).
  exists h1, p1, rs1. split; [exact E|]. intros h2.
  destruct (parse_written_clean h1 h2 p1 MsgFilterParser_init Hc)
    as (h3 & p3 & rs3 & E3 & _ & _ & Hv & Hl & Hd).
  change (version MsgFilterParser_init) with (@nil N) in Hv.
  change (logging MsgFilterParser_init) with (@nil N) in Hl.
  rewrite truthy_or_nil in Hv, Hl.
  exists h3, p3, rs3. repeat split; try assumption.
  rewrite !write_file_spec. fold (doc_rules h3 p3). fold (doc_rules h1 p1).
  rewrite Hv, Hl, Hd. reflexivity.
Qed.

(** * Properties of the application *)

(** ** Running programs *)

Lemma run_pbind {A B : Type} (o : oracle) (m : prog A) (f : A -> prog B) :
  run o (pbind m f)
  = (fst (run o m) ++ fst (run o (f (snd (run o m)))),
     snd (run o (f (snd (run o m))))).
Proof.
  induction m as [a|path k IH|k IH|src dst k IH|path k IH|path text k IH];
    cbn [pbind run].
  - cbn [fst snd app]. destruct (run o (f a)); reflexivity.
  - rewrite IH. destruct (run o (k _)); reflexivity.
  - rewrite IH. destruct (run o (k _)); reflexivity.
  - rewrite IH. destruct (run o (k _)); reflexivity.
  - rewrite IH. destruct (run o (k _)); reflexivity.
  - rewrite IH. destruct (run o (k _)); reflexivity.
Qed.

(** ** The backup path *)

Lemma take_while_all (p : char -> bool) (a b : str) :
  forallb p a = true ->
  match b with
  | [] => True
  | c :: _ => p c = false
  end ->
  take_while p (a ++ b) = a.
Proof.
  intros Ha Hb. induction a as [|x a IH]; cbn [app take_while].
  - destruct b as [|c b]; [reflexivity|]. cbn [take_while]. rewrite Hb.
    reflexivity.
  - cbn [forallb] in Ha. apply andb_true_iff in Ha as [-> Ha].
    rewrite IH by exact Ha. reflexivity.
Qed.

Lemma drop_while_all_app (p : char -> bool) (a b : str) :
  forallb p a = true ->
  match b with
  | [] => True
  | c :: _ => p c = false
  end ->
  drop_while p (a ++ b) = b.
Proof.
  intros Ha Hb. induction a as [|x a IH]; cbn [app drop_while].
  - destruct b as [|c b]; [reflexivity|]. cbn [drop_while]. rewrite Hb.
    reflexivity.
  - cbn [forallb] in Ha. apply andb_true_iff in Ha as [-> Ha].
    apply IH. exact Ha.
Qed.

Lemma take_while_forallb (p : char -> bool) (s : str) :
  forallb p (take_while p s) = true.
Proof.
  induction s as [|c s IH]; [reflexivity|]. cbn [take_while].
  destruct (p c) eqn:E; [|reflexivity]. cbn [forallb]. rewrite E, IH.
  reflexivity.
Qed.

Lemma basename_no_sep (p : str) : forallb not_sep (basename p) = true.
Proof.
  unfold basename, path_tail. rewrite forallb_rev. apply take_while_forallb.
Qed.

(** A name with no separator, put after a directory part that is empty or
    ends with the separator. *)
Lemma path_tail_app (x f : str) :
  forallb not_sep f = true ->
  match rev x with
  | [] => True
  | c :: _ => c = 47
  end ->
  path_tail (x ++ f) = f /\ path_head (x ++ f) = x.
Proof.
  intros Hf Hx. unfold path_tail, path_head. rewrite rev_app_distr.
  assert (Hrf : forallb not_sep (rev f) = true)
    by (rewrite forallb_rev; exact Hf).
  assert (Hrx : match rev x with
                | [] => True
                | c :: _ => not_sep c = false
                end).
  { destruct (rev x) as [|c t]; [exact I|]. subst c. reflexivity. }
  rewrite take_while_all, drop_while_all_app by assumption.
  rewrite !rev_involutive. auto.
Qed.

Lemma rstrip_by_last (p : char -> bool) (s t : str) (c : char) :
  rstrip_by p s = t ++ [c] -> p c = false.
Proof.
  unfold rstrip_by. intros E.
  destruct (drop_while_spec p (rev s)) as (_ & _ & _ & Hd).
  apply (f_equal (@rev _)) in E. rewrite rev_involutive, rev_app_distr in E.
  cbn [rev app] in E. rewrite E in Hd. exact Hd.
Qed.

(** [dirname] gives a run of separators, or a path that does not end with
    the separator. *)
Lemma dirname_shape (p : str) :
  forallb (N.eqb 47) (dirname p) = true
  \/ exists t c, dirname p = t ++ [c] /\ c <> 47.
Proof.
  unfold dirname.
  destruct (truthy (path_head p) && negb (forallb (N.eqb 47) (path_head p)))
    eqn:E.
  - destruct (rstrip_by (char_in (lit "/")) (path_head p)) as [|a s] eqn:Er;
      [left; reflexivity|].
    destruct (@exists_last _ (a :: s) ltac:(discriminate)) as (t & c & Et).
    right. exists t, c. split; [exact Et|].
    rewrite Et in Er. apply rstrip_by_last in Er.
    intros ->. discriminate.
  - apply andb_false_iff in E as [E|E].
    + destruct (path_head p); [left; reflexivity | discriminate].
    + apply negb_false_iff in E. left. exact E.
Qed.

Lemma forallb_sep_last (t : str) (c : char) :
  forallb (N.eqb 47) (t ++ [c]) = true -> c = 47.
Proof.
  rewrite forallb_app. cbn [forallb]. intros H.
  apply andb_true_iff in H as [_ H]. apply andb_true_iff in H as [H _].
  apply N.eqb_eq in H. auto.
Qed.

Lemma dirname_of_head (x f : str) :
  forallb not_sep f = true ->
  match rev x with
  | [] => True
  | c :: _ => c = 47
  end ->
  dirname (x ++ f)
  = if truthy x && negb (forallb (N.eqb 47) x)
    then rstrip_by (char_in (lit "/")) x else x.
Proof.
  intros Hf Hx. unfold dirname.
  destruct (path_tail_app x f Hf Hx) as [_ ->]. reflexivity.
Qed.

(** X10. [create_backup_path] reads the clock once and returns a path in
    the same directory as the file ([dirname] of both is the same) whose
    last component is the file's followed by [.backup_] and the timestamp;
    this path is never the file's own, so the copy of the backup cannot
    have the file as its target. The timestamp holds no separator, as the
    format [%Y%m%d_%H%M%S] ensures. *)
Theorem create_backup_path_same_directory (o : oracle) (file_path : str) :
  ~ In 47 (o_now o) ->
  fst (run o (create_backup_path file_path)) = [EvNow (o_now o)]
  /\ dirname (snd (run o (create_backup_path file_path))) = dirname file_path
  /\ basename (snd (run o (create_backup_path file_path)))
     = basename file_path ++ lit ".backup_" ++ o_now o
  /\ snd (run o (create_backup_path file_path)) <> file_path.
Proof.
  intros Hts. cbn [create_backup_path run fst snd].
  set (d := dirname file_path). set (b := basename file_path).
  set (f := b ++ lit ".backup_" ++ o_now o).
  assert (Hf : forallb not_sep f = true).
  { unfold f, b. rewrite !forallb_app.
    apply andb_true_iff. split; [apply basename_no_sep|].
    apply andb_true_iff. split; [reflexivity|].
    apply forallb_forall. intros c Hc. unfold not_sep.
    apply negb_true_iff, N.eqb_neq. intros ->. contradiction. }
  assert (Hstart : startswith (lit "/") f = false).
  { destruct f as [|c f'] eqn:Ef; [reflexivity|].
    cbn [forallb] in Hf. apply andb_true_iff in Hf as [Hc _].
    unfold not_sep in Hc. apply negb_true_iff in Hc.
    change (lit "/") with [47]. cbn [startswith].
    rewrite N.eqb_sym, Hc. reflexivity. }
  assert (Hjoin : exists x,
             path_join d f = x ++ f
             /\ match rev x with
                | [] => True
                | c :: _ => c = 47
                end
             /\ (if truthy x && negb (forallb (N.eqb 47) x)
                 then rstrip_by (char_in (lit "/")) x else x) = d).
  { unfold path_join. rewrite Hstart.
    destruct d as [|a d'] eqn:Ed.
    - exists []. cbn. auto.
    - destruct (endswith (a :: d') (lit "/")) eqn:Ee.
      + exists (a :: d'). cbn [truthy negb orb]. split; [reflexivity|].
        unfold endswith in Ee. change (rev (lit "/")) with [47] in Ee.
        destruct (rev (a :: d')) as [|c t] eqn:Er.
        { apply (f_equal (@rev _)) in Er. rewrite rev_involutive in Er.
          discriminate. }
        cbn [startswith] in Ee. apply andb_true_iff in Ee as [Ec _].
        apply N.eqb_eq in Ec. subst c. split; [reflexivity|].
        (* a directory part ending with the separator is all separators *)
        destruct (dirname_shape file_path) as [Hall|(t' & c & Et & Hc)];
          fold d in Hall || fold d in Et; rewrite Ed in *.
        * rewrite Hall. reflexivity.
        * exfalso. apply (f_equal (@rev _)) in Et.
          rewrite Er, rev_app_distr in Et. cbn in Et. congruence.
      + exists ((a :: d') ++ lit "/"). cbn [truthy negb orb].
        split; [rewrite <- app_assoc; reflexivity|].
        split; [rewrite rev_app_distr; reflexivity|].
        destruct (dirname_shape file_path) as [Hall|(t' & c & Et & Hc)];
          fold d in Hall || fold d in Et; rewrite Ed in *.
        * exfalso. unfold endswith in Ee.
          change (rev (lit "/")) with [47] in Ee.
          destruct (@exists_last _ (a :: d') ltac:(discriminate))
            as (t & c & Et).
          rewrite Et in Hall. apply forallb_sep_last in Hall. subst c.
          rewrite Et, rev_app_distr in Ee. cbn in Ee. discriminate.
        * assert (Hns : forallb (N.eqb 47) ((a :: d') ++ lit "/") = false).
          { rewrite Et. rewrite !forallb_app. cbn [forallb].
            apply N.eqb_neq in Hc. rewrite N.eqb_sym in Hc. rewrite Hc.
            rewrite andb_false_r. reflexivity. }
          rewrite Hns. cbn [truthy app andb negb].
          change (a :: d' ++ lit "/") with ((a :: d') ++ [47]).
          rewrite rstrip_by_drop by reflexivity.
          rewrite Et. apply rstrip_by_keep.
          destruct (char_in (lit "/") c) eqn:Ec; [|reflexivity].
          change (lit "/") with [47] in Ec. unfold char_in in Ec.
          cbn in Ec. rewrite orb_false_r in Ec. apply N.eqb_eq in Ec.
          contradiction. }
  destruct Hjoin as (x & Ej & Hx & Hd).
  assert (Hbase : basename (path_join d f) = f).
  { rewrite Ej. apply (path_tail_app x f Hf Hx). }
  split; [reflexivity|]. split; [|split].
  - rewrite Ej, dirname_of_head by assumption. exact Hd.
  - exact Hbase.
  - intros E. rewrite E in Hbase. fold b in Hbase. unfold f in Hbase.
    apply (f_equal (@length _)) in Hbase. rewrite !length_app in Hbase.
    change (length (lit ".backup_")) with 8%nat in Hbase. lia.
Qed.

Lemma create_backup_path_same_directory_witness :
  let o := mkOracle (fun _ => true) (lit "20250101_120000")
             (fun _ _ => Returned tt) (fun _ => Raised)
             (fun _ _ => Returned tt) in
  snd (run o (create_backup_path (lit "/home/u/mail/msgFilterRules.dat")))
  = lit "/home/u/mail/msgFilterRules.dat.backup_20250101_120000"
  /\ dirname (snd (run o (create_backup_path
                            (lit "/home/u/mail/msgFilterRules.dat"))))
     = lit "/home/u/mail".
Proof.
  intros o. split; [vm_compute; reflexivity|].
  assert (Hts : ~ In 47 (o_now o)).
  { vm_compute. intros H.
    repeat (destruct H as [H|H]; [discriminate H|]). exact H. }
  destruct (create_backup_path_same_directory o
              (lit "/home/u/mail/msgFilterRules.dat") Hts) as (_ & Hd & _).
  rewrite Hd. vm_compute. reflexivity.
Defined.

(** ** Validation of the header field *)

Section Validation.

(** Python's [str.lower]; on a string of characters below 128 it lowers
    the letters A to Z and leaves the rest. *)
Variable lower : str -> str.
Hypothesis lower_ascii :
  forall s, Forall (fun c => c < 128) s -> lower s = map ascii_lower s.

Lemma validate_iff (header_field : str) :
  validate_header_field lower header_field = true
  <-> In (lower header_field) valid_fields.
Proof.
  unfold validate_header_field. rewrite existsb_exists. split.
  - intros (x & Hx & E). apply str_eqb_eq in E. subst x. exact Hx.
  - intros H. exists (lower header_field). split; [exact H|].
    apply str_eqb_refl.
Qed.

(** X11. [validate_header_field] on a field of characters below 128
    accepts it exactly when its letters, put in lower case, spell [from],
    [to], [cc] or [subject]: the test ignores case and nothing else (no
    trimming, no prefix match); so [From] and [SUBJECT] are accepted, [ from]
    and [body] are not. *)
Theorem validate_header_field_ascii (header_field : str) :
  Forall (fun c => c < 128) header_field ->
  (validate_header_field lower header_field = true
   <-> In (map ascii_lower header_field) valid_fields)
  /\ (validate_header_field lower header_field = true ->
      length header_field = 4%nat \/ length header_field = 2%nat
      \/ length header_field = 7%nat).
Proof.
  intros Ha. rewrite validate_iff, (lower_ascii _ Ha). split; [reflexivity|].
  unfold valid_fields. intros H.
  assert (Hl : forall s : string,
             map ascii_lower header_field = lit s ->
             length header_field = length (lit s)).
  { intros s E. rewrite <- E, length_map. reflexivity. }
  destruct H as [H|[H|[H|[H|[]]]]]; symmetry in H; apply Hl in H;
    vm_compute in H; auto.
Qed.

End Validation.

Lemma validate_header_field_ascii_witness :
  validate_header_field (map ascii_lower) (lit "From") = true
  /\ validate_header_field (map ascii_lower) (lit "SUBJECT") = true
  /\ validate_header_field (map ascii_lower) (lit " from") = false
  /\ validate_header_field (map ascii_lower) (lit "body") = false.
Proof.
  assert (Hlow : forall s, Forall (fun c => c < 128) s ->
                           map ascii_lower s = map ascii_lower s)
    by reflexivity.
  assert (Hascii : forall s : string,
             forallb (fun c => c <? 128) (lit s) = true ->
             Forall (fun c => c < 128) (lit s)).
  { intros s H. apply Forall_forall. intros c Hc.
    apply list_elem_of_In in Hc.
    rewrite forallb_forall in H. apply N.ltb_lt. apply H. exact Hc. }
  split; [|split; [|split]].
  - destruct (validate_header_field_ascii _ Hlow (lit "From")
                (Hascii "From"%string eq_refl)) as [Hiff _].
    apply Hiff. vm_compute. auto.
  - destruct (validate_header_field_ascii _ Hlow (lit "SUBJECT")
                (Hascii "SUBJECT"%string eq_refl)) as [Hiff _].
    apply Hiff. vm_compute. auto.
  - destruct (validate_header_field_ascii _ Hlow (lit " from")
                (Hascii " from"%string eq_refl)) as [Hiff _].
    apply not_true_is_false. intros E.
    apply Hiff in E. vm_compute in E.
    repeat (destruct E as [E|E]; [discriminate E|]). destruct E.
  - destruct (validate_header_field_ascii _ Hlow (lit "body")
                (Hascii "body"%string eq_refl)) as [Hiff _].
    apply not_true_is_false. intros E.
    apply Hiff in E. vm_compute in E.
    repeat (destruct E as [E|E]; [discriminate E|]). destruct E.
Defined.

(** ** One run of [process_filter_rules] *)

Lemma add_condition_after_find (h : heap) (self : MsgFilterParser)
    (rn f v : str) (rule : loc) :
  find_rule_by_name h self rn = Some rule ->
  exists h2, add_condition_to_rule h self rn f v = (h2, self, true).
Proof.
  intros Hf. rewrite (add_condition_found _ _ _ _ _ _ Hf). eauto.
Qed.

(** What a run does, by the answers of the operating system. *)
Lemma process_run (lower : str -> str) (o : oracle) (h : heap)
    (parser : MsgFilterParser) (rn f v dest : str) (fp : option str) :
  run o (process_filter_rules lower h parser rn f v dest fp)
  = let path := target_path fp in
    let ts := o_now o in
    let bp := backup_path_at path ts in
    if negb (validate_header_field lower f) then ([], (h, parser, false))
    else if negb (o_exists o path)
    then ([EvExists path false], (h, parser, false))
    else
      match o_copy2 o path bp with
      | Raised =>
          ([EvExists path true; EvNow ts; EvCopy2 path bp Raised],
           (h, parser, false))
      | Returned u =>
          match o_read o path with
          | Raised =>
              ([EvExists path true; EvNow ts; EvCopy2 path bp (Returned u);
                EvRead path Raised],
               (h, parser, false))
          | Returned content =>
              let hp := edited h parser content rn f v dest in
              let text := write_file (fst hp) (snd hp) None in
              ([EvExists path true; EvNow ts; EvCopy2 path bp (Returned u);
                EvRead path (Returned content);
                EvWrite path text (o_write o path text)],
               (fst hp, snd hp,
                match o_write o path text with
                | Returned _ => true
                | Raised => false
                end))
          end
      end.
Proof.
  unfold process_filter_rules. fold (target_path fp). cbv zeta.
  destruct (negb (validate_header_field lower f)); [reflexivity|].
  cbn [run]. destruct (o_exists o (target_path fp)); [|reflexivity].
  cbn [negb]. unfold backup_file, create_backup_path.
  cbn [pbind run]. fold (backup_path_at (target_path fp) (o_now o)).
  destruct (o_copy2 o (target_path fp)
              (backup_path_at (target_path fp) (o_now o))) as [u|];
    [|reflexivity].
  cbn [negb pbind run]. unfold parse_file. cbn [pbind run].
  destruct (o_read o (target_path fp)) as [content|]; [|reflexivity].
  unfold edited.
  destruct (parse_content_refines h parser content)
    as (h1 & p1 & rs & -> & _).
  cbn [pbind run].
  destruct (find_rule_by_name h1 p1 rn) as [rule|] eqn:Hf.
  - destruct (add_condition_after_find h1 p1 rn f v rule Hf) as [h2 ->].
    cbn [negb fst snd]. unfold write_file_at. cbn [pbind run].
    destruct (o_write o (target_path fp) (write_file h2 p1 None));
      reflexivity.
  - unfold create_new_rule, alloc. cbn [fst snd].
    unfold write_file_at. cbn [pbind run].
    destruct (o_write o (target_path fp) _); reflexivity.
Qed.

Lemma unit_outcome (u : unit) : Returned u = Returned tt.
Proof. destruct u. reflexivity. Qed.

(** X12. [process_filter_rules] writes the file only after it was found
    to exist, the clock was read, the file was copied without error to the
    backup path for that timestamp, and the file was read without error, in
    this order and with no other call: a run whose calls include a write
    made exactly these five calls, the write being the last. In particular
    a rejected header field, a missing file, a failed backup or a failed
    read leave the file unwritten. *)
Theorem process_writes_after_backup (lower : str -> str) (o : oracle)
    (h : heap) (parser : MsgFilterParser) (rn f v dest : str)
    (fp : option str) (path text : str) (w : outcome unit) :
  In (EvWrite path text w)
     (fst (run o (process_filter_rules lower h parser rn f v dest fp))) ->
  exists content,
    path = target_path fp
    /\ validate_header_field lower f = true
    /\ fst (run o (process_filter_rules lower h parser rn f v dest fp))
       = [ EvExists path true; EvNow (o_now o);
           EvCopy2 path (backup_path_at path (o_now o)) (Returned tt);
           EvRead path (Returned content); EvWrite path text w ].
Proof.
  rewrite process_run. cbv zeta.
  destruct (validate_header_field lower f); cbn [negb fst];
    [|intros []].
  destruct (o_exists o (target_path fp)); cbn [negb fst];
    [|intros [H|[]]; discriminate H].
  destruct (o_copy2 o _ _) as [u|]; cbn [fst];
    [|intros [H|[H|[H|[]]]]; discriminate H].
  destruct (o_read o _) as [content|]; cbn [fst];
    [|intros [H|[H|[H|[H|[]]]]]; discriminate H].
  intros [H|[H|[H|[H|[H|[]]]]]]; try discriminate H.
  injection H as <- <- <-. exists content.
  rewrite (unit_outcome u). auto.
Qed.

Lemma process_writes_after_backup_witness :
  let o := mkOracle (fun _ => true) (lit "20250101_120000")
             (fun _ _ => Returned tt)
             (fun _ => Returned (lit "version=9"))
             (fun _ _ => Raised) in
  exists text content,
    fst (run o (process_filter_rules (map ascii_lower) [] MsgFilterParser_init
                  (lit "W") (lit "from") (lit "x") (lit "F")
                  (Some (lit "/m/rules.dat"))))
    = [ EvExists (lit "/m/rules.dat") true; EvNow (lit "20250101_120000");
        EvCopy2 (lit "/m/rules.dat")
                (backup_path_at (lit "/m/rules.dat") (lit "20250101_120000"))
                (Returned tt);
        EvRead (lit "/m/rules.dat") (Returned content);
        EvWrite (lit "/m/rules.dat") text Raised ].
Proof.
  intros o.
  pose (hp := edited [] MsgFilterParser_init (lit "version=9")
                (lit "W") (lit "from") (lit "x") (lit "F")).
  pose (text := write_file (fst hp) (snd hp) None).
  destruct (process_writes_after_backup (map ascii_lower) o []
              MsgFilterParser_init (lit "W") (lit "from") (lit "x") (lit "F")
              (Some (lit "/m/rules.dat")) (lit "/m/rules.dat") text Raised)
    as (content & _ & _ & E).
  - vm_compute. do 4 right. left. reflexivity.
  - exists text, content. exact E.
Defined.

(** X13. [process_filter_rules] returns [True] exactly when its run made
    the five calls (exists, clock, copy, read, write) and the write returned
    without error. So with an accepted header field, an existing file and a
    copy, a read and a write that do not raise, it always returns [True]:
    the branch that returns [False] when [add_condition_to_rule] fails is
    never taken, the rule having just been found. When no write was
    attempted, the heap and the parser of the application are as before the
    call. *)
Theorem process_success (lower : str -> str) (o : oracle)
    (h : heap) (parser : MsgFilterParser) (rn f v dest : str)
    (fp : option str) :
  let r := run o (process_filter_rules lower h parser rn f v dest fp) in
  let path := target_path fp in
  (snd (snd r) = true <->
   exists content text,
     fst r = full_trace path (o_now o) content text (Returned tt))
  /\ (validate_header_field lower f = true ->
      o_exists o path = true ->
      o_copy2 o path (backup_path_at path (o_now o)) = Returned tt ->
      (exists content, o_read o path = Returned content) ->
      (forall text, o_write o path text = Returned tt) ->
      snd (snd r) = true)
  /\ ((forall p text w, ~ In (EvWrite p text w) (fst r)) ->
      fst (snd r) = (h, parser)).
Proof.
  cbv zeta. rewrite process_run. cbv zeta. unfold full_trace.
  destruct (validate_header_field lower f); cbn [negb fst snd].
  2:{ split; [split; [discriminate | intros (c & t & E); discriminate E]|].
      split; [discriminate | reflexivity]. }
  destruct (o_exists o (target_path fp)); cbn [negb fst snd].
  2:{ split; [split; [discriminate | intros (c & t & E); discriminate E]|].
      split; [discriminate | reflexivity]. }
  destruct (o_copy2 o _ _) as [u|] eqn:Ec; cbn [fst snd].
  2:{ split; [split; [discriminate | intros (c & t & E); discriminate E]|].
      split; [discriminate | reflexivity]. }
  destruct (o_read o _) as [content|] eqn:Er; cbn [fst snd].
  2:{ split; [split; [discriminate | intros (c & t & E); discriminate E]|].
      split; [|reflexivity]. intros _ _ _ (c & E) _. discriminate E. }
  split; [|split].
  - split.
    + intros Hw. exists content. eexists.
      destruct (o_write o _ _) as [[]|]; [|discriminate Hw].
      destruct u. reflexivity.
    + intros (c & t & E). injection E as _ _ _ Hw. rewrite Hw. reflexivity.
  - intros _ _ _ _ Hw. rewrite Hw. reflexivity.
  - intros Hno. exfalso. eapply Hno. do 4 right. left. reflexivity.
Qed.

Lemma process_success_witness :
  let o := mkOracle (fun _ => true) (lit "20250101_120000")
             (fun _ _ => Returned tt)
             (fun _ => Returned (lit "name=W"))
             (fun _ _ => Returned tt) in
  snd (snd (run o (process_filter_rules (map ascii_lower) []
                     MsgFilterParser_init (lit "W") (lit "from") (lit "x")
                     (lit "F") None)))
  = true.
Proof.
  intros o.
  destruct (process_success (map ascii_lower) o [] MsgFilterParser_init
              (lit "W") (lit "from") (lit "x") (lit "F") None)
    as (_ & H & _).
  apply H; try reflexivity; try (eexists; reflexivity).
Defined.

(** ** What a run writes *)

Lemma wf_store (h : heap) (self : MsgFilterParser) (l : loc)
    (r : MsgFilterRule) :
  wf h self -> wf (store h l r) self.
Proof. unfold wf. rewrite length_store. auto. Qed.

Lemma add_condition_wf (h h2 : heap) (self self2 : MsgFilterParser)
    (rn f v : str) (ok : bool) :
  wf h self -> add_condition_to_rule h self rn f v = (h2, self2, ok) ->
  wf h2 self2.
Proof.
  intros Hwf E.
  destruct (find_rule_by_name h self rn) as [rule|] eqn:Hf.
  - rewrite (add_condition_found _ _ _ _ _ _ Hf) in E.
    destruct (condition (deref h rule)); [|destruct (str_in _ _)];
      injection E as <- <- _; try exact Hwf; apply wf_store; exact Hwf.
  - unfold add_condition_to_rule in E. rewrite Hf in E.
    injection E as <- <- _. exact Hwf.
Qed.

(** After the edit the rule of that name exists and holds the term. *)
Lemma edited_has_term (h : heap) (parser : MsgFilterParser)
    (content rn f v dest : str) :
  let hp := edited h parser content rn f v dest in
  wf (fst hp) (snd hp)
  /\ exists l,
       find_rule_by_name (fst hp) (snd hp) rn = Some l
       /\ (l < length (fst hp))%nat
       /\ str_in (term f v) (condition (deref (fst hp) l)) = true.
Proof.
  cbv zeta. unfold edited.
  destruct (parse_content_refines h parser content)
    as (h1 & p1 & rs & -> & _ & _ & _ & _ & Hwf).
  destruct (find_rule_by_name h1 p1 rn) as [rule|] eqn:Hf.
  - pose proof (wf_found _ _ _ _ Hwf Hf) as Hlt.
    destruct (add_condition_to_rule h1 p1 rn f v) as [[h2 p2] ok] eqn:E.
    cbn [fst snd].
    destruct (add_condition_then_present _ _ _ _ _ _ _ _ _ Hlt Hf E)
      as [Hf2 Hin].
    pose proof (add_condition_wf _ _ _ _ _ _ _ _ Hwf E) as Hwf2.
    split; [exact Hwf2|]. exists rule. split; [exact Hf2|].
    split; [exact (wf_found _ _ _ _ Hwf2 Hf2) | exact Hin].
  - unfold create_new_rule, alloc. cbn [fst snd].
    set (r := mkRule rn (lit "yes") (lit "17") (lit "Move to folder") dest
                (lit "OR (" ++ f ++ lit ",contains," ++ v ++ lit ")")).
    split.
    + unfold wf. cbn [rules set_rules]. apply Forall_app. split.
      * eapply Forall_impl; [exact Hwf|]. intros l Hl. cbn beta in Hl.
        rewrite length_app. cbn [length]. lia.
      * constructor; [|constructor]. rewrite length_app. cbn [length]. lia.
    + exists (length h1). split; [|split].
      * unfold find_rule_by_name. cbn [rules set_rules].
        apply find_in_app_new.
        -- rewrite find_in_alloc by exact Hwf. exact Hf.
        -- rewrite deref_alloc_new. reflexivity.
      * rewrite length_app. cbn [length]. lia.
      * rewrite deref_alloc_new. exact (str_in_first_term f v).
Qed.

Lemma str_in_trans (a b c : str) :
  str_in a b = true -> str_in b c = true -> str_in a c = true.
Proof.
  rewrite !str_in_iff. intros (x & y & ->) (x' & y' & ->).
  exists (x' ++ x), (y ++ y'). rewrite <- !app_assoc. reflexivity.
Qed.

Lemma str_in_unlines (line : str) (lines : list str) :
  In line lines ->
  str_in (line ++ [10]) (concat (map (fun l => l ++ [10]) lines)) = true.
Proof.
  intros H. apply in_split in H as (pre & post & ->).
  rewrite map_app, concat_app. cbn [map concat].
  apply str_in_iff. eexists _, _. reflexivity.
Qed.

Lemma In_doc_rule_line (ver lg line : str) (r : MsgFilterRule)
    (rs : list MsgFilterRule) :
  In r rs -> In line (spec_rule_lines r) ->
  In line (spec_doc_lines ver lg rs).
Proof.
  intros Hr Hl. unfold spec_doc_lines.
  apply in_or_app. right. apply in_or_app. right.
  apply in_flat_map. exists r. auto.
Qed.

(** X14. The text [process_filter_rules] writes always holds a line
    [name=<quote>rule_name<quote>] and, as a run of characters, the term
    [(header_field,contains,value)] with the header field as it was given
    (validation compares its lower-case form, the term keeps the original
    spelling). *)
Theorem process_written_text (lower : str -> str) (o : oracle)
    (h : heap) (parser : MsgFilterParser) (rn f v dest : str)
    (fp : option str) (path text : str) (w : outcome unit) :
  In (EvWrite path text w)
     (fst (run o (process_filter_rules lower h parser rn f v dest fp))) ->
  str_in (lit "name=" ++ dquote ++ rn ++ dquote ++ nl) text = true
  /\ str_in (lit "(" ++ f ++ lit ",contains," ++ v ++ lit ")") text = true.
Proof.
  rewrite process_run. cbv zeta.
  destruct (validate_header_field lower f); cbn [negb fst];
    [|intros []].
  destruct (o_exists o (target_path fp)); cbn [negb fst];
    [|intros [H|[]]; discriminate H].
  destruct (o_copy2 o _ _) as [u|]; cbn [fst];
    [|intros [H|[H|[H|[]]]]; discriminate H].
  destruct (o_read o _) as [content|]; cbn [fst];
    [|intros [H|[H|[H|[H|[]]]]]; discriminate H].
  intros [H|[H|[H|[H|[H|[]]]]]]; try discriminate H.
  injection H as _ <- _.
  destruct (edited_has_term h parser content rn f v dest)
    as (Hwf & l & Hf & Hlt & Hin).
  set (hp := edited h parser content rn f v dest) in *.
  rewrite write_file_spec. fold (doc_rules (fst hp) (snd hp)).
  unfold spec_serialize.
  assert (Hr : In (deref (fst hp) l) (doc_rules (fst hp) (snd hp))).
  { unfold doc_rules. apply in_map. apply (find_in_In _ _ _ _ Hf). }
  assert (Hn : name (deref (fst hp) l) = rn).
  { apply find_in_Some in Hf as (_ & _ & _ & Hn & _). exact Hn. }
  split.
  - rewrite <- Hn.
    replace (lit "name=" ++ dquote ++ name (deref (fst hp) l) ++ dquote ++ nl)
      with (spec_line "name" (name (deref (fst hp) l)) ++ [10])
      by (unfold spec_line; rewrite <- !app_assoc; reflexivity).
    apply (str_in_unlines (spec_line "name" (name (deref (fst hp) l)))).
    eapply In_doc_rule_line; [exact Hr|]. left. reflexivity.
  - apply (str_in_trans _ _ _ Hin).
    eapply str_in_trans;
      [|apply (str_in_unlines
                 (spec_line "condition" (condition (deref (fst hp) l))));
        eapply In_doc_rule_line; [exact Hr|]; do 5 right; left; reflexivity].
    apply str_in_iff. exists (lit "condition" ++ [61; 34]), [34; 10].
    unfold spec_line. rewrite <- !app_assoc. reflexivity.
Qed.

Lemma process_written_text_witness :
  let o := mkOracle (fun _ => true) (lit "20250101_120000")
             (fun _ _ => Returned tt)
             (fun _ => Returned (lit "name=W"))
             (fun _ _ => Returned tt) in
  let text :=
    write_file
      (fst (edited [] MsgFilterParser_init (lit "name=W") (lit "W")
              (lit "FROM") (lit "x") (lit "F")))
      (snd (edited [] MsgFilterParser_init (lit "name=W") (lit "W")
              (lit "FROM") (lit "x") (lit "F"))) None in
  str_in (lit "(FROM,contains,x)") text = true.
Proof.
  intros o text.
  apply (process_written_text (map ascii_lower) o [] MsgFilterParser_init
           (lit "W") (lit "FROM") (lit "x") (lit "F") None
           default_file_path text (Returned tt)).
  vm_compute. do 4 right. left. reflexivity.
Defined.

(** ** Running [process_filter_rules] again *)

Lemma no_newline_term (f v : str) :
  no_newline f -> no_newline v -> no_newline (term f v).
Proof.
  intros Hf Hv. unfold no_newline, term. rewrite !in_app_iff.
  intros [H|[H|[H|[H|H]]]]; try contradiction;
    vm_compute in H; repeat (destruct H as [H|H]; [discriminate H|]);
    exact H.
Qed.

Lemma term_last (f v : str) :
  term f v = (lit "(" ++ f ++ lit ",contains," ++ v) ++ [41].
Proof. unfold term. rewrite <- !app_assoc. reflexivity. Qed.

Lemma clean_first_term (f v : str) :
  no_newline f -> no_newline v -> clean_value (lit "OR " ++ term f v).
Proof.
  intros Hf Hv. split; [|split].
  - unfold no_newline. rewrite in_app_iff. intros [H|H].
    + vm_compute in H. repeat (destruct H as [H|H]; [discriminate H|]).
      exact H.
    + exact (no_newline_term f v Hf Hv H).
  - intros t E. discriminate E.
  - intros t E. rewrite term_last, app_assoc in E.
    apply app_inj_tail in E as [_ E]. discriminate E.
Qed.

Lemma clean_next_term (c f v : str) :
  c <> [] -> clean_value c -> no_newline f -> no_newline v ->
  clean_value (c ++ lit " OR " ++ term f v).
Proof.
  intros Hne [Hn [H1 H2]] Hf Hv. split; [|split].
  - unfold no_newline. rewrite !in_app_iff. intros [H|[H|H]].
    + contradiction.
    + vm_compute in H. repeat (destruct H as [H|H]; [discriminate H|]).
      exact H.
    + exact (no_newline_term f v Hf Hv H).
  - intros t E. destruct c as [|x c]; [congruence|].
    cbn [app] in E. injection E as -> _. exact (H1 c eq_refl).
  - intros t E. rewrite term_last, !app_assoc in E.
    apply app_inj_tail in E as [_ E]. discriminate E.
Qed.

Lemma clean_rule_set_condition (c : str) (r : MsgFilterRule) :
  clean_value c -> clean_rule r -> clean_rule (set_condition c r).
Proof.
  intros Hc Hr. apply Forall_fields in Hr as (H1 & H2 & H3 & H4 & H5 & _).
  unfold clean_rule, rule_fields, set_condition.
  cbn [name enabled type action action_value condition].
  repeat (constructor; [assumption|]); constructor.
Qed.

(** A call keeps every object clean when the field and the value hold no
    newline. *)
Lemma add_condition_clean (h h2 : heap) (self self2 : MsgFilterParser)
    (rn f v : str) (ok : bool) (l : loc) :
  no_newline f -> no_newline v ->
  add_condition_to_rule h self rn f v = (h2, self2, ok) ->
  clean_rule (deref h l) -> clean_rule (deref h2 l).
Proof.
  intros Hf Hv E Hl.
  destruct (find_rule_by_name h self rn) as [rule|] eqn:Hfind.
  - rewrite (add_condition_found _ _ _ _ _ _ Hfind) in E.
    assert (Hstore : forall c, clean_value c ->
               clean_rule (deref (store h rule (set_condition c (deref h rule)))
                                 l)).
    { intros c Hc. destruct (Nat.eq_dec rule l) as [->|Hne].
      - destruct (Nat.lt_ge_cases l (length h)) as [Hlt|Hge].
        + rewrite deref_store_eq by exact Hlt.
          apply clean_rule_set_condition; assumption.
        + rewrite store_dangling by exact Hge. exact Hl.
      - rewrite deref_store_ne by exact Hne. exact Hl. }
    destruct (condition (deref h rule)) as [|x cs] eqn:Ec.
    + injection E as <- _ _.
      exact (Hstore (lit "OR " ++ term f v) (clean_first_term f v Hf Hv)).
    + destruct (str_in (term f v) (x :: cs)); injection E as <- _ _;
        [exact Hl|].
      destruct (Nat.eq_dec rule l) as [->|Hne].
      * pose proof Hl as Hl'.
        apply Forall_fields in Hl' as (_ & _ & _ & _ & _ & H6).
        rewrite Ec in H6.
        exact (Hstore ((x :: cs) ++ lit " OR " ++ term f v)
                 (clean_next_term (x :: cs) f v ltac:(discriminate) H6 Hf Hv)).
      * rewrite deref_store_ne by exact Hne. exact Hl.
  - unfold add_condition_to_rule in E. rewrite Hfind in E.
    injection E as <- _ _. exact Hl.
Qed.

Lemma Forall_clean_fields (h : heap) (rs : list loc) :
  Forall clean_value (flat_map rule_fields (map (deref h) rs))
  <-> Forall (fun l => clean_rule (deref h l)) rs.
Proof.
  induction rs as [|l rs IH].
  - split; constructor.
  - change (flat_map rule_fields (map (deref h) (l :: rs)))
      with (rule_fields (deref h l)
              ++ flat_map rule_fields (map (deref h) rs)).
    split.
    + intros H. apply Forall_app in H as [H1 H2].
      constructor; [exact H1 | apply IH; exact H2].
    + intros H. inversion H as [|? ? H1 H2]; subst.
      apply Forall_app. split; [exact H1 | apply IH; exact H2].
Qed.

Lemma doc_values_clean_iff (h : heap) (p : MsgFilterParser) :
  Forall clean_value (doc_values h p)
  <-> clean_value (version p) /\ clean_value (logging p)
      /\ Forall (fun l => clean_rule (deref h l)) (rules p).
Proof.
  unfold doc_values, doc_rules. split.
  - intros H. inversion H as [|? ? Hv H']; subst.
    inversion H' as [|? ? Hl Hr]; subst.
    split; [exact Hv|]. split; [exact Hl|].
    apply Forall_clean_fields. exact Hr.
  - intros (Hv & Hl & Hr). constructor; [exact Hv|].
    constructor; [exact Hl|].
    apply Forall_clean_fields. exact Hr.
Qed.

(** After the edit every value of the document is clean, when the
    arguments are. *)
Lemma edited_clean (h : heap) (parser : MsgFilterParser)
    (content rn f v dest : str) :
  clean_value (version parser) -> clean_value (logging parser) ->
  clean_value rn -> clean_value dest -> no_newline f -> no_newline v ->
  let hp := edited h parser content rn f v dest in
  Forall clean_value (doc_values (fst hp) (snd hp)).
Proof.
  intros Hver Hlog Hrn Hdest Hf Hv. cbv zeta. unfold edited.
  destruct (parse_content_clean h parser content Hver Hlog)
    as (h1 & p1 & rs & -> & _ & Hwf & Hc).
  apply doc_values_clean_iff in Hc as (Hv1 & Hl1 & Hr1).
  destruct (find_rule_by_name h1 p1 rn) as [rule|] eqn:Hfind.
  - destruct (add_condition_to_rule h1 p1 rn f v) as [[h2 p2] ok] eqn:E.
    cbn [fst snd]. apply doc_values_clean_iff.
    assert (p2 = p1) as ->.
    { rewrite (add_condition_found _ _ _ _ _ _ Hfind) in E.
      injection E as _ <- _. reflexivity. }
    split; [exact Hv1|]. split; [exact Hl1|].
    eapply Forall_impl; [exact Hr1|]. intros l Hl. cbn beta in Hl.
    exact (add_condition_clean _ _ _ _ _ _ _ _ l Hf Hv E Hl).
  - unfold create_new_rule, alloc. cbn [fst snd].
    apply doc_values_clean_iff. cbn [version logging rules set_rules].
    split; [exact Hv1|]. split; [exact Hl1|].
    apply Forall_app. split.
    + unfold wf in Hwf. rewrite Forall_forall in Hr1, Hwf.
      apply Forall_forall. intros l Hl.
      rewrite deref_alloc_old by (apply Hwf; exact Hl). apply Hr1. exact Hl.
    + constructor; [|constructor]. rewrite deref_alloc_new.
      unfold clean_rule, rule_fields.
      cbn [name enabled type action action_value condition].
      constructor; [exact Hrn|].
      constructor; [apply clean_valueb_sound; reflexivity|].
      constructor; [apply clean_valueb_sound; reflexivity|].
      constructor; [apply clean_valueb_sound; reflexivity|].
      constructor; [exact Hdest|].
      constructor; [exact (clean_first_term f v Hf Hv) | constructor].
Qed.

(** The lookup seen on the rule values. *)
Lemma find_in_view (h : heap) (rs : list loc) (n : str) :
  option_map (deref h) (find_in h rs n)
  = List.find (fun r => str_eqb (name r) n) (map (deref h) rs).
Proof.
  induction rs as [|l rs IH]; [reflexivity|]. cbn [find_in map List.find].
  destruct (str_eqb (name (deref h l)) n); [reflexivity | exact IH].
Qed.

Lemma find_same_view (h h' : heap) (p p' : MsgFilterParser) (n : str)
    (l : loc) :
  doc_rules h' p' = doc_rules h p ->
  find_rule_by_name h p n = Some l ->
  exists l', find_rule_by_name h' p' n = Some l' /\ deref h' l' = deref h l.
Proof.
  unfold find_rule_by_name, doc_rules. intros Hd Hf.
  pose proof (find_in_view h (rules p) n) as V.
  pose proof (find_in_view h' (rules p') n) as V'.
  rewrite Hd, <- V, Hf in V'. cbn [option_map] in V'.
  destruct (find_in h' (rules p') n) as [l'|]; [|discriminate V'].
  exists l'. split; [reflexivity|]. cbn [option_map] in V'. congruence.
Qed.

(** Once a document holds the term in the rule of that name, reading its
    text back and editing again gives the same text. *)
Lemma edited_written_fixed (h2 h' : heap) (p2 parser' : MsgFilterParser)
    (rn f v dest : str) (l : loc) :
  Forall clean_value (doc_values h2 p2) ->
  find_rule_by_name h2 p2 rn = Some l ->
  str_in (term f v) (condition (deref h2 l)) = true ->
  (version parser' = [] \/ version parser' = version p2) ->
  (logging parser' = [] \/ logging parser' = logging p2) ->
  let hp := edited h' parser' (write_file h2 p2 None) rn f v dest in
  write_file (fst hp) (snd hp) None = write_file h2 p2 None.
Proof.
  intros Hc Hf Hin Hver Hlog. cbv zeta. unfold edited.
  destruct (parse_written_clean h2 h' p2 parser' Hc)
    as (h3 & p3 & rs & -> & _ & _ & Hv & Hl & Hd).
  destruct (find_same_view h2 h3 p2 p3 rn l Hd Hf) as (l3 & Hf3 & Hl3).
  rewrite Hf3.
  assert (Hin3 : str_in (term f v) (condition (deref h3 l3)) = true)
    by (rewrite Hl3; exact Hin).
  rewrite (add_condition_present _ _ _ _ _ _ Hf3 Hin3). cbn [fst snd].
  rewrite !write_file_spec. fold (doc_rules h3 p3). fold (doc_rules h2 p2).
  rewrite Hd. f_equal.
  - rewrite Hv. destruct (version p2) as [|c s]; [|reflexivity].
    cbn [truthy]. destruct Hver as [E|E]; exact E.
  - rewrite Hl. destruct (logging p2) as [|c s]; [|reflexivity].
    cbn [truthy]. destruct Hlog as [E|E]; exact E.
Qed.

(** X15. Running [process_filter_rules] again with the same arguments
    writes the same text again: when a first run wrote the text [t1] and a
    second run, by a new application or by the same one, reads [t1] back and
    none of its calls fails, the second run writes exactly [t1] and returns
    [True]. This holds when the rule name and the destination folder hold no
    newline and no double quote at either end, the header field and the
    value hold no newline, and the two scalars of the first application's
    parser were clean (as they are in a new application). *)
Theorem process_twice_same_text (lower : str -> str) (o1 o2 : oracle)
    (h h' : heap) (parser parser' : MsgFilterParser)
    (rn f v dest : str) (fp : option str) (t1 : str) :
  clean_value (version parser) -> clean_value (logging parser) ->
  clean_value rn -> clean_value dest -> no_newline f -> no_newline v ->
  In (EvWrite (target_path fp) t1 (Returned tt))
     (fst (run o1 (process_filter_rules lower h parser rn f v dest fp))) ->
  (parser' = MsgFilterParser_init
   \/ (h', parser')
      = fst (snd (run o1 (process_filter_rules lower h parser rn f v dest
                            fp)))) ->
  o_exists o2 (target_path fp) = true ->
  o_copy2 o2 (target_path fp) (backup_path_at (target_path fp) (o_now o2))
  = Returned tt ->
  o_read o2 (target_path fp) = Returned t1 ->
  (forall text, o_write o2 (target_path fp) text = Returned tt) ->
  fst (run o2 (process_filter_rules lower h' parser' rn f v dest fp))
  = full_trace (target_path fp) (o_now o2) t1 t1 (Returned tt)
  /\ snd (snd (run o2 (process_filter_rules lower h' parser' rn f v dest fp)))
     = true.
Proof.
  intros Hver Hlog Hrn Hdest Hf Hv Hw1 Happ He2 Hc2 Hr2 Hw2.
  rewrite process_run in Hw1, Happ. rewrite process_run. cbv zeta in *.
  destruct (validate_header_field lower f); cbn [negb fst snd] in *;
    [|destruct Hw1].
  rewrite He2, Hc2, Hr2. cbn [negb fst snd].
  destruct (o_exists o1 (target_path fp)); cbn [negb fst snd] in *;
    [|destruct Hw1 as [H|[]]; discriminate H].
  destruct (o_copy2 o1 _ _) as [u|]; cbn [fst snd] in *;
    [|destruct Hw1 as [H|[H|[H|[]]]]; discriminate H].
  destruct (o_read o1 _) as [content|]; cbn [fst snd] in *;
    [|destruct Hw1 as [H|[H|[H|[H|[]]]]]; discriminate H].
  destruct Hw1 as [H|[H|[H|[H|[H|[]]]]]]; try discriminate H.
  injection H as Ht1 _.
  pose proof (edited_clean h parser content rn f v dest
                Hver Hlog Hrn Hdest Hf Hv) as Hclean.
  destruct (edited_has_term h parser content rn f v dest)
    as (_ & l & Hfind & _ & Hin).
  cbv zeta in Hclean.
  set (hp := edited h parser content rn f v dest) in *.
  assert (Hfix : write_file
                   (fst (edited h' parser' t1 rn f v dest))
                   (snd (edited h' parser' t1 rn f v dest)) None = t1).
  { rewrite <- Ht1.
    apply (edited_written_fixed (fst hp) h' (snd hp) parser' rn f v dest l
             Hclean Hfind Hin).
    - destruct Happ as [->|E]; [left; reflexivity|].
      right. injection E as _ ->. reflexivity.
    - destruct Happ as [->|E]; [left; reflexivity|].
      right. injection E as _ ->. reflexivity. }
  rewrite Hfix, Hw2. unfold full_trace. split; reflexivity.
Qed.

Lemma no_newline_b (s : str) : existsb (N.eqb 10) s = false -> no_newline s.
Proof.
  intros H Hin.
  assert (existsb (N.eqb 10) s = true) as Hex.
  { apply existsb_exists. exists 10. split; [exact Hin | reflexivity]. }
  congruence.
Qed.

Lemma process_twice_same_text_witness :
  let o1 := mkOracle (fun _ => true) (lit "20250101_120000")
              (fun _ _ => Returned tt)
              (fun _ => Returned (lit "name=W"))
              (fun _ _ => Returned tt) in
  let hp := edited [] MsgFilterParser_init (lit "name=W")
              (lit "W") (lit "from") (lit "x") (lit "F") in
  let t1 := write_file (fst hp) (snd hp) None in
  let o2 := mkOracle (fun _ => true) (lit "20250102_090000")
              (fun _ _ => Returned tt)
              (fun _ => Returned t1)
              (fun _ _ => Returned tt) in
  fst (run o2 (process_filter_rules (map ascii_lower) [] MsgFilterParser_init
                 (lit "W") (lit "from") (lit "x") (lit "F") None))
  = full_trace default_file_path (lit "20250102_090000") t1 t1 (Returned tt).
Proof.
  intros o1 hp t1 o2.
  apply (process_twice_same_text (map ascii_lower) o1 o2 [] []
           MsgFilterParser_init MsgFilterParser_init
           (lit "W") (lit "from") (lit "x") (lit "F") None t1).
  - apply clean_valueb_sound. reflexivity.
  - apply clean_valueb_sound. reflexivity.
  - apply clean_valueb_sound. reflexivity.
  - apply clean_valueb_sound. reflexivity.
  - apply no_newline_b. reflexivity.
  - apply no_newline_b. reflexivity.
  - vm_compute. do 4 right. left. reflexivity.
  - left. reflexivity.
  - reflexivity.
  - reflexivity.
  - reflexivity.
  - intros text. reflexivity.
Defined.

(** ** Several terms, one after the other *)

(** X16. Calls of [add_condition_to_rule] for one rule whose condition is
    not empty, each with a term that the condition does not hold yet when
    its turn comes, all return [True] and leave the condition it had
    followed by the terms in call order, each preceded by [ OR ]. *)
Theorem add_all_in_order (pairs : list (str * str)) (h : heap)
    (self : MsgFilterParser) (rn : str) (rule : loc) :
  wf h self ->
  find_rule_by_name h self rn = Some rule ->
  condition (deref h rule) <> [] ->
  fresh_terms (condition (deref h rule)) pairs ->
  exists h',
    add_all h self rn pairs = (h', true)
    /\ condition (deref h' rule)
       = condition (deref h rule)
         ++ concat (map (fun fv => lit " OR " ++ term (fst fv) (snd fv)) pairs)
    /\ find_rule_by_name h' self rn = Some rule.
Proof.
  revert h. induction pairs as [|[f v] rest IH]; intros h Hwf Hf Hne Hfresh.
  - exists h. cbn [add_all map concat]. rewrite app_nil_r. auto.
  - destruct Hfresh as [Hnew Hrest].
    pose proof (wf_found _ _ _ _ Hwf Hf) as Hlt.
    pose proof (add_condition_found h self rn f v rule Hf) as E.
    destruct (condition (deref h rule)) as [|c cs] eqn:Ec; [congruence|].
    rewrite Hnew in E.
    set (h1 := store h rule
                 (set_condition ((c :: cs) ++ lit " OR " ++ term f v)
                                (deref h rule))) in *.
    assert (Hd1 : condition (deref h1 rule)
                  = (c :: cs) ++ lit " OR " ++ term f v).
    { unfold h1. rewrite deref_store_eq by exact Hlt. reflexivity. }
    assert (Hf1 : find_rule_by_name h1 self rn = Some rule).
    { unfold find_rule_by_name, h1. rewrite find_in_store_condition.
      exact Hf. }
    destruct (IH h1) as (h' & E' & Hc' & Hf').
    + apply wf_store. exact Hwf.
    + exact Hf1.
    + rewrite Hd1. discriminate.
    + rewrite Hd1. exact Hrest.
    + exists h'. cbn [add_all]. rewrite E, E'. cbn [andb].
      split; [reflexivity|]. split; [|exact Hf'].
      rewrite Hc', Hd1. cbn [map concat fst snd].
      rewrite <- !app_assoc. reflexivity.
Qed.

Lemma add_all_in_order_witness :
  let r := mkRule (lit "Work") (lit "yes") (lit "17") (lit "Move to folder")
                  (lit "imap://user@host.com/Work")
                  (lit "OR (from,contains,work@company.com)") in
  let self := mkParser (lit "9") (lit "no") [0%nat] in
  exists h',
    add_all [r] self (lit "Work")
      [ (lit "subject", lit "urgent"); (lit "to", lit "team@company.com");
        (lit "cc", lit "manager@company.com") ]
    = (h', true)
    /\ condition (deref h' 0%nat)
       = lit "OR (from,contains,work@company.com) OR (subject,contains,urgent) OR (to,contains,team@company.com) OR (cc,contains,manager@company.com)".
Proof.
  intros r self.
  assert (Hwf : wf [r] self) by (repeat constructor).
  destruct (add_all_in_order
              [ (lit "subject", lit "urgent"); (lit "to", lit "team@company.com");
                (lit "cc", lit "manager@company.com") ]
              [r] self (lit "Work") 0%nat Hwf eq_refl)
    as (h' & E & Hc & _).
  - discriminate.
  - vm_compute. auto.
  - exists h'. split; [exact E|]. rewrite Hc. vm_compute. reflexivity.
Defined.
